(** * Dynamic load balancer: a shallow embedding of [processLoaded.py]

    The scheduling core of the simulation (classes [Processor], [Task] and
    [LoadBalancer], and the two control handlers [change_algorithm] and
    [change_processors] of [LoadBalancerApp]) written as Rocq functions,
    followed by the properties of the design document that concern them.

    Modelling decisions.
    - Python numbers.  The code never fixes the numeric type of loads, times
      and speeds: it works on [int] and on [float].  The arithmetic the code
      uses is gathered in the class [PyNum]; the instance on [Q] is exact
      arithmetic (Python's unbounded [int], and every run in which no
      operation rounds), the instance on [float] is IEEE 754 binary64, which
      is what Python's [float] is.  Division reports [ZeroDivisionError] as
      [None].  Python's [/] gives a rounded [float] also for [int]
      operands: of a quotient, the exact instance is used only for whether
      it is defined, and what is proved of the value of a quotient is
      proved for every instance and shown on [float].
    - Object identity.  A [Task] is a mutable object that the queue and the
      processors hold by reference; [task in self.tasks] and
      [self.tasks.remove(task)] compare by identity since [Task] defines no
      [__eq__].  Tasks live in a store ([gmap] from references to task
      records) and lists hold references.  Reading a reference that the
      store does not hold gives a task whose fields are all 0; no run of
      the program produces such a reference.
    - The processors of a balancer are distinct objects held in one list;
      a processor is identified by its position in that list.
    - The GUI (widgets, plotting) is not modelled.  The random numbers
      that the task generator draws are arguments of its model, and so are
      the task lists that the loop of the simulation receives; a pass of
      the loop and a handler of the application are steps that do not
      overlap. *)

From Stdlib Require Import ZArith QArith Qround Lia Lqa.
From Stdlib Require Import Floats.PrimFloat Floats.FloatOps Floats.SpecFloat.
From Stdlib Require Floats.FloatAxioms.
From stdpp Require Import gmap strings list.

Close Scope Q_scope.
Open Scope Z_scope.

(** ** Python numbers *)

Class PyNum (N : Type) : Type := {
  pint : Z -> N;                (* an [int] literal, or the value of [len] *)
  padd : N -> N -> N;           (* [a + b] *)
  psub : N -> N -> N;           (* [a - b] *)
  pmul : N -> N -> N;           (* [a * b] *)
  pdiv : N -> N -> option N;    (* [a / b]; [None] is [ZeroDivisionError] *)
  plt : N -> N -> bool;         (* [a < b] *)
  ple : N -> N -> bool;         (* [a <= b]; [a >= b] is [ple b a] *)
}.

(** Exact arithmetic: [+], [-], [*] and the comparisons of Python's [int],
    and a quotient that is defined exactly when Python's is. *)
#[export] Instance Q_PyNum : PyNum Q := {|
  pint := inject_Z;
  padd := Qplus;
  psub := Qminus;
  pmul := Qmult;
  pdiv := fun a b => if Qeq_bool b (inject_Z 0) then None else Some (Qdiv a b);
  plt := fun a b => negb (Qle_bool b a);
  ple := Qle_bool;
|}.

(** Binary64 arithmetic.  [pint] rounds an integer to the nearest float, as
    [float(n)] does. *)
#[export] Instance float_PyNum : PyNum float := {|
  pint := fun z => SF2Prim (binary_normalize prec emax z 0 false);
  padd := PrimFloat.add;
  psub := PrimFloat.sub;
  pmul := PrimFloat.mul;
  pdiv := fun a b => if PrimFloat.eqb b PrimFloat.zero then None
                     else Some (PrimFloat.div a b);
  plt := PrimFloat.ltb;
  ple := PrimFloat.leb;
|}.

(** ** Data model *)

Definition task_ref := nat.

Record Task (N : Type) : Type := mkTask {
  task_id : Z;
  load : N;                     (* CPU load (0-100%) *)
  execution_time : N;           (* time to complete *)
  remaining_time : N;           (* remaining time *)
  processor : option Z;         (* assigned processor; never written *)
}.
Arguments mkTask {N} _ _ _ _ _.
Arguments task_id {N} _.
Arguments load {N} _.
Arguments execution_time {N} _.
Arguments remaining_time {N} _.
Arguments processor {N} _.

Record Processor (N : Type) : Type := mkProcessor {
  proc_id : Z;
  capacity : N;                 (* maximum load capacity *)
  processing_speed : N;         (* speed multiplier *)
  current_load : N;             (* current load *)
  tasks : list task_ref;        (* tasks currently assigned *)
  history : list N;             (* history of load values *)
}.
Arguments mkProcessor {N} _ _ _ _ _ _.
Arguments proc_id {N} _.
Arguments capacity {N} _.
Arguments processing_speed {N} _.
Arguments current_load {N} _.
Arguments tasks {N} _.
Arguments history {N} _.

Record LoadBalancer (N : Type) : Type := mkLoadBalancer {
  processors : list (Processor N);
  task_queue : list task_ref;   (* FIFO: [put] appends, [get] takes the head *)
  completed_tasks : Z;
  task_id_counter : Z;
  algorithm : string;
  running : bool;
  paused : bool;
}.
Arguments mkLoadBalancer {N} _ _ _ _ _ _ _.
Arguments processors {N} _.
Arguments task_queue {N} _.
Arguments completed_tasks {N} _.
Arguments task_id_counter {N} _.
Arguments algorithm {N} _.
Arguments running {N} _.
Arguments paused {N} _.

(** The task store. *)
Abbreviation heap N := (gmap task_ref (Task N)).

(** ** Python list helpers *)

(** [l.remove(x)] on a list that holds [x]: the first occurrence goes. *)
Fixpoint list_remove_first (x : task_ref) (l : list task_ref) : list task_ref :=
  match l with
  | [] => []
  | y :: l' => if decide (x = y) then l' else y :: list_remove_first x l'
  end.

(** The start of a slice [l[i:]] or the end of a slice [l[:i]]: a negative
    index counts from the end, and both are clamped to the list. *)
Definition slice_index (i : Z) (len : nat) : nat :=
  if i <? 0 then Z.to_nat (Z.max 0 (Z.of_nat len + i))
  else Nat.min (Z.to_nat i) len.

(** [l[i:]] *)
Definition slice_from {A} (i : Z) (l : list A) : list A :=
  drop (slice_index i (length l)) l.

(** [l[:i]] *)
Definition slice_to {A} (i : Z) (l : list A) : list A :=
  take (slice_index i (length l)) l.

(** [range(a, b)] *)
Definition range (a b : Z) : list Z := seqZ a (b - a).

Section Model.
Context {N : Type} `{PyNum N}.

#[export] Instance Task_inhabited : Inhabited (Task N) :=
  populate (mkTask 0 (pint 0) (pint 0) (pint 0) None).

(** [sum(l)]: Python starts from the integer 0 and adds from the left. *)
Definition psum (l : list N) : N := foldl padd (pint 0) l.

(** ** class Task *)

Definition Task_init (id : Z) (ld : N) (et : N) : Task N :=
  mkTask id ld et et None.

Definition set_remaining_time (t : Task N) (r : N) : Task N :=
  mkTask (task_id t) (load t) (execution_time t) r (processor t).

(** ** class Processor *)

Definition Processor_init (id : Z) (capacity processing_speed : N) : Processor N :=
  mkProcessor id capacity processing_speed (pint 0) [] [].

(** [Processor(id)], with the defaults [capacity=100], [processing_speed=1.0]. *)
Definition Processor_new (id : Z) : Processor N :=
  Processor_init id (pint 100) (pint 1).

(** [processor.processing_speed = v], as the speed control does. *)
Definition set_processing_speed (v : N) (p : Processor N) : Processor N :=
  mkProcessor (proc_id p) (capacity p) v (current_load p) (tasks p) (history p).

Definition add_task (h : heap N) (task : task_ref) (p : Processor N) : Processor N :=
  mkProcessor (proc_id p) (capacity p) (processing_speed p)
    (padd (current_load p) (load (h !!! task)))
    (tasks p ++ [task])
    (history p).

Definition remove_task (h : heap N) (task : task_ref) (p : Processor N) : Processor N :=
  if bool_decide (task ∈ tasks p) then
    mkProcessor (proc_id p) (capacity p) (processing_speed p)
      (psub (current_load p) (load (h !!! task)))
      (list_remove_first task (tasks p))
      (history p)
  else p.

Definition update_history (p : Processor N) : Processor N :=
  let hs := history p ++ [current_load p] in
  mkProcessor (proc_id p) (capacity p) (processing_speed p)
    (current_load p) (tasks p)
    (if (100 <? length hs)%nat then slice_from (-100) hs else hs).

Definition get_available_capacity (p : Processor N) : N :=
  psub (capacity p) (current_load p).

(** The first loop of [process_tasks]: every task of the list loses
    [speed] of remaining time, in list order, and the ones that reach zero
    or less are appended to [completed]. *)
Fixpoint advance_tasks (speed : N) (ts : list task_ref) (h : heap N)
    (completed : list task_ref) : heap N * list task_ref :=
  match ts with
  | [] => (h, completed)
  | task :: ts' =>
      let t := h !!! task in
      let t' := set_remaining_time t (psub (remaining_time t) speed) in
      let h' := <[task := t']> h in
      advance_tasks speed ts' h'
        (if ple (remaining_time t') (pint 0) then completed ++ [task]
         else completed)
  end.

Definition process_tasks (h : heap N) (p : Processor N)
    : heap N * Processor N * list task_ref :=
  let '(h', completed_tasks) := advance_tasks (processing_speed p) (tasks p) h [] in
  let p' := foldl (fun q task => remove_task h' task q) p completed_tasks in
  (h', update_history p', completed_tasks).

(** ** Sorting

    [sorted(xs, key=f)] computes the key of every element first and then
    sorts stably, comparing keys with [<] only.  The elements arrive here
    paired with their keys; each one is placed behind every element of the
    sorted prefix that it is not smaller than. *)
Fixpoint insert_sorted {A} (x : N * A) (l : list (N * A)) : list (N * A) :=
  match l with
  | [] => [x]
  | e :: l' => if plt x.1 e.1 then x :: e :: l' else e :: insert_sorted x l'
  end.

Definition sorted {A} (l : list (N * A)) : list (N * A) :=
  foldl (fun acc x => insert_sorted x acc) [] l.

(** The processors of the list with their positions. *)
Definition enumerate (ps : list (Processor N)) : list (nat * Processor N) :=
  zip (seq 0 (length ps)) ps.

(** ** class LoadBalancer *)

Definition LoadBalancer_init (num_processors : Z) : LoadBalancer N :=
  mkLoadBalancer (map Processor_new (range 0 num_processors))
    [] 0 0 "round_robin" false false.

(** [LoadBalancer.add_task]: a new task object is created and queued. *)
Definition lb_add_task (h : heap N) (lb : LoadBalancer N) (ld et : N)
    : heap N * LoadBalancer N :=
  let task := fresh (dom h) in
  (<[task := Task_init (task_id_counter lb) ld et]> h,
   mkLoadBalancer (processors lb) (task_queue lb ++ [task])
     (completed_tasks lb) (task_id_counter lb + 1)
     (algorithm lb) (running lb) (paused lb)).

(** The [for] loop of [_round_robin]: [Some] when a processor with room was
    found (the [break]), [None] when the loop ran to its end. *)
Fixpoint round_robin_scan (h : heap N) (task : task_ref) (ps : list (Processor N))
    : option (list (Processor N)) :=
  match ps with
  | [] => None
  | p :: ps' =>
      if ple (load (h !!! task)) (get_available_capacity p)
      then Some (add_task h task p :: ps')
      else cons p <$> round_robin_scan h task ps'
  end.

Definition _round_robin (h : heap N) (task : task_ref) (ps : list (Processor N))
    : list (Processor N) :=
  match round_robin_scan h task ps with
  | Some ps' => ps'
  | None =>
      (* not assigned: the first processor takes it, if there is one *)
      match ps with
      | [] => ps
      | p0 :: rest => add_task h task p0 :: rest
      end
  end.

(** The common ending of the three sorting strategies: the head of the
    sorted list receives the task in either branch. *)
Definition assign_to_first (h : heap N) (task : task_ref)
    (sorted_ps : list (N * (nat * Processor N))) (ps : list (Processor N))
    : list (Processor N) :=
  match sorted_ps with
  | [] => ps
  | (_, (i, p0)) :: _ =>
      if ple (load (h !!! task)) (get_available_capacity p0)
      then alter (add_task h task) i ps
      else alter (add_task h task) i ps
  end.

Definition _least_loaded (h : heap N) (task : task_ref) (ps : list (Processor N))
    : list (Processor N) :=
  let keyed := map (fun ip => (current_load ip.2, ip)) (enumerate ps) in
  assign_to_first h task (sorted keyed) ps.

Definition weighted_key (p : Processor N) : option N :=
  pdiv (current_load p) (processing_speed p).

Definition _weighted_distribution (h : heap N) (task : task_ref)
    (ps : list (Processor N)) : option (list (Processor N)) :=
  keyed ← mapM (fun ip => k ← weighted_key ip.2; Some (k, ip)) (enumerate ps);
  Some (assign_to_first h task (sorted keyed) ps).

Definition adaptive_score (p : Processor N) : option N :=
  let recent := slice_from (-10) (history p) in
  recent_load ← pdiv (psum recent) (pint (Z.max (Z.of_nat (length recent)) 1));
  a ← pdiv (current_load p) (capacity p);
  b ← pdiv (pint 1) (processing_speed p);
  c ← pdiv recent_load (pint 200);
  Some (pmul (pmul a b) (padd (pint 1) c)).

Definition _adaptive_distribution (h : heap N) (task : task_ref)
    (ps : list (Processor N)) : option (list (Processor N)) :=
  scores ← mapM (fun ip => s ← adaptive_score ip.2; Some (s, ip)) (enumerate ps);
  Some (assign_to_first h task (sorted scores) ps).

(** The [if]/[elif] chain of [distribute_tasks]; it has no [else]. *)
Definition dispatch (alg : string) (h : heap N) (task : task_ref)
    (ps : list (Processor N)) : option (list (Processor N)) :=
  if String.eqb alg "round_robin" then Some (_round_robin h task ps)
  else if String.eqb alg "least_loaded" then Some (_least_loaded h task ps)
  else if String.eqb alg "weighted" then _weighted_distribution h task ps
  else if String.eqb alg "adaptive" then _adaptive_distribution h task ps
  else Some ps.

Inductive outcome : Type :=
  | Returns
  | Raises_ZeroDivisionError.

(** The [while] loop of [distribute_tasks]: the queue that is left, the
    processors, and how the loop ended.  A task is taken off the queue
    before its strategy runs. *)
Fixpoint drain_queue (alg : string) (h : heap N) (queue : list task_ref)
    (ps : list (Processor N)) : list task_ref * list (Processor N) * outcome :=
  match queue with
  | [] => ([], ps, Returns)
  | task :: queue' =>
      match dispatch alg h task ps with
      | Some ps' => drain_queue alg h queue' ps'
      | None => (queue', ps, Raises_ZeroDivisionError)
      end
  end.

Definition distribute_tasks (h : heap N) (lb : LoadBalancer N)
    : LoadBalancer N * outcome :=
  let '(queue, ps, out) := drain_queue (algorithm lb) h (task_queue lb) (processors lb) in
  (mkLoadBalancer ps queue (completed_tasks lb) (task_id_counter lb)
     (algorithm lb) (running lb) (paused lb), out).

(** One processor's share of [process_cycle]. *)
Definition cycle_processor (h : heap N) (p : Processor N)
    : heap N * Processor N * list task_ref :=
  process_tasks h (match tasks p with [] => update_history p | _ :: _ => p end).

Fixpoint cycle_processors (h : heap N) (ps : list (Processor N))
    (completed : list task_ref)
    : heap N * list (Processor N) * list task_ref :=
  match ps with
  | [] => (h, [], completed)
  | p :: ps' =>
      let '(h1, p', finished) := cycle_processor h p in
      let '(h2, ps'', completed') := cycle_processors h1 ps' (completed ++ finished) in
      (h2, p' :: ps'', completed')
  end.

Definition process_cycle (h : heap N) (lb : LoadBalancer N)
    : heap N * LoadBalancer N * list task_ref :=
  let '(h', ps, completed) := cycle_processors h (processors lb) [] in
  (h',
   mkLoadBalancer ps (task_queue lb)
     (completed_tasks lb + Z.of_nat (length completed)) (task_id_counter lb)
     (algorithm lb) (running lb) (paused lb),
   completed).

(** ** class LoadBalancerApp: the two handlers that change the balancer *)

(** [self.load_balancer.algorithm = self.algorithm_var.get()] *)
Definition change_algorithm (name : string) (lb : LoadBalancer N) : LoadBalancer N :=
  mkLoadBalancer (processors lb) (task_queue lb) (completed_tasks lb)
    (task_id_counter lb) name (running lb) (paused lb).

Definition change_processors (num_processors : Z) (lb : LoadBalancer N)
    : LoadBalancer N :=
  let current_count := Z.of_nat (length (processors lb)) in
  if current_count <? num_processors then
    mkLoadBalancer
      (processors lb ++ map Processor_new (range current_count num_processors))
      (task_queue lb) (completed_tasks lb) (task_id_counter lb)
      (algorithm lb) (running lb) (paused lb)
  else if num_processors <? current_count then
    let removed_tasks := concat (map tasks (slice_from num_processors (processors lb))) in
    mkLoadBalancer
      (slice_to num_processors (processors lb))
      (task_queue lb ++ removed_tasks)
      (completed_tasks lb) (task_id_counter lb)
      (algorithm lb) (running lb) (paused lb)
  else lb.

(** [sum(t.load for t in tasks)]: the load the owned tasks add up to. *)
Definition owned_load (h : heap N) (ts : list task_ref) : N :=
  psum (map (fun task => load (h !!! task)) ts).

(** ** Runs of one processor

    What can happen to a processor object: the calls of its methods and the
    write to its speed.  [recorded] is the list of all load samples that a
    run has passed to [history.append], oldest first. *)

Inductive proc_op : Type :=
  | OpAddTask (task : task_ref)
  | OpRemoveTask (task : task_ref)
  | OpProcessTasks
  | OpUpdateHistory
  | OpSetSpeed (v : N).

Definition apply_op (op : proc_op) (hp : heap N * Processor N)
    : heap N * Processor N :=
  match op with
  | OpAddTask task => (hp.1, add_task hp.1 task hp.2)
  | OpRemoveTask task => (hp.1, remove_task hp.1 task hp.2)
  | OpProcessTasks => (process_tasks hp.1 hp.2).1
  | OpUpdateHistory => (hp.1, update_history hp.2)
  | OpSetSpeed v => (hp.1, set_processing_speed v hp.2)
  end.

Fixpoint run_ops (ops : list proc_op) (hp : heap N * Processor N)
    : heap N * Processor N :=
  match ops with
  | [] => hp
  | op :: ops' => run_ops ops' (apply_op op hp)
  end.

Definition sample_of (op : proc_op) (hp : heap N * Processor N) : list N :=
  match op with
  | OpProcessTasks | OpUpdateHistory => [current_load (apply_op op hp).2]
  | _ => []
  end.

Fixpoint recorded (ops : list proc_op) (hp : heap N * Processor N) : list N :=
  match ops with
  | [] => []
  | op :: ops' => sample_of op hp ++ recorded ops' (apply_op op hp)
  end.

End Model.

(** * Properties *)

(** ** Lists and slices *)

(** [map] of the standard library is stdpp's [fmap] on lists. *)
Ltac map_is_fmap :=
  repeat match goal with
         | |- context [map ?f ?l] => change (map f l) with (f <$> l)
         end.

Lemma slice_from_last {A} (n : nat) (l : list A) :
  (0 < n)%nat -> slice_from (- Z.of_nat n) l = drop (length l - n) l.
Proof.
  intros Hn. unfold slice_from, slice_index.
  destruct (Z.ltb_spec (- Z.of_nat n) 0) as [Hneg|Hpos]; [|lia].
  f_equal. lia.
Qed.

Lemma last_n_app_one {A} (n : nat) (l : list A) (x : A) :
  (0 < n)%nat ->
  drop (length (drop (length l - n) l ++ [x]) - n) (drop (length l - n) l ++ [x])
  = drop (length (l ++ [x]) - n) (l ++ [x]).
Proof.
  intros Hn. rewrite !length_app, length_drop. simpl.
  destruct (decide (length l <= n)%nat) as [Hle|Hgt].
  - replace (length l - n)%nat with 0%nat by lia. rewrite drop_0.
    f_equal. lia.
  - rewrite !drop_app_le by (rewrite ?length_drop; lia).
    rewrite drop_drop. do 2 f_equal. lia.
Qed.

(** ** A processor receives a task *)

Section Receiving.
Context {N : Type} `{PyNum N}.

(** The processor at position [i] has received [task]: the task is the new
    last entry of its task list and the task's load is added to its
    current load; nothing else of this processor has changed, and no other
    processor has changed at all. *)
Definition lands_on (h : heap N) (task : task_ref) (i : nat)
    (ps ps' : list (Processor N)) : Prop :=
  length ps' = length ps
  /\ (exists p p',
        ps !! i = Some p /\ ps' !! i = Some p'
        /\ tasks p' = tasks p ++ [task]
        /\ current_load p' = padd (current_load p) (load (h !!! task))
        /\ proc_id p' = proc_id p /\ capacity p' = capacity p
        /\ processing_speed p' = processing_speed p
        /\ history p' = history p)
  /\ (forall j, j <> i -> ps' !! j = ps !! j).

Lemma alter_add_task_lands (h : heap N) (task : task_ref) (i : nat)
    (ps : list (Processor N)) :
  (i < length ps)%nat -> lands_on h task i ps (alter (add_task h task) i ps).
Proof.
  intros Hi. destruct (lookup_lt_is_Some_2 ps i Hi) as [p Hp].
  split; [apply length_alter|]. split.
  - exists p, (add_task h task p). split; [exact Hp|].
    rewrite list_lookup_alter_eq, Hp. repeat split; reflexivity.
  - intros j Hj. apply list_lookup_alter_ne. congruence.
Qed.

(** The task is then on the task list of that processor and of no other
    processor that did not hold it before. *)
Lemma lands_on_held (h : heap N) (task : task_ref) (i : nat)
    (ps ps' : list (Processor N)) :
  lands_on h task i ps ps' ->
  (exists p', ps' !! i = Some p' /\ task ∈ tasks p')
  /\ (forall j q q', j <> i -> ps !! j = Some q -> ps' !! j = Some q' ->
        tasks q' = tasks q).
Proof.
  intros (_ & (p & p' & _ & Hp' & Htasks & _) & Hother). split.
  - exists p'. split; [exact Hp'|]. rewrite Htasks. set_solver.
  - intros j q q' Hj Hq Hq'. rewrite (Hother j Hj) in Hq'. congruence.
Qed.

End Receiving.

(** ** Histories *)

Section History.
Context {N : Type} `{PyNum N}.

Lemma update_history_last (p : Processor N) :
  history (update_history p)
  = drop (length (history p ++ [current_load p]) - 100) (history p ++ [current_load p]).
Proof.
  unfold update_history. cbn [history].
  change (-100) with (- Z.of_nat 100). rewrite slice_from_last by lia.
  destruct (Nat.ltb_spec 100 (length (history p ++ [current_load p]))) as [Hlt|Hge].
  - reflexivity.
  - replace (length (history p ++ [current_load p]) - 100)%nat with 0%nat by lia.
    reflexivity.
Qed.

Lemma remove_task_history (h : heap N) task (p : Processor N) :
  history (remove_task h task p) = history p.
Proof. unfold remove_task. case_bool_decide; reflexivity. Qed.

Lemma remove_tasks_history (h : heap N) (done : list task_ref) (p : Processor N) :
  history (foldl (fun q task => remove_task h task q) p done) = history p.
Proof.
  revert p. induction done as [|task done IH]; intros p; simpl.
  - reflexivity.
  - rewrite IH. apply remove_task_history.
Qed.

Lemma remove_task_frame (h : heap N) task (p : Processor N) :
  proc_id (remove_task h task p) = proc_id p
  /\ capacity (remove_task h task p) = capacity p
  /\ processing_speed (remove_task h task p) = processing_speed p.
Proof. unfold remove_task. case_bool_decide; auto. Qed.

(** What [process_tasks] leaves in the history: one more sample, the load
    after the completed tasks were removed. *)
Lemma process_tasks_history (h : heap N) (p : Processor N) :
  let p' := (process_tasks h p).1.2 in
  history p'
  = drop (length (history p ++ [current_load p']) - 100) (history p ++ [current_load p']).
Proof.
  unfold process_tasks.
  destruct (advance_tasks (processing_speed p) (tasks p) h []) as [h' done].
  cbn [fst snd]. rewrite update_history_last, remove_tasks_history.
  reflexivity.
Qed.

Lemma apply_op_history (op : proc_op) (hp : heap N * Processor N) :
  history (apply_op op hp).2
  = drop (length (history hp.2 ++ sample_of op hp) - 100) (history hp.2 ++ sample_of op hp)
  \/ (sample_of op hp = [] /\ history (apply_op op hp).2 = history hp.2).
Proof.
  destruct op; cbn [apply_op sample_of snd fst].
  - right. auto.
  - right. split; [reflexivity | apply remove_task_history].
  - left. apply process_tasks_history.
  - left. exact (update_history_last hp.2).
  - right. auto.
Qed.

Lemma sample_of_cases (op : proc_op) (hp : heap N * Processor N) :
  sample_of op hp = [] \/ exists x, sample_of op hp = [x].
Proof. destruct op; simpl; eauto. Qed.

Lemma run_ops_history (ops : list proc_op) (hp : heap N * Processor N) (log : list N) :
  history hp.2 = drop (length log - 100) log ->
  history (run_ops ops hp).2
  = drop (length (log ++ recorded ops hp) - 100) (log ++ recorded ops hp).
Proof.
  revert hp log. induction ops as [|op ops IH]; intros hp log Hinv; simpl.
  - rewrite app_nil_r. exact Hinv.
  - rewrite app_assoc. apply IH.
    destruct (apply_op_history op hp) as [Hs|[Hnil Hs]].
    + rewrite Hs, Hinv.
      destruct (sample_of_cases op hp) as [Hnil|[x Hone]].
      * rewrite Hnil, !app_nil_r, drop_drop, length_drop. f_equal. lia.
      * rewrite Hone. apply last_n_app_one. lia.
    + rewrite Hnil, app_nil_r, Hs. exact Hinv.
Qed.

(** C5.  Whatever is done to a processor after its creation, its history
    never holds more than 100 samples, and it is exactly the (at most) 100
    most recent of all the samples recorded so far, in the order in which
    they were recorded: the oldest ones are the ones dropped. *)
Theorem history_keeps_last_100 (id : Z) (cap speed : N) (h : heap N)
    (ops : list proc_op) :
  let start := (h, Processor_init id cap speed) in
  let log := recorded ops start in
  (length (history (run_ops ops start).2) <= 100)%nat
  /\ history (run_ops ops start).2 = drop (length log - 100) log.
Proof.
  intros start log.
  assert (Hrun : history (run_ops ops start).2 = drop (length log - 100) log).
  { apply (run_ops_history ops start []). reflexivity. }
  split; [|exact Hrun].
  rewrite Hrun, length_drop. lia.
Qed.

End History.

(** ** The load of a processor and the loads of its tasks *)

Section TaskStore.
Context {N : Type} `{PyNum N}.

(** The first loop of [process_tasks] writes remaining times only. *)
Lemma advance_tasks_load (speed : N) (ts : list task_ref) (h : heap N)
    (completed : list task_ref) (task : task_ref) :
  load ((advance_tasks speed ts h completed).1 !!! task) = load (h !!! task).
Proof.
  revert h completed. induction ts as [|t ts IH]; intros h completed; simpl.
  - reflexivity.
  - rewrite IH. destruct (decide (t = task)) as [->|Hne].
    + rewrite lookup_total_insert_eq. reflexivity.
    + rewrite lookup_total_insert_ne by exact Hne. reflexivity.
Qed.

Lemma advance_tasks_owned_load (speed : N) (ts : list task_ref) (h : heap N)
    (completed : list task_ref) (l : list task_ref) :
  owned_load (advance_tasks speed ts h completed).1 l = owned_load h l.
Proof.
  unfold owned_load. f_equal. apply map_ext. intros task.
  apply advance_tasks_load.
Qed.

End TaskStore.

Section ExactLoads.
Open Scope Q_scope.

Lemma foldl_Qplus_acc (a : Q) (l : list Q) :
  foldl Qplus a l == a + foldl Qplus 0 l.
Proof.
  revert a. induction l as [|x l IH]; intros a; simpl.
  - ring.
  - rewrite IH, (IH (0 + x)). ring.
Qed.

Lemma owned_load_nil (h : heap Q) : owned_load h [] == 0.
Proof. reflexivity. Qed.

Lemma owned_load_cons (h : heap Q) (task : task_ref) (ts : list task_ref) :
  owned_load h (task :: ts) == load (h !!! task) + owned_load h ts.
Proof.
  unfold owned_load, psum. simpl. change (inject_Z 0) with 0.
  rewrite foldl_Qplus_acc. ring.
Qed.

Lemma owned_load_snoc (h : heap Q) (task : task_ref) (ts : list task_ref) :
  owned_load h (ts ++ [task]) == owned_load h ts + load (h !!! task).
Proof.
  unfold owned_load, psum. rewrite map_app, foldl_app. reflexivity.
Qed.

Lemma owned_load_remove (h : heap Q) (task : task_ref) (ts : list task_ref) :
  task ∈ ts ->
  owned_load h (list_remove_first task ts) == owned_load h ts - load (h !!! task).
Proof.
  induction ts as [|t ts IH]; intros Hin.
  - inversion Hin.
  - simpl. destruct (decide (task = t)) as [->|Hne].
    + rewrite owned_load_cons. ring.
    + rewrite !owned_load_cons, IH.
      * ring.
      * apply elem_of_cons in Hin as [Heq|Hin]; [contradiction | exact Hin].
Qed.

(** The invariant: the load counter agrees with the tasks held. *)
Definition load_consistent (hp : heap Q * Processor Q) : Prop :=
  current_load hp.2 == owned_load hp.1 (tasks hp.2).

Lemma add_task_consistent (h : heap Q) (task : task_ref) (p : Processor Q) :
  load_consistent (h, p) -> load_consistent (h, add_task h task p).
Proof.
  unfold load_consistent, add_task. cbn [fst snd current_load tasks padd Q_PyNum].
  intros Hinv. rewrite owned_load_snoc, Hinv. reflexivity.
Qed.

Lemma remove_task_consistent (h : heap Q) (task : task_ref) (p : Processor Q) :
  load_consistent (h, p) -> load_consistent (h, remove_task h task p).
Proof.
  unfold load_consistent, remove_task. cbn [fst snd]. intros Hinv.
  case_bool_decide as Hin; [|exact Hinv].
  cbn [current_load tasks psub Q_PyNum].
  rewrite (owned_load_remove h task (tasks p) Hin), Hinv. reflexivity.
Qed.

Lemma remove_tasks_consistent (h : heap Q) (done : list task_ref) (p : Processor Q) :
  load_consistent (h, p) ->
  load_consistent (h, foldl (fun q task => remove_task h task q) p done).
Proof.
  revert p. induction done as [|task done IH]; intros p Hinv; simpl.
  - exact Hinv.
  - apply IH, remove_task_consistent, Hinv.
Qed.

Lemma process_tasks_consistent (h : heap Q) (p : Processor Q) :
  load_consistent (h, p) -> load_consistent (process_tasks h p).1.
Proof.
  intros Hinv. unfold process_tasks.
  pose proof (advance_tasks_owned_load (processing_speed p) (tasks p) h []) as Hsame.
  destruct (advance_tasks (processing_speed p) (tasks p) h []) as [h' done].
  cbn [fst snd] in *.
  assert (Hinv' : load_consistent (h', p)).
  { unfold load_consistent. cbn [fst snd]. rewrite Hsame. exact Hinv. }
  apply (remove_tasks_consistent h' done) in Hinv'.
  exact Hinv'.
Qed.

Lemma apply_op_consistent (op : proc_op) (hp : heap Q * Processor Q) :
  load_consistent hp -> load_consistent (apply_op op hp).
Proof.
  destruct hp as [h p]. destruct op; cbn [apply_op fst snd]; intros Hinv.
  - apply add_task_consistent, Hinv.
  - apply remove_task_consistent, Hinv.
  - apply process_tasks_consistent, Hinv.
  - exact Hinv.
  - exact Hinv.
Qed.

(** C4 (exact arithmetic).  With loads that add and subtract without
    rounding, a processor's [current_load] equals the sum of the loads of
    the tasks it holds after every sequence of calls: additions, removals
    (also of tasks it does not hold), ticks, history updates and speed
    changes.  Every prefix of a sequence is a sequence, so this is the
    invariant at every point of a run. *)
Theorem current_load_is_sum_of_owned_loads (id : Z) (cap speed : Q)
    (h : heap Q) (ops : list proc_op) :
  let hp := run_ops ops (h, Processor_init id cap speed) in
  current_load hp.2 == owned_load hp.1 (tasks hp.2).
Proof.
  cbv zeta. change (load_consistent (run_ops ops (h, Processor_init id cap speed))).
  assert (Hstart : load_consistent (h, Processor_init id cap speed)) by reflexivity.
  revert Hstart. generalize (h, Processor_init id cap speed).
  induction ops as [|op ops IH]; intros hp Hinv; simpl.
  - exact Hinv.
  - apply IH, apply_op_consistent, Hinv.
Qed.

End ExactLoads.

(** With binary64 loads the counter drifts.  Two tasks of load 0.1 and 0.2
    are added and the first is removed: the processor holds the second
    task only, its counter is (0 + 0.1 + 0.2) - 0.1, and that is not 0.2. *)
Section FloatLoads.
#[local] Set Warnings "-inexact-float".

Definition drift_heap : heap float :=
  <[1%nat := Task_init 1 0.2%float 5%float]>
    (<[0%nat := Task_init 0 0.1%float 5%float]> ∅).

Definition drift_processor : Processor float :=
  remove_task drift_heap 0%nat
    (add_task drift_heap 1%nat
       (add_task drift_heap 0%nat (Processor_new 0))).

(** C4, as stated, fails on floats: the counter and the sum differ. *)
Lemma current_load_drifts_on_floats :
  tasks drift_processor = [1%nat]
  /\ current_load drift_processor = 0.20000000000000004%float
  /\ owned_load drift_heap (tasks drift_processor) = 0.2%float
  /\ PrimFloat.eqb (current_load drift_processor)
       (owned_load drift_heap (tasks drift_processor)) = false.
Proof. vm_compute. repeat split; reflexivity. Qed.

End FloatLoads.

(** ** One cycle of the balancer and the histories *)

Section Cycle.
Context {N : Type} `{PyNum N}.

(** A processor without tasks is sampled by [process_cycle] itself and then
    again by [process_tasks]. *)
Lemma cycle_processor_idle (h : heap N) (p : Processor N) :
  tasks p = [] ->
  cycle_processor h p = (h, update_history (update_history p), []).
Proof.
  intros Hidle. unfold cycle_processor. rewrite Hidle.
  unfold process_tasks. cbn [update_history tasks processing_speed].
  rewrite Hidle. reflexivity.
Qed.

(** A processor with tasks goes through [process_tasks] only. *)
Lemma cycle_processor_busy (h : heap N) (p : Processor N) :
  tasks p <> [] -> cycle_processor h p = process_tasks h p.
Proof.
  intros Hbusy. unfold cycle_processor.
  destruct (tasks p); [contradiction | reflexivity].
Qed.

Lemma cycle_processor_idle_history (h : heap N) (p : Processor N) :
  tasks p = [] -> (length (history p) < 99)%nat ->
  history (cycle_processor h p).1.2
  = history p ++ [current_load p; current_load p].
Proof.
  intros Hidle Hshort. rewrite cycle_processor_idle by exact Hidle.
  cbn [fst snd]. rewrite !update_history_last.
  cbn [current_load update_history].
  rewrite !length_app, length_drop, !length_app. simpl length.
  replace (length (history p) + 1 - 100)%nat with 0%nat by lia.
  rewrite drop_0.
  replace (length (history p) + 1 - 0 + 1 - 100)%nat with 0%nat by lia.
  rewrite drop_0, <- app_assoc. reflexivity.
Qed.

End Cycle.

(** ** Scenarios on a fresh balancer *)

Section Scenarios.
Open Scope Q_scope.

(** [InjectTask]: [LoadBalancer.add_task] on a balancer and its store. *)
Definition inject (ld et : Q) (s : heap Q * LoadBalancer Q)
    : heap Q * LoadBalancer Q :=
  lb_add_task s.1 s.2 ld et.

(** Three processors, three tasks of load 40 queued in order. *)
Definition three_tasks_of_40 (e1 e2 e3 : Q) : heap Q * LoadBalancer Q :=
  inject 40 e3 (inject 40 e2 (inject 40 e1 (∅, LoadBalancer_init 3))).

(** The three tasks do not go to processors 0, 1, 2. *)
Lemma round_robin_does_not_spread :
  let s := three_tasks_of_40 5 5 5 in
  map tasks (processors (distribute_tasks s.1 s.2).1)
  <> [[0%nat]; [1%nat]; [2%nat]].
Proof. vm_compute. discriminate. Qed.

(** C1 fails on the code.  [_round_robin] is named and commented as a
    round-robin assignment, yet it keeps no position between calls: every
    call scans from the first processor.  From three empty processors of
    capacity 100 it gives the first task of load 40 to processor 0, the
    second to processor 0 again (60 is still available there) and the
    third to processor 1 (processor 0 has 20 left); processor 2 stays
    empty, where a round robin gives one task to each of the three.  The
    execution times play no part. *)
Theorem round_robin_fills_first_fit (e1 e2 e3 : Q) :
  let s := three_tasks_of_40 e1 e2 e3 in
  let r := distribute_tasks s.1 s.2 in
  task_queue s.2 = [0%nat; 1%nat; 2%nat]
  /\ r.2 = Returns
  /\ task_queue r.1 = []
  /\ map tasks (processors r.1) = [[0%nat; 1%nat]; [2%nat]; []]
  /\ map current_load (processors r.1) = [0 + 40 + 40; 0 + 40; 0].
Proof. vm_compute. repeat split; reflexivity. Qed.

(** Two processors, one task of load 40 given to processor 0. *)
Definition one_busy_one_idle : heap Q * LoadBalancer Q :=
  let s := inject 40 5 (∅, LoadBalancer_init 2) in
  (s.1, (distribute_tasks s.1 s.2).1).

(** C2 fails on the code: in one and the same cycle the processor that
    holds a task gets one sample and the idle processor gets two. *)
Theorem idle_processor_is_sampled_twice :
  let s := one_busy_one_idle in
  map tasks (processors s.2) = [[0%nat]; []]
  /\ map history (processors s.2) = [[]; []]
  /\ map history (processors (process_cycle s.1 s.2).1.2) = [[40]; [0; 0]].
Proof. vm_compute. repeat split; reflexivity. Qed.

End Scenarios.

(** ** Choosing the algorithm *)

Section Algorithm.
Context {N : Type} `{PyNum N}.

(** The four names the selector offers. *)
Definition known_algorithm (name : string) : Prop :=
  name = "round_robin" \/ name = "least_loaded"
  \/ name = "weighted" \/ name = "adaptive".

Lemma dispatch_round_robin (h : heap N) task ps :
  dispatch "round_robin" h task ps = Some (_round_robin h task ps).
Proof. reflexivity. Qed.

Lemma dispatch_least_loaded (h : heap N) task ps :
  dispatch "least_loaded" h task ps = Some (_least_loaded h task ps).
Proof. reflexivity. Qed.

Lemma dispatch_weighted (h : heap N) task ps :
  dispatch "weighted" h task ps = _weighted_distribution h task ps.
Proof. reflexivity. Qed.

Lemma dispatch_adaptive (h : heap N) task ps :
  dispatch "adaptive" h task ps = _adaptive_distribution h task ps.
Proof. reflexivity. Qed.

(** A name that is none of the four falls through the chain. *)
Lemma dispatch_unknown (name : string) (h : heap N) task ps :
  ~ known_algorithm name -> dispatch name h task ps = Some ps.
Proof.
  intros Hunknown. unfold dispatch.
  destruct (String.eqb_spec name "round_robin") as [Heq|_];
    [exfalso; apply Hunknown; unfold known_algorithm; tauto|].
  destruct (String.eqb_spec name "least_loaded") as [Heq|_];
    [exfalso; apply Hunknown; unfold known_algorithm; tauto|].
  destruct (String.eqb_spec name "weighted") as [Heq|_];
    [exfalso; apply Hunknown; unfold known_algorithm; tauto|].
  destruct (String.eqb_spec name "adaptive") as [Heq|_];
    [exfalso; apply Hunknown; unfold known_algorithm; tauto|].
  reflexivity.
Qed.

Lemma drain_queue_unknown (name : string) (h : heap N) queue ps :
  ~ known_algorithm name -> drain_queue name h queue ps = ([], ps, Returns).
Proof.
  intros Hunknown. induction queue as [|task queue IH]; simpl.
  - reflexivity.
  - rewrite dispatch_unknown by exact Hunknown. exact IH.
Qed.

(** The names that the selector of the application offers (the [values]
    of the read-only combobox in [create_ui]). *)
Definition algorithms : list string :=
  ["round_robin"; "least_loaded"; "weighted"; "adaptive"]%string.

Lemma algorithms_known (name : string) :
  name ∈ algorithms <-> known_algorithm name.
Proof.
  unfold algorithms, known_algorithm.
  rewrite !elem_of_cons, elem_of_nil. tauto.
Qed.

End Algorithm.

(** C3, as stated, fails: the name "fastest" is accepted like any other,
    and the next distribution takes the queued task off the queue and gives
    it to no processor, without an error. *)
Lemma unknown_algorithm_is_accepted :
  let lb := change_algorithm "fastest" (LoadBalancer_init (N:=Q) 2) in
  let s := inject (inject_Z 40) (inject_Z 5) (∅, lb) in
  algorithm lb = "fastest"
  /\ task_queue s.2 = [0%nat]
  /\ task_queue (distribute_tasks s.1 s.2).1 = []
  /\ map tasks (processors (distribute_tasks s.1 s.2).1) = [[]; []]
  /\ (distribute_tasks s.1 s.2).2 = Returns.
Proof. vm_compute. repeat split; reflexivity. Qed.

(** ** Changing the number of processors *)

Section Resize.
Context {N : Type} `{PyNum N}.

Lemma range_length (a b : Z) : length (range a b) = Z.to_nat (b - a).
Proof. apply length_seqZ. Qed.

Lemma range_split (a b c : Z) :
  a <= b <= c -> range a c = range a b ++ range b c.
Proof.
  intros Habc. unfold range.
  replace (c - a) with ((b - a) + (c - b)) by lia.
  rewrite seqZ_app by lia. do 2 f_equal. lia.
Qed.

Lemma range_take (n : Z) (k : nat) :
  take k (range 0 n) = range 0 (Z.of_nat (Nat.min k (Z.to_nat n))).
Proof.
  unfold range, seqZ. rewrite <- fmap_take, take_seq. do 2 f_equal. lia.
Qed.

Lemma Processor_new_ids (ids : list Z) :
  map proc_id (map (Processor_new (N:=N)) ids) = ids.
Proof. rewrite map_map. simpl. apply map_id. Qed.

(** The processors' ids are their positions: true of a new balancer, and
    kept by every change of the processor count. *)
Definition ids_sequential (lb : LoadBalancer N) : Prop :=
  map proc_id (processors lb) = range 0 (Z.of_nat (length (processors lb))).

Lemma LoadBalancer_init_ids (n : Z) : ids_sequential (LoadBalancer_init n).
Proof.
  unfold ids_sequential, LoadBalancer_init. cbn [processors].
  rewrite Processor_new_ids, length_map, range_length.
  unfold range, seqZ. do 2 f_equal. lia.
Qed.

(** Growing. *)
Lemma change_processors_grow (num : Z) (lb : LoadBalancer N) :
  Z.of_nat (length (processors lb)) < num ->
  change_processors num lb
  = mkLoadBalancer
      (processors lb
         ++ map Processor_new (range (Z.of_nat (length (processors lb))) num))
      (task_queue lb) (completed_tasks lb) (task_id_counter lb)
      (algorithm lb) (running lb) (paused lb).
Proof.
  intros Hgrow. unfold change_processors.
  destruct (Z.ltb_spec (Z.of_nat (length (processors lb))) num); [reflexivity | lia].
Qed.

(** Shrinking. *)
Lemma change_processors_shrink (num : Z) (lb : LoadBalancer N) :
  num < Z.of_nat (length (processors lb)) ->
  change_processors num lb
  = mkLoadBalancer
      (slice_to num (processors lb))
      (task_queue lb ++ concat (map tasks (slice_from num (processors lb))))
      (completed_tasks lb) (task_id_counter lb)
      (algorithm lb) (running lb) (paused lb).
Proof.
  intros Hshrink. unfold change_processors.
  destruct (Z.ltb_spec (Z.of_nat (length (processors lb))) num); [lia|].
  destruct (Z.ltb_spec num (Z.of_nat (length (processors lb)))); [reflexivity | lia].
Qed.

Lemma slice_to_from {A} (i : Z) (l : list A) : slice_to i l ++ slice_from i l = l.
Proof. apply take_drop. Qed.

Lemma slice_to_length {A} (i : Z) (l : list A) :
  0 <= i <= Z.of_nat (length l) -> length (slice_to i l) = Z.to_nat i.
Proof.
  intros Hi. unfold slice_to, slice_index.
  destruct (Z.ltb_spec i 0); [lia|]. rewrite length_take. lia.
Qed.

Lemma change_processors_ids (num : Z) (lb : LoadBalancer N) :
  ids_sequential lb -> ids_sequential (change_processors num lb).
Proof.
  unfold ids_sequential. intros Hids.
  destruct (Z.lt_trichotomy (Z.of_nat (length (processors lb))) num) as [Hlt|[Heq|Hgt]].
  - rewrite change_processors_grow by exact Hlt. cbn [processors].
    rewrite map_app, Processor_new_ids, Hids, length_app, length_map, range_length.
    rewrite (range_split 0 (Z.of_nat (length (processors lb)))
               (Z.of_nat (length (processors lb) + Z.to_nat (num - Z.of_nat (length (processors lb))))))
      by lia.
    do 2 f_equal. lia.
  - unfold change_processors. rewrite Heq, Z.ltb_irrefl. exact Hids.
  - rewrite change_processors_shrink by lia. cbn [processors].
    unfold slice_to. map_is_fmap. rewrite fmap_take.
    change (proc_id <$> processors lb) with (map proc_id (processors lb)).
    rewrite Hids, range_take, length_take. do 2 f_equal.
    rewrite Nat2Z.id. reflexivity.
Qed.

(** The processor that growing puts at position [k]: a new processor
    whose id is [k], with the defaults and nothing on it. *)
Lemma range_new_processor (ps : list (Processor N)) (num : Z) (k : nat) :
  (length ps <= k)%nat -> Z.of_nat k < num ->
  (ps ++ map Processor_new (range (Z.of_nat (length ps)) num)) !! k
  = Some (mkProcessor (Z.of_nat k) (pint 100) (pint 1) (pint 0) [] []).
Proof.
  intros Hk Hnum. rewrite lookup_app_r by exact Hk. map_is_fmap.
  rewrite list_lookup_fmap. unfold range.
  rewrite (lookup_seqZ_lt _ _ (k - length ps)) by lia. simpl.
  unfold Processor_new, Processor_init. do 2 f_equal. lia.
Qed.

(** C7.  With fewer processors asked for than there are, the processor
    list is cut to a prefix of itself and the tasks of the processors cut
    off are appended to the queue, processor by processor and in their
    order, so that none is lost; cutting to [num >= 0] keeps exactly [num]
    processors.  With more processors asked for, new empty processors with
    the ids [current_count, ..., num - 1] are appended and the queue is left
    alone: there are exactly [num] processors afterwards, the former ones
    where they were, and at each new position [k] a processor with id [k],
    the default capacity and speed, no task and no sample; since the ids
    of a balancer are the positions of its processors, these ids are new
    and all ids stay sequential.  Four
    processors with one task each, cut to two, put exactly two tasks on
    the queue. *)
Theorem change_processors_requeues_and_appends (num : Z) (lb : LoadBalancer N) :
  let lb' := change_processors num lb in
  let count := Z.of_nat (length (processors lb)) in
  (num < count ->
     exists kept removed,
       processors lb = kept ++ removed
       /\ processors lb' = kept
       /\ task_queue lb' = task_queue lb ++ concat (map tasks removed)
       /\ (0 <= num -> length kept = Z.to_nat num))
  /\ (count < num ->
       processors lb' = processors lb ++ map Processor_new (range count num)
       /\ map proc_id (map (Processor_new (N:=N)) (range count num)) = range count num
       /\ task_queue lb' = task_queue lb
       /\ length (processors lb') = Z.to_nat num
       /\ (forall k p, processors lb !! k = Some p -> processors lb' !! k = Some p)
       /\ (forall k, (length (processors lb) <= k < Z.to_nat num)%nat ->
             processors lb' !! k
             = Some (mkProcessor (Z.of_nat k) (pint 100) (pint 1) (pint 0) [] [])))
  /\ (ids_sequential lb -> ids_sequential lb')
  /\ (count = 4 -> num = 2 ->
      Forall (fun p => length (tasks p) = 1%nat) (processors lb) ->
      exists t1 t2, task_queue lb' = task_queue lb ++ [t1; t2]).
Proof.
  cbv zeta. split; [|split; [|split]].
  - intros Hshrink. exists (slice_to num (processors lb)), (slice_from num (processors lb)).
    rewrite change_processors_shrink by exact Hshrink. cbn [processors task_queue].
    split; [symmetry; apply slice_to_from|]. split; [reflexivity|].
    split; [reflexivity|]. intros Hnum. apply slice_to_length. lia.
  - intros Hgrow. rewrite change_processors_grow by exact Hgrow.
    cbn [processors task_queue]. split; [reflexivity|].
    split; [apply Processor_new_ids|]. split; [reflexivity|].
    split; [rewrite length_app, length_map, range_length; lia|].
    split; [intros k p Hk; apply lookup_app_l_Some, Hk|].
    intros k Hk. apply range_new_processor; lia.
  - apply change_processors_ids.
  - intros Hcount Hnum Hone. subst num.
    rewrite change_processors_shrink by lia. cbn [task_queue].
    destruct (processors lb) as [|p0 [|p1 [|p2 [|p3 [|p4 rest]]]]];
      simpl in Hcount; try lia.
    unfold slice_from, slice_index. simpl.
    apply Forall_cons_1 in Hone as [_ Hone].
    apply Forall_cons_1 in Hone as [_ Hone].
    apply Forall_cons_1 in Hone as [H2 Hone].
    apply Forall_cons_1 in Hone as [H3 _].
    destruct (tasks p2) as [|t1 [|]]; simpl in H2; try lia.
    destruct (tasks p3) as [|t2 [|]]; simpl in H3; try lia.
    exists t1, t2. reflexivity.
Qed.

End Resize.

(** Four processors that hold one task each. *)
Definition four_busy_processors : LoadBalancer Q :=
  mkLoadBalancer
    [add_task ∅ 10%nat (Processor_new 0); add_task ∅ 11%nat (Processor_new 1);
     add_task ∅ 12%nat (Processor_new 2); add_task ∅ 13%nat (Processor_new 3)]
    [] 0 4 "round_robin" true false.

(** Cut to two: two tasks are queued again. *)
Lemma four_processors_cut_to_two :
  exists t1 t2,
    task_queue (change_processors 2 four_busy_processors)
    = task_queue four_busy_processors ++ [t1; t2].
Proof.
  apply (change_processors_requeues_and_appends 2 four_busy_processors).
  - reflexivity.
  - reflexivity.
  - repeat constructor.
Defined.

Lemma four_processors_cut_to_two_computed :
  task_queue (change_processors 2 four_busy_processors) = [12%nat; 13%nat]
  /\ map tasks (processors (change_processors 2 four_busy_processors))
     = [[10%nat]; [11%nat]]
  /\ map proc_id (processors (change_processors 4 (change_processors 2 four_busy_processors)))
     = [0; 1; 2; 3].
Proof. repeat split; reflexivity. Qed.

(** ** Sorting by key *)

Section Sorted.
Context {N : Type} `{PyNum N} {A : Type}.

Lemma sorted_snoc (l : list (N * A)) (x : N * A) :
  sorted (l ++ [x]) = insert_sorted x (sorted l).
Proof. unfold sorted. rewrite foldl_app. reflexivity. Qed.

(** Only the head of the sorted prefix decides the new head. *)
Lemma insert_sorted_head (x : N * A) (l : list (N * A)) :
  head (insert_sorted x l)
  = Some (match head l with
          | None => x
          | Some e => if plt x.1 e.1 then x else e
          end).
Proof. destruct l as [|e l]; simpl; [|destruct (plt x.1 e.1)]; reflexivity. Qed.

Lemma insert_sorted_length (x : N * A) (l : list (N * A)) :
  length (insert_sorted x l) = S (length l).
Proof.
  induction l as [|e l IH]; simpl; [reflexivity|].
  destruct (plt x.1 e.1); simpl; [reflexivity | rewrite IH; reflexivity].
Qed.

Lemma sorted_length (l : list (N * A)) : length (sorted l) = length l.
Proof.
  induction l as [|x l IH] using rev_ind; [reflexivity|].
  rewrite sorted_snoc, insert_sorted_length, length_app, IH. simpl. lia.
Qed.

End Sorted.

(** ** Sorting keys that [<] orders *)

Section SortedOrder.
Context {N : Type} `{PyNum N} {A : Type}.

(** [<] orders the keys of the list: it is irreflexive and transitive on
    them, and so is its negation.  Every list of Python [int]s is so
    ordered, and every list of Python [float]s that holds no NaN. *)
Definition key_order (keys : list N) : Prop :=
  forall a b c, a ∈ keys -> b ∈ keys -> c ∈ keys ->
    plt a a = false
    /\ (plt a b = true -> plt b c = true -> plt a c = true)
    /\ (plt a b = false -> plt b c = false -> plt a c = false).

(** [e] is the first element of [l] with the least key, by [<]. *)
Definition first_least (l : list (N * A)) (e : N * A) : Prop :=
  exists l1 l2,
    l = l1 ++ e :: l2
    /\ Forall (fun y => plt e.1 y.1 = true) l1
    /\ Forall (fun y => plt y.1 e.1 = false) l2.

Lemma key_order_sub (keys keys' : list N) :
  keys' ⊆ keys -> key_order keys -> key_order keys'.
Proof. intros Hsub Hord a b c Ha Hb Hc. apply Hord; apply Hsub; assumption. Qed.

Lemma sorted_head_first_least (l : list (N * A)) :
  key_order l.*1 ->
  match head (sorted l) with
  | None => l = []
  | Some e => first_least l e
  end.
Proof.
  induction l as [|x l IH] using rev_ind; intros Hord; [reflexivity|].
  rewrite sorted_snoc, insert_sorted_head.
  assert (Hordl : key_order l.*1).
  { eapply key_order_sub; [|exact Hord].
    intros a Ha. rewrite fmap_app. apply elem_of_app. left. exact Ha. }
  specialize (IH Hordl).
  assert (Hx : x.1 ∈ (l ++ [x]).*1).
  { apply list_elem_of_fmap_2, elem_of_app. right.
    apply list_elem_of_singleton. reflexivity. }
  assert (Hin : forall y, y ∈ l -> y.1 ∈ (l ++ [x]).*1).
  { intros y Hy. rewrite fmap_app. apply elem_of_app. left.
    apply list_elem_of_fmap_2, Hy. }
  destruct (head (sorted l)) as [e|].
  - destruct IH as (l1 & l2 & Hsplit & Hbefore & Hafter).
    assert (He : e ∈ l).
    { rewrite Hsplit. apply elem_of_app. right. apply elem_of_cons. auto. }
    destruct (plt x.1 e.1) eqn:Hlt.
    + exists l, []. split; [reflexivity|]. split; [|constructor].
      apply Forall_forall. intros y Hy.
      assert (Hy' : y ∈ l1 \/ y = e \/ y ∈ l2).
      { rewrite Hsplit in Hy. apply elem_of_app in Hy as [Hy|Hy]; [auto|].
        apply elem_of_cons in Hy. tauto. }
      destruct Hy' as [Hy1|[->|Hy2]].
      * pose proof (proj1 (Forall_forall _ _) Hbefore y Hy1) as Hey. simpl in Hey.
        destruct (Hord x.1 e.1 y.1 Hx (Hin e He) (Hin y Hy)) as (_ & Htrans & _).
        auto.
      * exact Hlt.
      * pose proof (proj1 (Forall_forall _ _) Hafter y Hy2) as Hye. simpl in Hye.
        destruct (plt x.1 y.1) eqn:Hxy; [reflexivity|].
        destruct (Hord x.1 y.1 e.1 Hx (Hin y Hy) (Hin e He)) as (_ & _ & Hneg).
        rewrite (Hneg Hxy Hye) in Hlt. discriminate Hlt.
    + exists l1, (l2 ++ [x]). split; [rewrite Hsplit, <- app_assoc; reflexivity|].
      split; [exact Hbefore|]. apply Forall_app. split; [exact Hafter|].
      constructor; [exact Hlt | constructor].
  - subst l. exists [], []. split; [reflexivity|]. split; constructor.
Qed.

(** The head of the sorted list, by positions: no element has a smaller
    key, and every element before it has a greater one. *)
Lemma sorted_head_least (l : list (N * A)) :
  l <> [] -> key_order l.*1 ->
  exists i e rest,
    sorted l = e :: rest /\ l !! i = Some e
    /\ (forall j y, l !! j = Some y -> plt y.1 e.1 = false)
    /\ (forall j y, (j < i)%nat -> l !! j = Some y -> plt e.1 y.1 = true).
Proof.
  intros Hne Hord. pose proof (sorted_head_first_least l Hord) as Hhead.
  destruct (sorted l) as [|e rest] eqn:Hs; simpl in Hhead; [contradiction|].
  destruct Hhead as (l1 & l2 & Hsplit & Hbefore & Hafter).
  exists (length l1), e, rest. split; [reflexivity|].
  split; [rewrite Hsplit; apply list_lookup_middle; reflexivity|].
  assert (Hfirst : forall j y, (j < length l1)%nat -> l !! j = Some y ->
                               plt e.1 y.1 = true).
  { intros j y Hj Hy. rewrite Hsplit, lookup_app_l in Hy by exact Hj.
    exact (proj1 (Forall_lookup _ _) Hbefore j y Hy). }
  split; [|exact Hfirst]. intros j y Hy.
  assert (He : e.1 ∈ l.*1).
  { apply list_elem_of_fmap_2. rewrite Hsplit.
    apply elem_of_app. right. apply elem_of_cons. auto. }
  assert (Hyin : y.1 ∈ l.*1).
  { apply list_elem_of_fmap_2. eapply list_elem_of_lookup_2, Hy. }
  destruct (Nat.lt_trichotomy j (length l1)) as [Hlt|[Heq|Hgt]].
  - pose proof (Hfirst j y Hlt Hy) as Hey.
    destruct (plt y.1 e.1) eqn:Hye; [|reflexivity].
    destruct (Hord y.1 e.1 y.1 Hyin He Hyin) as (Hirr & Htrans & _).
    rewrite (Htrans Hye Hey) in Hirr. discriminate Hirr.
  - subst j. rewrite Hsplit, list_lookup_middle in Hy by reflexivity.
    inversion Hy; subst y. exact (proj1 (Hord e.1 e.1 e.1 He He He)).
  - rewrite Hsplit, lookup_app_r in Hy by lia.
    destruct (j - length l1)%nat as [|m] eqn:Hm; [lia|]. simpl in Hy.
    exact (proj1 (Forall_lookup _ _) Hafter m y Hy).
Qed.

End SortedOrder.

Section SortedExact.
Context {A : Type}.
Open Scope Q_scope.

Lemma plt_Q (a b : Q) : plt a b = true <-> a < b.
Proof.
  cbn [plt Q_PyNum]. rewrite negb_true_iff.
  destruct (Qle_bool b a) eqn:Hle.
  - apply Qle_bool_iff in Hle. split; [discriminate | lra].
  - split; [|reflexivity]. intros _.
    destruct (Qlt_le_dec a b) as [Hlt|Hge]; [exact Hlt|].
    apply Qle_bool_iff in Hge. congruence.
Qed.

Lemma plt_Q_false (a b : Q) : plt a b = false <-> b <= a.
Proof.
  cbn [plt Q_PyNum]. rewrite negb_false_iff. apply Qle_bool_iff.
Qed.

(** [e] is the first element of [l] with the least key. *)
Definition first_min (l : list (Q * A)) (e : Q * A) : Prop :=
  exists l1 l2,
    l = l1 ++ e :: l2
    /\ Forall (fun y => e.1 < y.1) l1
    /\ Forall (fun y => e.1 <= y.1) l2.

(** The head of the sorted list is the first element with the least key. *)
Lemma sorted_head_first_min (l : list (Q * A)) :
  match head (sorted l) with
  | None => l = []
  | Some e => first_min l e
  end.
Proof.
  induction l as [|x l IH] using rev_ind; [reflexivity|].
  rewrite sorted_snoc, insert_sorted_head.
  destruct (head (sorted l)) as [e|].
  - destruct IH as (l1 & l2 & -> & Hbefore & Hafter).
    destruct (plt x.1 e.1) eqn:Hlt.
    + apply plt_Q in Hlt.
      exists (l1 ++ e :: l2), []. split; [reflexivity|]. split; [|constructor].
      apply Forall_app. split; [|constructor].
      * eapply Forall_impl; [exact Hbefore|]. simpl. intros y Hy. lra.
      * lra.
      * eapply Forall_impl; [exact Hafter|]. simpl. intros y Hy. lra.
    + apply plt_Q_false in Hlt.
      exists l1, (l2 ++ [x]). split; [rewrite <- app_assoc; reflexivity|].
      split; [exact Hbefore|]. apply Forall_app. split; [exact Hafter|].
      constructor; [exact Hlt | constructor].
  - subst l. exists [], []. repeat split; constructor.
Qed.

End SortedExact.

(** ** The strategies that sort *)

Section Enumerate.
Context {N : Type} `{PyNum N}.

Lemma enumerate_length (ps : list (Processor N)) :
  length (enumerate ps) = length ps.
Proof. unfold enumerate. rewrite length_zip, length_seq. lia. Qed.

Lemma enumerate_lookup (ps : list (Processor N)) (j i : nat) (p : Processor N) :
  enumerate ps !! j = Some (i, p) <-> i = j /\ ps !! j = Some p.
Proof.
  unfold enumerate. split.
  - intros Hj. apply lookup_zip_with_Some in Hj as (x & y & Heq & Hx & Hy).
    inversion Heq; subst.
    apply lookup_seq in Hx as [-> _]. auto.
  - intros [-> Hp]. apply lookup_zip_with_Some.
    exists j, p. split; [reflexivity|]. split; [|exact Hp].
    apply lookup_seq. split; [reflexivity|]. eapply lookup_lt_Some, Hp.
Qed.

(** A list of keyed processors that covers [ps] position by position. *)
Definition keys_of (ps : list (Processor N)) (keyed : list (N * (nat * Processor N)))
    : Prop :=
  Forall2 (fun ip kip => kip.2 = ip) (enumerate ps) keyed.

Lemma keys_of_lookup ps keyed (j : nat) k i p :
  keys_of ps keyed -> keyed !! j = Some (k, (i, p)) ->
  i = j /\ ps !! j = Some p.
Proof.
  intros Hkeys Hj.
  destruct (Forall2_lookup_r _ _ _ _ _ Hkeys Hj) as (ip & Hip & Heq).
  simpl in Heq. subst ip. apply enumerate_lookup in Hip. exact Hip.
Qed.

Lemma keys_of_length ps keyed : keys_of ps keyed -> length keyed = length ps.
Proof.
  intros Hkeys. apply Forall2_length in Hkeys.
  rewrite enumerate_length in Hkeys. lia.
Qed.

Lemma keys_of_map (f : Processor N -> N) (ps : list (Processor N)) :
  keys_of ps (map (fun ip => (f ip.2, ip)) (enumerate ps)).
Proof.
  unfold keys_of. map_is_fmap. apply Forall2_fmap_r, Forall_Forall2_diag.
  apply Forall_forall. reflexivity.
Qed.

Lemma keys_of_mapM (f : Processor N -> option N) (ps : list (Processor N)) keyed :
  mapM (fun ip => k ← f ip.2; Some (k, ip)) (enumerate ps) = Some keyed ->
  keys_of ps keyed.
Proof.
  intros Hm. apply mapM_Some in Hm. unfold keys_of.
  eapply Forall2_impl; [exact Hm|]. simpl. intros ip kip Hk.
  destruct (f ip.2); simpl in Hk; [|discriminate].
  inversion Hk. reflexivity.
Qed.

(** Both branches do the same. *)
Lemma assign_to_first_head (h : heap N) task sorted_ps ps k i p rest :
  sorted_ps = (k, (i, p)) :: rest ->
  assign_to_first h task sorted_ps ps = alter (add_task h task) i ps.
Proof.
  intros ->. unfold assign_to_first.
  destruct (ple (load (h !!! task)) (get_available_capacity p)); reflexivity.
Qed.

End Enumerate.

(** ** Least loaded *)

Section LeastLoaded.
Open Scope Q_scope.

Lemma keyed_lookup (f : Processor Q -> Q) (ps : list (Processor Q)) (j : nat) :
  map (fun ip => (f ip.2, ip)) (enumerate ps) !! j
  = (fun q => (f q, (j, q))) <$> ps !! j.
Proof.
  map_is_fmap. rewrite list_lookup_fmap.
  destruct (ps !! j) as [q|] eqn:Hq.
  - assert (Hj : enumerate ps !! j = Some (j, q)) by (apply enumerate_lookup; auto).
    rewrite Hj. reflexivity.
  - destruct (enumerate ps !! j) as [[i q]|] eqn:Hj; [|reflexivity].
    apply enumerate_lookup in Hj as [_ Hj]. congruence.
Qed.

(** The head of the processors sorted by a key: the first processor of
    the list whose key is least. *)
Lemma sorted_by_key_head (f : Processor Q -> Q) (ps : list (Processor Q)) :
  ps <> [] ->
  exists i p rest,
    sorted (map (fun ip => (f ip.2, ip)) (enumerate ps)) = (f p, (i, p)) :: rest
    /\ ps !! i = Some p
    /\ (forall j q, ps !! j = Some q -> f p <= f q)
    /\ (forall j q, (j < i)%nat -> ps !! j = Some q -> f p < f q).
Proof.
  intros Hne. set (keyed := map (fun ip => (f ip.2, ip)) (enumerate ps)).
  pose proof (sorted_head_first_min keyed) as Hhead.
  destruct (sorted keyed) as [|e rest] eqn:Hsorted; simpl in Hhead.
  - exfalso. apply Hne. apply nil_length_inv.
    rewrite <- enumerate_length, <- (length_map (fun ip => (f ip.2, ip))).
    fold keyed. rewrite Hhead. reflexivity.
  - destruct Hhead as (l1 & l2 & Hsplit & Hbefore & Hafter).
    assert (Hat : keyed !! length l1 = Some e).
    { rewrite Hsplit. apply list_lookup_middle. reflexivity. }
    unfold keyed in Hat. rewrite keyed_lookup in Hat.
    destruct (ps !! length l1) as [p|] eqn:Hp; [|discriminate].
    simpl in Hat. inversion Hat; subst e. clear Hat.
    exists (length l1), p, rest. split; [reflexivity|]. split; [exact Hp|].
    assert (Hkey : forall j q, ps !! j = Some q -> keyed !! j = Some (f q, (j, q))).
    { intros j q Hq. unfold keyed. rewrite keyed_lookup, Hq. reflexivity. }
    split.
    + intros j q Hq. apply Hkey in Hq. rewrite Hsplit in Hq.
      destruct (Nat.lt_trichotomy j (length l1)) as [Hlt|[Heq|Hgt]].
      * rewrite lookup_app_l in Hq by exact Hlt.
        pose proof (proj1 (Forall_lookup _ _) Hbefore j _ Hq) as Hk.
        simpl in Hk. lra.
      * subst j. rewrite list_lookup_middle in Hq by reflexivity.
        assert (p = q) as -> by congruence. lra.
      * rewrite lookup_app_r in Hq by lia.
        destruct (j - length l1)%nat as [|m] eqn:Hm; [lia|]. simpl in Hq.
        pose proof (proj1 (Forall_lookup _ _) Hafter m _ Hq) as Hk.
        simpl in Hk. exact Hk.
    + intros j q Hlt Hq. apply Hkey in Hq. rewrite Hsplit in Hq.
      rewrite lookup_app_l in Hq by exact Hlt.
      pose proof (proj1 (Forall_lookup _ _) Hbefore j _ Hq) as Hk.
      simpl in Hk. exact Hk.
Qed.

(** C6.  On a non-empty processor list the least-loaded strategy gives
    the task to the processor at the first position [i] whose
    [current_load] is least: no processor has a smaller load, and every
    processor before it has a strictly greater one.  That processor gets
    the task: the task is appended to its task list, the task's load is
    added to its current load, and nothing else changes, on this processor
    or on any other.  The available capacity does not appear: the
    processor is the same whether it has room for the task or not. *)
Theorem least_loaded_picks_first_minimum (h : heap Q) (task : task_ref)
    (ps : list (Processor Q)) :
  ps <> [] ->
  exists i p,
    ps !! i = Some p
    /\ (forall j q, ps !! j = Some q -> current_load p <= current_load q)
    /\ (forall j q, (j < i)%nat -> ps !! j = Some q -> current_load p < current_load q)
    /\ _least_loaded h task ps = alter (add_task h task) i ps
    /\ lands_on h task i ps (_least_loaded h task ps).
Proof.
  intros Hne.
  destruct (sorted_by_key_head current_load ps Hne)
    as (i & p & rest & Hsorted & Hp & Hmin & Hfirst).
  assert (Hres : _least_loaded h task ps = alter (add_task h task) i ps).
  { unfold _least_loaded. eapply assign_to_first_head. exact Hsorted. }
  exists i, p. split; [exact Hp|]. split; [exact Hmin|]. split; [exact Hfirst|].
  split; [exact Hres|]. rewrite Hres.
  apply alter_add_task_lands. eapply lookup_lt_Some, Hp.
Qed.

(** Processors at loads 30, 10 and 50, and a further task of load 5. *)
Definition loads_30_10_50_heap : heap Q :=
  <[3%nat := Task_init 3 5 1]>
    (<[2%nat := Task_init 2 50 1]>
       (<[1%nat := Task_init 1 10 1]>
          (<[0%nat := Task_init 0 30 1]> ∅))).

Definition loads_30_10_50 : list (Processor Q) :=
  [add_task loads_30_10_50_heap 0%nat (Processor_new 0);
   add_task loads_30_10_50_heap 1%nat (Processor_new 1);
   add_task loads_30_10_50_heap 2%nat (Processor_new 2)].

(** The task of load 5 lands on the processor at load 10: afterwards the
    task lists are [[0]], [[1; 3]] and [[2]]. *)
Lemma least_loaded_30_10_50 :
  map current_load loads_30_10_50 = [0 + 30; 0 + 10; 0 + 50]
  /\ _least_loaded loads_30_10_50_heap 3%nat loads_30_10_50
     = alter (add_task loads_30_10_50_heap 3%nat) 1%nat loads_30_10_50
  /\ lands_on loads_30_10_50_heap 3%nat 1%nat loads_30_10_50
       (_least_loaded loads_30_10_50_heap 3%nat loads_30_10_50)
  /\ map tasks (_least_loaded loads_30_10_50_heap 3%nat loads_30_10_50)
     = [[0%nat]; [1%nat; 3%nat]; [2%nat]].
Proof.
  split; [reflexivity|].
  destruct (least_loaded_picks_first_minimum loads_30_10_50_heap 3%nat loads_30_10_50)
    as (i & p & Hp & Hmin & _ & Hres & Hland); [discriminate|].
  destruct i as [|[|[|i]]]; simpl in Hp; inversion Hp; subst p.
  - exfalso.
    pose proof (Hmin 1%nat (add_task loads_30_10_50_heap 1%nat (Processor_new 1)) eq_refl) as Hle.
    vm_compute in Hle. apply Hle. reflexivity.
  - split; [exact Hres|]. split; [exact Hland|]. rewrite Hres. reflexivity.
  - exfalso.
    pose proof (Hmin 1%nat (add_task loads_30_10_50_heap 1%nat (Processor_new 1)) eq_refl) as Hle.
    vm_compute in Hle. apply Hle. reflexivity.
Defined.

End LeastLoaded.

(** ** Division by the speed *)

Section Division.
Open Scope Q_scope.

Lemma pdiv_Q_None (a b : Q) : pdiv a b = None <-> b == 0.
Proof.
  cbn [pdiv Q_PyNum]. change (inject_Z 0) with 0.
  destruct (Qeq_bool b 0) eqn:Hb.
  - apply Qeq_bool_iff in Hb. split; auto.
  - apply Qeq_bool_neq in Hb. split; [discriminate | contradiction].
Qed.

Lemma pdiv_Q_Some (a b : Q) : ~ b == 0 -> pdiv a b = Some (a / b).
Proof.
  intros Hb. cbn [pdiv Q_PyNum]. change (inject_Z 0) with 0.
  destruct (Qeq_bool b 0) eqn:Hz; [|reflexivity].
  apply Qeq_bool_iff in Hz. contradiction.
Qed.

Lemma inject_Z_nonzero (z : Z) : (z <> 0)%Z -> ~ inject_Z z == 0.
Proof.
  intros Hz Heq. apply Hz. unfold Qeq in Heq. simpl in Heq. lia.
Qed.

Lemma weighted_key_None (p : Processor Q) :
  weighted_key p = None <-> processing_speed p == 0.
Proof. apply pdiv_Q_None. Qed.

(** The score divides by the capacity and by the speed; the other two
    divisors, a length that is at least 1 and the constant 200, are never
    zero. *)
Lemma adaptive_score_None (p : Processor Q) :
  adaptive_score p = None <-> capacity p == 0 \/ processing_speed p == 0.
Proof.
  unfold adaptive_score.
  rewrite (pdiv_Q_Some _ (pint (Z.max _ 1))) by (apply inject_Z_nonzero; lia).
  cbn [mbind option_bind].
  destruct (Qeq_dec (capacity p) 0) as [Hcap|Hcap].
  - rewrite (proj2 (pdiv_Q_None _ _) Hcap). simpl. tauto.
  - rewrite (pdiv_Q_Some _ _ Hcap). cbn [mbind option_bind].
    destruct (Qeq_dec (processing_speed p) 0) as [Hspeed|Hspeed].
    + rewrite (proj2 (pdiv_Q_None _ _) Hspeed). simpl. tauto.
    + rewrite (pdiv_Q_Some _ _ Hspeed). cbn [mbind option_bind].
      rewrite (pdiv_Q_Some _ (pint 200)) by (apply inject_Z_nonzero; lia).
      simpl. split; [discriminate | tauto].
Qed.

Lemma Exists_iff {A} (P P' : A -> Prop) (l : list A) :
  (forall x, P x <-> P' x) -> Exists P l <-> Exists P' l.
Proof.
  intros Hiff. split; intros Hex; (eapply Exists_impl; [exact Hex|]);
    intros x; apply Hiff.
Qed.

Lemma Exists_enumerate (P : Processor Q -> Prop) (ps : list (Processor Q)) :
  Exists (fun ip => P ip.2) (enumerate ps) <-> Exists P ps.
Proof.
  rewrite !Exists_exists. split.
  - intros ([i p] & Hin & HP). apply list_elem_of_lookup in Hin as [j Hj].
    apply enumerate_lookup in Hj as [_ Hj].
    exists p. split; [eapply list_elem_of_lookup_2, Hj | exact HP].
  - intros (p & Hin & HP). apply list_elem_of_lookup in Hin as [j Hj].
    exists (j, p). split; [|exact HP].
    eapply list_elem_of_lookup_2, enumerate_lookup. split; [reflexivity | exact Hj].
Qed.

(** Computing the keys fails exactly when one key fails. *)
Lemma keys_None (f : Processor Q -> option Q) (ps : list (Processor Q)) :
  mapM (fun ip => k ← f ip.2; Some (k, ip)) (enumerate ps) = None
  <-> Exists (fun p => f p = None) ps.
Proof.
  rewrite mapM_None, <- Exists_enumerate. apply Exists_iff.
  intros [i p]. simpl. destruct (f p); simpl; split; congruence.
Qed.

Lemma weighted_None (h : heap Q) task (ps : list (Processor Q)) :
  _weighted_distribution h task ps = None
  <-> Exists (fun p => processing_speed p == 0) ps.
Proof.
  unfold _weighted_distribution.
  rewrite <- (Exists_iff _ _ _ (fun p => weighted_key_None p)), <- keys_None.
  destruct (mapM _ (enumerate ps)); simpl; split; congruence.
Qed.

Lemma adaptive_None (h : heap Q) task (ps : list (Processor Q)) :
  _adaptive_distribution h task ps = None
  <-> Exists (fun p => capacity p == 0 \/ processing_speed p == 0) ps.
Proof.
  unfold _adaptive_distribution.
  rewrite <- (Exists_iff _ _ _ (fun p => adaptive_score_None p)), <- keys_None.
  destruct (mapM _ (enumerate ps)); simpl; split; congruence.
Qed.

(** C10.  The weighted key is [current_load / processing_speed] and the
    adaptive score has the factor [1 / processing_speed]; neither division
    is guarded.  The weighted strategy raises [ZeroDivisionError] exactly
    when some processor has speed zero, the adaptive one exactly when some
    processor has speed zero or capacity zero.  So one processor at speed
    zero makes both fail, and each returns whenever all speeds (and, for
    the adaptive one, all capacities) are non-zero. *)
Theorem ranking_divides_by_speed (h : heap Q) (task : task_ref)
    (ps : list (Processor Q)) :
  (forall p : Processor Q,
     weighted_key p = pdiv (current_load p) (processing_speed p))
  /\ (forall p : Processor Q, processing_speed p == 0 -> adaptive_score p = None)
  /\ (_weighted_distribution h task ps = None
      <-> Exists (fun p => processing_speed p == 0) ps)
  /\ (_adaptive_distribution h task ps = None
      <-> Exists (fun p => capacity p == 0 \/ processing_speed p == 0) ps)
  /\ (Exists (fun p => processing_speed p == 0) ps ->
      _weighted_distribution h task ps = None
      /\ _adaptive_distribution h task ps = None)
  /\ (Forall (fun p => ~ processing_speed p == 0) ps ->
      is_Some (_weighted_distribution h task ps)).
Proof.
  split; [reflexivity|].
  split; [intros p Hp; apply adaptive_score_None; auto|].
  split; [apply weighted_None|]. split; [apply adaptive_None|]. split.
  - intros Hzero. split; [apply weighted_None, Hzero|].
    apply adaptive_None. eapply Exists_impl; [exact Hzero|]. simpl. auto.
  - intros Hall. apply not_eq_None_Some. rewrite weighted_None.
    intros Hzero. apply Exists_exists in Hzero as (p & Hin & Hp).
    eapply Forall_forall in Hall; [|exact Hin]. contradiction.
Qed.

(** A single processor at speed zero: both rankings fail. *)
Lemma zero_speed_fails_both_rankings :
  _weighted_distribution ∅ 0%nat [Processor_init 0 100 0] = None
  /\ _adaptive_distribution ∅ 0%nat [Processor_init 0 100 0] = None.
Proof.
  apply (ranking_divides_by_speed ∅ 0%nat [Processor_init 0 100 0]).
  constructor. reflexivity.
Defined.

End Division.

(** ** Distribution: dropped or assigned *)

Section EmptyPool.
Context {N : Type} `{PyNum N}.

(** Without processors every strategy, and also a name that selects no
    strategy, leaves the empty list as it is. *)
Lemma dispatch_no_processors (alg : string) (h : heap N) (task : task_ref) :
  dispatch alg h task [] = Some [].
Proof.
  unfold dispatch.
  destruct (String.eqb alg "round_robin"); [reflexivity|].
  destruct (String.eqb alg "least_loaded"); [reflexivity|].
  destruct (String.eqb alg "weighted"); [reflexivity|].
  destruct (String.eqb alg "adaptive"); reflexivity.
Qed.

Lemma drain_queue_no_processors (alg : string) (h : heap N) (queue : list task_ref) :
  drain_queue alg h queue [] = ([], [], Returns).
Proof.
  induction queue as [|task queue IH]; simpl.
  - reflexivity.
  - rewrite dispatch_no_processors. exact IH.
Qed.

Lemma add_task_frame (h : heap N) (task : task_ref) (p : Processor N) :
  capacity (add_task h task p) = capacity p
  /\ processing_speed (add_task h task p) = processing_speed p.
Proof. split; reflexivity. Qed.

(** The loop of [_round_robin], when it finds room, changes one processor. *)
Lemma round_robin_scan_Some (h : heap N) (task : task_ref) (ps ps' : list (Processor N)) :
  round_robin_scan h task ps = Some ps' ->
  exists i, (i < length ps)%nat /\ ps' = alter (add_task h task) i ps.
Proof.
  revert ps'. induction ps as [|p ps IH]; intros ps' Hscan; simpl in Hscan.
  - discriminate.
  - destruct (ple (load (h !!! task)) (get_available_capacity p)).
    + inversion Hscan. exists 0%nat. split; [simpl; lia | reflexivity].
    + destruct (round_robin_scan h task ps) as [ps1|]; simpl in Hscan; [|discriminate].
      inversion Hscan. destruct (IH ps1 eq_refl) as (i & Hi & ->).
      exists (S i). split; [simpl; lia | reflexivity].
Qed.

Lemma round_robin_assigns (h : heap N) (task : task_ref) (ps : list (Processor N)) :
  ps <> [] ->
  exists i, (i < length ps)%nat /\ _round_robin h task ps = alter (add_task h task) i ps.
Proof.
  intros Hne. unfold _round_robin.
  destruct (round_robin_scan h task ps) as [ps'|] eqn:Hscan.
  - apply round_robin_scan_Some, Hscan.
  - destruct ps as [|p0 rest]; [contradiction|].
    exists 0%nat. split; [simpl; lia | reflexivity].
Qed.

End EmptyPool.

Section Assignment.
Open Scope Q_scope.

(** The tasks of a queue are handed out one after the other, each to one
    processor of the list, by [add_task]. *)
Inductive assigned_each (h : heap Q)
    : list task_ref -> list (Processor Q) -> list (Processor Q) -> Prop :=
  | assigned_none ps : assigned_each h [] ps ps
  | assigned_next task queue ps i ps' :
      (i < length ps)%nat ->
      assigned_each h queue (alter (add_task h task) i ps) ps' ->
      assigned_each h (task :: queue) ps ps'.

(** The tasks of [queue] that went to position [j], in queue order, when
    the [n]-th task of the queue went to position [positions !! n]. *)
Definition received (queue : list task_ref) (positions : list nat) (j : nat)
    : list task_ref :=
  (filter (fun tw => tw.2 = j) (zip queue positions)).*1.

Lemma received_elem (queue : list task_ref) (positions : list nat)
    (n j : nat) (task : task_ref) :
  queue !! n = Some task -> positions !! n = Some j ->
  task ∈ received queue positions j.
Proof.
  intros Htask Hj. unfold received.
  apply list_elem_of_fmap. exists (task, j). split; [reflexivity|].
  apply list_elem_of_filter. split; [reflexivity|].
  apply (list_elem_of_lookup_2 _ n). apply lookup_zip_with_Some.
  exists task, j. auto.
Qed.

(** Where the tasks are after they were handed out: every processor has
    its former tasks followed by the tasks it received. *)
Lemma assigned_each_tasks (h : heap Q) (queue : list task_ref)
    (ps ps' : list (Processor Q)) :
  assigned_each h queue ps ps' ->
  exists positions,
    length positions = length queue
    /\ Forall (fun i => (i < length ps)%nat) positions
    /\ length ps' = length ps
    /\ (forall j p, ps !! j = Some p ->
          exists p', ps' !! j = Some p'
            /\ tasks p' = tasks p ++ received queue positions j).
Proof.
  induction 1 as [ps|task queue ps i ps' Hi _ IH].
  - exists []. split; [reflexivity|]. split; [constructor|].
    split; [reflexivity|]. intros j p Hp. exists p. split; [exact Hp|].
    unfold received. simpl. rewrite app_nil_r. reflexivity.
  - destruct IH as (positions & Hlen & Hpos & Hlen' & Hrec).
    rewrite length_alter in Hpos, Hlen'.
    exists (i :: positions). split; [simpl; congruence|].
    split; [constructor; assumption|]. split; [exact Hlen'|].
    intros j p Hp. unfold received. cbn [zip zip_with].
    destruct (decide (j = i)) as [->|Hne].
    + destruct (Hrec i (add_task h task p)) as (p' & Hp' & Htasks).
      { rewrite list_lookup_alter_eq, Hp. reflexivity. }
      exists p'. split; [exact Hp'|].
      rewrite filter_cons_True by reflexivity. rewrite fmap_cons.
      rewrite Htasks. cbn [tasks add_task fst]. rewrite <- app_assoc. reflexivity.
    + destruct (Hrec j p) as (p' & Hp' & Htasks).
      { rewrite list_lookup_alter_ne by congruence. exact Hp. }
      exists p'. split; [exact Hp'|].
      rewrite filter_cons_False by (simpl; congruence). exact Htasks.
Qed.

(** So every task that was handed out is on the task list of a processor. *)
Lemma assigned_each_held (h : heap Q) (queue : list task_ref)
    (ps ps' : list (Processor Q)) (task : task_ref) :
  assigned_each h queue ps ps' -> task ∈ queue ->
  exists j p', ps' !! j = Some p' /\ task ∈ tasks p'.
Proof.
  intros Heach Hin.
  destruct (assigned_each_tasks h queue ps ps' Heach)
    as (positions & Hlen & Hpos & _ & Hrec).
  apply list_elem_of_lookup_1 in Hin as [n Hn].
  destruct (lookup_lt_is_Some_2 positions n) as [j Hj].
  { rewrite Hlen. eapply lookup_lt_Some, Hn. }
  pose proof (proj1 (Forall_lookup _ _) Hpos n j Hj) as Hlt. simpl in Hlt.
  destruct (lookup_lt_is_Some_2 ps j Hlt) as [p Hp].
  destruct (Hrec j p Hp) as (p' & Hp' & Htasks).
  exists j, p'. split; [exact Hp'|]. rewrite Htasks.
  apply elem_of_app. right. eapply received_elem; eassumption.
Qed.

(** No division by zero can happen while ranking: what the weighted and
    the adaptive strategy need of the processors. *)
Definition ranking_defined (alg : string) (ps : list (Processor Q)) : Prop :=
  (alg = "weighted"%string -> Forall (fun p => ~ processing_speed p == 0) ps)
  /\ (alg = "adaptive"%string ->
      Forall (fun p => ~ capacity p == 0 /\ ~ processing_speed p == 0) ps).

Lemma Forall_alter_add_task (P : Processor Q -> Prop) (h : heap Q) task i ps :
  (forall p, P p -> P (add_task h task p)) ->
  Forall P ps -> Forall P (alter (add_task h task) i ps).
Proof.
  intros Hkeep Hall. apply Forall_lookup. intros j q Hq.
  destruct (decide (i = j)) as [->|Hne].
  - rewrite list_lookup_alter_eq in Hq.
    destruct (ps !! j) as [p|] eqn:Hp; simpl in Hq; [|discriminate].
    inversion Hq. apply Hkeep. eapply Forall_lookup_1; eauto.
  - rewrite list_lookup_alter_ne in Hq by exact Hne.
    eapply Forall_lookup_1; eauto.
Qed.

Lemma ranking_defined_alter (alg : string) (h : heap Q) task i ps :
  ranking_defined alg ps -> ranking_defined alg (alter (add_task h task) i ps).
Proof.
  intros [Hw Ha]. split; intros Halg.
  - apply Forall_alter_add_task; [auto | apply Hw, Halg].
  - apply Forall_alter_add_task; [auto | apply Ha, Halg].
Qed.

(** The head of a sorted list of keyed processors is one of them. *)
Lemma sorted_keys_head (ps : list (Processor Q)) keyed :
  ps <> [] -> keys_of ps keyed ->
  exists k i p rest,
    sorted keyed = (k, (i, p)) :: rest /\ (i < length ps)%nat.
Proof.
  intros Hne Hkeys. pose proof (sorted_head_first_min keyed) as Hhead.
  destruct (sorted keyed) as [|[k [i p]] rest] eqn:Hsorted; simpl in Hhead.
  - exfalso. apply Hne, nil_length_inv.
    rewrite <- (keys_of_length ps keyed Hkeys), Hhead. reflexivity.
  - destruct Hhead as (l1 & l2 & Hsplit & _ & _).
    assert (Hat : keyed !! length l1 = Some (k, (i, p))).
    { rewrite Hsplit. apply list_lookup_middle. reflexivity. }
    destruct (keys_of_lookup _ _ _ _ _ _ Hkeys Hat) as [-> Hp].
    exists k, (length l1), p, rest. split; [reflexivity|].
    eapply lookup_lt_Some, Hp.
Qed.

Lemma keyed_strategy_assigns (f : Processor Q -> option Q) (h : heap Q) task ps :
  ps <> [] -> Forall (fun p => f p <> None) ps ->
  exists i, (i < length ps)%nat
    /\ (keyed ← mapM (fun ip => k ← f ip.2; Some (k, ip)) (enumerate ps);
        Some (assign_to_first h task (sorted keyed) ps))
       = Some (alter (add_task h task) i ps).
Proof.
  intros Hne Hsafe.
  destruct (mapM (fun ip => k ← f ip.2; Some (k, ip)) (enumerate ps))
    as [keyed|] eqn:Hkeyed.
  - destruct (sorted_keys_head ps keyed Hne (keys_of_mapM f ps keyed Hkeyed))
      as (k & i & p & rest & Hsorted & Hi).
    exists i. split; [exact Hi|]. simpl. f_equal.
    eapply assign_to_first_head, Hsorted.
  - exfalso. apply keys_None in Hkeyed.
    apply Exists_exists in Hkeyed as (p & Hin & Hp).
    eapply Forall_forall in Hsafe; [|exact Hin]. contradiction.
Qed.

Lemma dispatch_assigns (alg : string) (h : heap Q) task ps :
  ps <> [] -> known_algorithm alg -> ranking_defined alg ps ->
  exists i, (i < length ps)%nat
    /\ dispatch alg h task ps = Some (alter (add_task h task) i ps).
Proof.
  intros Hne Hknown [Hw Ha].
  destruct Hknown as [-> | [-> | [-> | ->]]].
  - destruct (round_robin_assigns h task ps Hne) as (i & Hi & Hrr).
    exists i. rewrite dispatch_round_robin, Hrr. auto.
  - destruct (sorted_keys_head ps _ Hne (keys_of_map current_load ps))
      as (k & i & p & rest & Hsorted & Hi).
    exists i. split; [exact Hi|]. rewrite dispatch_least_loaded. f_equal.
    unfold _least_loaded. eapply assign_to_first_head, Hsorted.
  - rewrite dispatch_weighted. apply keyed_strategy_assigns; [exact Hne|].
    eapply Forall_impl; [apply Hw; reflexivity|]. simpl.
    intros p Hp Hnone. apply Hp, weighted_key_None, Hnone.
  - rewrite dispatch_adaptive. apply keyed_strategy_assigns; [exact Hne|].
    eapply Forall_impl; [apply Ha; reflexivity|]. simpl.
    intros p [Hcap Hspeed] Hnone. apply adaptive_score_None in Hnone. tauto.
Qed.

Lemma alter_nonempty {A} (f : A -> A) (i : nat) (l : list A) :
  l <> [] -> alter f i l <> [].
Proof.
  intros Hne Hnil. apply Hne, nil_length_inv.
  rewrite <- (length_alter f l i), Hnil. reflexivity.
Qed.

Lemma drain_queue_assigns (alg : string) (h : heap Q) queue ps :
  ps <> [] -> known_algorithm alg -> ranking_defined alg ps ->
  exists ps', drain_queue alg h queue ps = ([], ps', Returns)
    /\ assigned_each h queue ps ps'.
Proof.
  intros Hne Hknown. revert ps Hne.
  induction queue as [|task queue IH]; intros ps Hne Hsafe; simpl.
  - exists ps. split; [reflexivity | constructor].
  - destruct (dispatch_assigns alg h task ps Hne Hknown Hsafe) as (i & Hi & ->).
    destruct (IH (alter (add_task h task) i ps)) as (ps' & Hdrain & Hall).
    + apply alter_nonempty, Hne.
    + apply ranking_defined_alter, Hsafe.
    + exists ps'. split; [exact Hdrain|]. econstructor; eauto.
Qed.

(** C9 (amended).  With no processors, a distribution pass empties the
    queue, returns normally and leaves the processor list empty: the tasks
    are gone.  With at least one processor, one of the four strategies
    selected, and no zero divisor in the ranking (non-zero speeds for the
    weighted strategy, non-zero speeds and capacities for the adaptive
    one), the pass empties the queue, returns normally, and has given each
    task of the queue, in order, to one processor of the list: the
    processors are as many as before, the task list of each is its former
    task list followed by the tasks it received, in queue order, and every
    task of the queue is on the task list of a processor. *)
Theorem distribute_tasks_drops_or_assigns (h : heap Q) (lb : LoadBalancer Q) :
  (processors lb = [] ->
     distribute_tasks h lb
     = (mkLoadBalancer [] [] (completed_tasks lb) (task_id_counter lb)
          (algorithm lb) (running lb) (paused lb), Returns))
  /\ (processors lb <> [] -> known_algorithm (algorithm lb) ->
      ranking_defined (algorithm lb) (processors lb) ->
      exists ps' positions,
        distribute_tasks h lb
        = (mkLoadBalancer ps' [] (completed_tasks lb) (task_id_counter lb)
             (algorithm lb) (running lb) (paused lb), Returns)
        /\ assigned_each h (task_queue lb) (processors lb) ps'
        /\ length positions = length (task_queue lb)
        /\ Forall (fun i => (i < length (processors lb))%nat) positions
        /\ length ps' = length (processors lb)
        /\ (forall j p, processors lb !! j = Some p ->
              exists p', ps' !! j = Some p'
                /\ tasks p' = tasks p ++ received (task_queue lb) positions j)
        /\ (forall task, task ∈ task_queue lb ->
              exists j p', ps' !! j = Some p' /\ task ∈ tasks p')).
Proof.
  split.
  - intros Hempty. unfold distribute_tasks.
    rewrite Hempty, drain_queue_no_processors. reflexivity.
  - intros Hne Hknown Hsafe. unfold distribute_tasks.
    destruct (drain_queue_assigns (algorithm lb) h (task_queue lb) (processors lb)
                Hne Hknown Hsafe) as (ps' & Hdrain & Hall).
    destruct (assigned_each_tasks h _ _ _ Hall)
      as (positions & Hlen & Hpos & Hlen' & Hrec).
    exists ps', positions. rewrite Hdrain.
    split; [reflexivity|]. split; [exact Hall|]. split; [exact Hlen|].
    split; [exact Hpos|]. split; [exact Hlen'|]. split; [exact Hrec|].
    intros task Hin. eapply assigned_each_held; eassumption.
Qed.

(** C9, as stated, fails.  One processor exists, its speed is 0 and the
    weighted strategy is selected: the pass takes the task off the queue,
    the ranking divides by zero, and no processor has the task.  And with
    two processors and an algorithm name that selects no strategy the pass
    returns normally with the queue empty and no processor has the task. *)
Lemma nonempty_pool_can_lose_the_task :
  (let lb := mkLoadBalancer [Processor_init 0 100 0] [] 0 0 "weighted" true false in
   let s := inject 40 5 (∅, lb) in
   length (processors s.2) = 1%nat
   /\ task_queue s.2 = [0%nat]
   /\ (distribute_tasks s.1 s.2).2 = Raises_ZeroDivisionError
   /\ task_queue (distribute_tasks s.1 s.2).1 = []
   /\ map tasks (processors (distribute_tasks s.1 s.2).1) = [[]])
  /\ (let lb := change_algorithm "fastest" (LoadBalancer_init 2) in
      let s := inject 40 5 (∅, lb) in
      length (processors s.2) = 2%nat
      /\ task_queue s.2 = [0%nat]
      /\ (distribute_tasks s.1 s.2).2 = Returns
      /\ task_queue (distribute_tasks s.1 s.2).1 = []
      /\ map tasks (processors (distribute_tasks s.1 s.2).1) = [[]; []]).
Proof. vm_compute. repeat split; reflexivity. Qed.

(** An instance of the second part: two processors, the adaptive strategy,
    three tasks. *)
Lemma distribute_tasks_assigns_example :
  let lb := change_algorithm "adaptive" (LoadBalancer_init 2) in
  let s := inject 30 5 (inject 20 5 (inject 10 5 (∅, lb))) in
  exists ps' positions,
    distribute_tasks s.1 s.2
    = (mkLoadBalancer ps' [] (completed_tasks s.2) (task_id_counter s.2)
         (algorithm s.2) (running s.2) (paused s.2), Returns)
    /\ assigned_each s.1 (task_queue s.2) (processors s.2) ps'
    /\ length positions = length (task_queue s.2)
    /\ Forall (fun i => (i < length (processors s.2))%nat) positions
    /\ length ps' = length (processors s.2)
    /\ (forall j p, processors s.2 !! j = Some p ->
          exists p', ps' !! j = Some p'
            /\ tasks p' = tasks p ++ received (task_queue s.2) positions j)
    /\ (forall task, task ∈ task_queue s.2 ->
          exists j p', ps' !! j = Some p' /\ task ∈ tasks p').
Proof.
  cbv zeta.
  apply (proj2 (distribute_tasks_drops_or_assigns _ _)).
  - discriminate.
  - unfold known_algorithm. simpl. tauto.
  - split; intros _; repeat constructor; simpl; intros Hz; discriminate Hz.
Defined.

End Assignment.

(** ** Selecting a strategy *)

Section Selecting.
Context {N : Type} `{PyNum N}.

(** C3 (amended).  Setting the algorithm is a plain write: whatever the
    name, the balancer afterwards has that name as its algorithm and
    everything else as before; nothing is checked.  The names are
    restricted by the selector alone, which offers exactly the four names
    of the strategies.  Each of the four selects its strategy, and after
    one of them is set, a distribution pass over at least one processor
    and with no zero divisor in the ranking returns normally, empties the
    queue and discards nothing: every task that was queued is on the task
    list of a processor. *)
Theorem change_algorithm_stores_any_name (name : string) (lb : LoadBalancer N) :
  change_algorithm name lb
  = mkLoadBalancer (processors lb) (task_queue lb) (completed_tasks lb)
      (task_id_counter lb) name (running lb) (paused lb)
  /\ algorithm (change_algorithm name lb) = name
  /\ processors (change_algorithm name lb) = processors lb
  /\ task_queue (change_algorithm name lb) = task_queue lb
  /\ completed_tasks (change_algorithm name lb) = completed_tasks lb
  /\ task_id_counter (change_algorithm name lb) = task_id_counter lb
  /\ running (change_algorithm name lb) = running lb
  /\ paused (change_algorithm name lb) = paused lb
  /\ (forall (h : heap N) task ps,
        dispatch "round_robin" h task ps = Some (_round_robin h task ps)
        /\ dispatch "least_loaded" h task ps = Some (_least_loaded h task ps)
        /\ dispatch "weighted" h task ps = _weighted_distribution h task ps
        /\ dispatch "adaptive" h task ps = _adaptive_distribution h task ps)
  /\ (forall n, n ∈ algorithms <-> known_algorithm n)
  /\ (forall (hq : heap Q) (lbq : LoadBalancer Q),
        name ∈ algorithms -> processors lbq <> [] ->
        ranking_defined name (processors lbq) ->
        let r := distribute_tasks hq (change_algorithm name lbq) in
        r.2 = Returns
        /\ task_queue r.1 = []
        /\ algorithm r.1 = name
        /\ length (processors r.1) = length (processors lbq)
        /\ (forall task, task ∈ task_queue lbq ->
              exists j p', processors r.1 !! j = Some p' /\ task ∈ tasks p')).
Proof.
  split; [reflexivity|]. do 7 (split; [reflexivity|]).
  split; [intros h task ps; repeat split|].
  split; [exact algorithms_known|].
  intros hq lbq Hname Hne Hsafe. cbv zeta.
  apply algorithms_known in Hname. unfold distribute_tasks.
  cbn [change_algorithm algorithm task_queue processors completed_tasks
       task_id_counter running paused].
  destruct (drain_queue_assigns name hq (task_queue lbq) (processors lbq)
              Hne Hname Hsafe) as (ps' & -> & Hall).
  cbn [fst snd task_queue algorithm processors].
  split; [reflexivity|]. split; [reflexivity|]. split; [reflexivity|].
  destruct (assigned_each_tasks hq _ _ _ Hall) as (_ & _ & _ & Hlen & _).
  split; [exact Hlen|].
  intros task Hin. eapply assigned_each_held; eassumption.
Qed.

End Selecting.

(** An instance: the weighted strategy is selected on a new balancer with
    two processors and three queued tasks. *)
Lemma weighted_is_selected :
  let s := inject 30 5 (inject 20 5 (inject 10 5 (∅, LoadBalancer_init (N:=Q) 2))) in
  let r := distribute_tasks s.1 (change_algorithm "weighted" s.2) in
  r.2 = Returns
  /\ task_queue r.1 = []
  /\ algorithm r.1 = "weighted"%string
  /\ length (processors r.1) = length (processors s.2)
  /\ (forall task, task ∈ task_queue s.2 ->
        exists j p', processors r.1 !! j = Some p' /\ task ∈ tasks p').
Proof.
  cbv zeta.
  apply (change_algorithm_stores_any_name "weighted" (LoadBalancer_init (N:=Q) 0)).
  - apply algorithms_known. unfold known_algorithm. tauto.
  - discriminate.
  - split; intros _; repeat constructor; simpl; intros Hz; discriminate Hz.
Defined.

(** ** Ticks *)

Section Ticks.
Context {N : Type} `{PyNum N}.

(** The remaining time a task has after one tick at the given speed, and
    whether that completes it. *)
Definition ticked (speed : N) (t : Task N) : Task N :=
  set_remaining_time t (psub (remaining_time t) speed).

Definition completes (speed : N) (t : Task N) : bool :=
  ple (remaining_time (ticked speed t)) (pint 0).

(** On a list without repetition the first loop of [process_tasks] ticks
    every task of the list once, leaves the others alone and collects the
    tasks of the list that complete. *)
Lemma advance_tasks_NoDup (speed : N) (ts : list task_ref) (h : heap N)
    (completed : list task_ref) :
  NoDup ts ->
  (forall r, r ∈ ts ->
     (advance_tasks speed ts h completed).1 !!! r = ticked speed (h !!! r))
  /\ (forall r, r ∉ ts -> (advance_tasks speed ts h completed).1 !!! r = h !!! r)
  /\ (forall r, r ∈ (advance_tasks speed ts h completed).2
        <-> r ∈ completed \/ (r ∈ ts /\ completes speed (h !!! r) = true)).
Proof.
  revert h completed. induction ts as [|t ts IH]; intros h completed Hnodup.
  - simpl. split; [|split].
    + intros r Hr. inversion Hr.
    + reflexivity.
    + intros r. split; [auto | intros [Hr|[Hr _]]; [exact Hr | inversion Hr]].
  - apply NoDup_cons in Hnodup as [Hfresh Hnodup]. simpl.
    set (h1 := <[t := set_remaining_time (h !!! t) (psub (remaining_time (h !!! t)) speed)]> h).
    set (c1 := if ple _ (pint 0) then completed ++ [t] else completed).
    destruct (IH h1 c1 Hnodup) as (Hin & Hout & Hdone).
    assert (Hother : forall r, r <> t -> h1 !!! r = h !!! r).
    { intros r Hr. unfold h1. apply lookup_total_insert_ne. congruence. }
    assert (Hself : h1 !!! t = ticked speed (h !!! t)).
    { unfold h1. apply lookup_total_insert_eq. }
    split; [|split].
    + intros r Hr. apply elem_of_cons in Hr as [->|Hr].
      * rewrite Hout by exact Hfresh. exact Hself.
      * rewrite Hin by exact Hr. rewrite Hother; [reflexivity|].
        intros ->. contradiction.
    + intros r Hr. apply not_elem_of_cons in Hr as [Hne Hr].
      rewrite Hout by exact Hr. apply Hother, Hne.
    + intros r. rewrite Hdone.
      assert (Hc1 : c1 = if completes speed (h !!! t) then completed ++ [t]
                         else completed) by reflexivity.
      rewrite Hc1. clear Hc1.
      assert (Hc : forall x, x ∈ ts ->
                completes speed (h1 !!! x) = completes speed (h !!! x)).
      { intros x Hx. rewrite Hother; [reflexivity|]. intros ->. contradiction. }
      rewrite elem_of_cons.
      destruct (completes speed (h !!! t)) eqn:Hct.
      * rewrite elem_of_app, list_elem_of_singleton. split.
        -- intros [[Hr| ->]|[Hr Hx]]; [tauto | tauto |].
           right. split; [right; exact Hr|]. rewrite <- Hc by exact Hr. exact Hx.
        -- intros [Hr|[[->|Hr] Hx]]; [tauto | tauto |].
           right. split; [exact Hr|]. rewrite Hc by exact Hr. exact Hx.
      * split.
        -- intros [Hr|[Hr Hx]]; [tauto|].
           right. split; [right; exact Hr|]. rewrite <- Hc by exact Hr. exact Hx.
        -- intros [Hr|[[->|Hr] Hx]]; [tauto | congruence |].
           right. split; [exact Hr|]. rewrite Hc by exact Hr. exact Hx.
Qed.

Lemma list_remove_first_NoDup (r : task_ref) (l : list task_ref) :
  NoDup l ->
  NoDup (list_remove_first r l)
  /\ (forall x, x ∈ list_remove_first r l <-> x ∈ l /\ x <> r).
Proof.
  induction l as [|y l IH]; intros Hnodup; simpl.
  - split; [constructor|]. intros x. split; [intros Hx; inversion Hx | tauto].
  - apply NoDup_cons in Hnodup as [Hfresh Hnodup].
    destruct (decide (r = y)) as [->|Hne].
    + split; [exact Hnodup|]. intros x. rewrite elem_of_cons. split.
      * intros Hx. split; [right; exact Hx|]. intros ->. contradiction.
      * intros [[->|Hx] Hxy]; [contradiction | exact Hx].
    + destruct (IH Hnodup) as [Hnd Hmem]. split.
      * apply NoDup_cons. split; [|exact Hnd]. rewrite Hmem. tauto.
      * intros x. rewrite !elem_of_cons, Hmem. split.
        -- intros [->|[Hx Hxr]]; [split; [left; reflexivity | congruence] | tauto].
        -- intros [[->|Hx] Hxr]; [left; reflexivity | right; tauto].
Qed.

Lemma remove_task_NoDup (h : heap N) (r : task_ref) (p : Processor N) :
  NoDup (tasks p) ->
  NoDup (tasks (remove_task h r p))
  /\ (forall x, x ∈ tasks (remove_task h r p) <-> x ∈ tasks p /\ x <> r)
  /\ processing_speed (remove_task h r p) = processing_speed p.
Proof.
  intros Hnodup. unfold remove_task. case_bool_decide as Hin; cbn [tasks processing_speed].
  - destruct (list_remove_first_NoDup r (tasks p) Hnodup) as [Hnd Hmem]. auto.
  - split; [exact Hnodup|]. split; [|reflexivity].
    intros x. split; [|tauto]. intros Hx. split; [exact Hx|].
    intros ->. contradiction.
Qed.

Lemma remove_tasks_NoDup (h : heap N) (done : list task_ref) (p : Processor N) :
  NoDup (tasks p) ->
  let p' := foldl (fun q task => remove_task h task q) p done in
  NoDup (tasks p')
  /\ (forall x, x ∈ tasks p' <-> x ∈ tasks p /\ x ∉ done)
  /\ processing_speed p' = processing_speed p.
Proof.
  revert p. induction done as [|r done IH]; intros p Hnodup; simpl.
  - split; [exact Hnodup|]. split; [|reflexivity].
    intros x. split; [|tauto]. intros Hx. split; [exact Hx|].
    intros Hnil. inversion Hnil.
  - destruct (remove_task_NoDup h r p Hnodup) as (Hnd & Hmem & Hspeed).
    destruct (IH (remove_task h r p) Hnd) as (Hnd' & Hmem' & Hspeed').
    split; [exact Hnd'|]. split; [|congruence].
    intros x. rewrite Hmem', Hmem, not_elem_of_cons. tauto.
Qed.

(** One call of [process_tasks] on a processor whose task list has no
    repetition: each of its tasks loses the processor's speed of remaining
    time; it is reported as completed and removed when that brings it to
    zero or below, and it stays otherwise. *)
Lemma process_tasks_step (h : heap N) (p : Processor N) :
  NoDup (tasks p) ->
  let r := process_tasks h p in
  NoDup (tasks r.1.2)
  /\ processing_speed r.1.2 = processing_speed p
  /\ (forall task, task ∈ tasks p ->
        r.1.1 !!! task = ticked (processing_speed p) (h !!! task)
        /\ (task ∈ r.2 <-> completes (processing_speed p) (h !!! task) = true)
        /\ (task ∈ tasks r.1.2 <-> completes (processing_speed p) (h !!! task) = false)).
Proof.
  intros Hnodup. unfold process_tasks.
  destruct (advance_tasks_NoDup (processing_speed p) (tasks p) h [] Hnodup)
    as (Hin & _ & Hdone).
  destruct (advance_tasks (processing_speed p) (tasks p) h []) as [h' done].
  cbn [fst snd] in *.
  destruct (remove_tasks_NoDup h' done p Hnodup) as (Hnd & Hmem & Hspeed).
  cbn [update_history tasks processing_speed].
  split; [exact Hnd|]. split; [exact Hspeed|].
  intros task Htask. split; [apply Hin, Htask|].
  assert (Hd : task ∈ done <-> completes (processing_speed p) (h !!! task) = true).
  { rewrite Hdone. split; [intros [Hnil|[_ Hc]]; [inversion Hnil | exact Hc] | auto]. }
  split; [exact Hd|].
  rewrite Hmem, Hd.
  destruct (completes (processing_speed p) (h !!! task)); split.
  - intros [_ Hno]. exfalso. apply Hno. reflexivity.
  - discriminate.
  - reflexivity.
  - intros _. split; [exact Htask | discriminate].
Qed.

(** The state after [n] calls of [process_tasks], with what the last call
    returned. *)
Fixpoint tick_n (n : nat) (h : heap N) (p : Processor N)
    : heap N * Processor N * list task_ref :=
  match n with
  | O => (h, p, [])
  | S n' => process_tasks (tick_n n' h p).1.1 (tick_n n' h p).1.2
  end.

End Ticks.

(** ** Completion after five ticks *)

Section Completion.
Open Scope Q_scope.

Lemma completes_Q (speed : Q) (t : Task Q) :
  completes speed t = true <-> remaining_time t - speed <= 0.
Proof. unfold completes, ticked. cbn. apply Qle_bool_iff. Qed.

Lemma completes_Q_false (speed : Q) (t : Task Q) :
  completes speed t = false <-> 0 < remaining_time t - speed.
Proof.
  rewrite <- not_true_iff_false, completes_Q. split.
  - intros Hn. apply Qnot_le_lt, Hn.
  - intros Hlt Hle. lra.
Qed.

Lemma ticked_remaining_time (speed : Q) (t : Task Q) :
  remaining_time (ticked speed t) = remaining_time t - speed.
Proof. reflexivity. Qed.

Lemma inject_Z_of_nat_S (n : nat) :
  inject_Z (Z.of_nat (S n)) == inject_Z (Z.of_nat n) + 1.
Proof. rewrite Nat2Z.inj_succ. unfold Z.succ. rewrite inject_Z_plus. reflexivity. Qed.

Lemma inject_Z_of_nat_le (n m : nat) :
  (n <= m)%nat -> inject_Z (Z.of_nat n) <= inject_Z (Z.of_nat m).
Proof. intros Hle. rewrite <- Zle_Qle. lia. Qed.

(** While fewer than five ticks have passed the task is still there. *)
Lemma ticks_before_completion (h : heap Q) (p : Processor Q) (task : task_ref)
    (n : nat) :
  NoDup (tasks p) -> task ∈ tasks p ->
  processing_speed p == 1 -> remaining_time (h !!! task) == 5 ->
  (n <= 4)%nat ->
  NoDup (tasks (tick_n n h p).1.2)
  /\ task ∈ tasks (tick_n n h p).1.2
  /\ processing_speed (tick_n n h p).1.2 == 1
  /\ remaining_time ((tick_n n h p).1.1 !!! task) == 5 - inject_Z (Z.of_nat n)
  /\ task ∉ (tick_n n h p).2.
Proof.
  intros Hnodup Htask Hspeed Htime. induction n as [|n IH]; intros Hn.
  - cbn [tick_n fst snd].
    split; [exact Hnodup|]. split; [exact Htask|]. split; [exact Hspeed|]. split.
    + rewrite Htime. change (inject_Z (Z.of_nat 0)) with 0. ring.
    + intros Hnil. inversion Hnil.
  - destruct IH as (Hnd & Hin & Hsp & Hrem & _); [lia|].
    cbn [tick_n].
    destruct (process_tasks_step (tick_n n h p).1.1 (tick_n n h p).1.2 Hnd)
      as (Hnd' & Hsp' & Hstep).
    destruct (Hstep task Hin) as (Hticked & Hdone & Hkept).
    pose proof (inject_Z_of_nat_S n) as HS.
    pose proof (inject_Z_of_nat_le (S n) 4 Hn) as Hle.
    change (inject_Z (Z.of_nat 4)) with 4 in Hle.
    assert (Hnew : remaining_time ((tick_n n h p).1.1 !!! task)
                   - processing_speed (tick_n n h p).1.2
                   == 5 - inject_Z (Z.of_nat (S n))).
    { rewrite Hrem, Hsp, HS. ring. }
    assert (Hnot : completes (processing_speed (tick_n n h p).1.2)
                     ((tick_n n h p).1.1 !!! task) = false).
    { apply completes_Q_false. rewrite Hnew. lra. }
    split; [exact Hnd'|]. split; [apply Hkept, Hnot|].
    split; [rewrite Hsp'; exact Hsp|].
    split; [rewrite Hticked, ticked_remaining_time; exact Hnew|].
    rewrite Hdone, Hnot. discriminate.
Qed.

(** C8.  A task with 5 units of time to run, held (once) by a processor of
    speed 1 that is ticked five times: the remaining time after [n] ticks
    is [5 - n]; the first four calls of [process_tasks] do not report the
    task and leave it with the processor; the fifth call reports it as
    completed and removes it. *)
Theorem task_completes_on_fifth_tick (h : heap Q) (p : Processor Q)
    (task : task_ref) :
  NoDup (tasks p) -> task ∈ tasks p ->
  processing_speed p == 1 -> remaining_time (h !!! task) == 5 ->
  (forall n, (n <= 5)%nat ->
     remaining_time ((tick_n n h p).1.1 !!! task) == 5 - inject_Z (Z.of_nat n))
  /\ (forall n, (1 <= n <= 4)%nat ->
        (task ∉ (tick_n n h p).2) /\ (task ∈ tasks (tick_n n h p).1.2))
  /\ task ∈ (tick_n 5 h p).2
  /\ task ∉ tasks (tick_n 5 h p).1.2.
Proof.
  intros Hnodup Htask Hspeed Htime.
  pose proof (fun n => ticks_before_completion h p task n Hnodup Htask Hspeed Htime)
    as Hbefore.
  destruct (Hbefore 4%nat) as (Hnd & Hin & Hsp & Hrem & _); [lia|].
  destruct (process_tasks_step (tick_n 4 h p).1.1 (tick_n 4 h p).1.2 Hnd)
    as (_ & _ & Hstep).
  destruct (Hstep task Hin) as (Hticked & Hdone & Hkept).
  change (inject_Z (Z.of_nat 4)) with 4 in Hrem.
  assert (Hnew : remaining_time ((tick_n 4 h p).1.1 !!! task)
                 - processing_speed (tick_n 4 h p).1.2 == 0).
  { rewrite Hrem, Hsp. ring. }
  assert (Hyes : completes (processing_speed (tick_n 4 h p).1.2)
                   ((tick_n 4 h p).1.1 !!! task) = true).
  { apply completes_Q. rewrite Hnew. lra. }
  split; [|split; [|split]].
  - intros n Hn. destruct (decide (n = 5%nat)) as [->|Hne].
    + change (tick_n 5 h p)
        with (process_tasks (tick_n 4 h p).1.1 (tick_n 4 h p).1.2).
      rewrite Hticked, ticked_remaining_time, Hnew. reflexivity.
    + apply Hbefore. lia.
  - intros n Hn. destruct (Hbefore n) as (_ & Hin' & _ & _ & Hout); [lia|]. auto.
  - change (tick_n 5 h p)
      with (process_tasks (tick_n 4 h p).1.1 (tick_n 4 h p).1.2).
    apply Hdone, Hyes.
  - change (tick_n 5 h p)
      with (process_tasks (tick_n 4 h p).1.1 (tick_n 4 h p).1.2).
    rewrite Hkept, Hyes. discriminate.
Qed.

(** A new task of execution time 5 on a new processor (speed 1.0). *)
Definition one_task_heap : heap Q := <[0%nat := Task_init 0 40 5]> ∅.

Definition one_task_processor : Processor Q :=
  add_task one_task_heap 0%nat (Processor_new 7).

Lemma fresh_task_completes_on_fifth_tick :
  (forall n, (n <= 5)%nat ->
     remaining_time ((tick_n n one_task_heap one_task_processor).1.1 !!! 0%nat)
     == 5 - inject_Z (Z.of_nat n))
  /\ (forall n, (1 <= n <= 4)%nat ->
        (0%nat ∉ (tick_n n one_task_heap one_task_processor).2)
        /\ (0%nat ∈ tasks (tick_n n one_task_heap one_task_processor).1.2))
  /\ 0%nat ∈ (tick_n 5 one_task_heap one_task_processor).2
  /\ 0%nat ∉ tasks (tick_n 5 one_task_heap one_task_processor).1.2.
Proof.
  apply (task_completes_on_fifth_tick one_task_heap one_task_processor 0%nat).
  - apply NoDup_singleton.
  - apply list_elem_of_singleton. reflexivity.
  - reflexivity.
  - reflexivity.
Defined.

(** The same run, computed: what the five calls return and the remaining
    times they leave. *)
Lemma five_ticks_computed :
  map (fun n => (tick_n n one_task_heap one_task_processor).2) [1; 2; 3; 4; 5]%nat
  = [[]; []; []; []; [0%nat]]
  /\ map (fun n => Qred (remaining_time
            ((tick_n n one_task_heap one_task_processor).1.1 !!! 0%nat)))
       [0; 1; 2; 3; 4; 5]%nat
     = [5; 4; 3; 2; 1; 0]
  /\ tasks (tick_n 5 one_task_heap one_task_processor).1.2 = [].
Proof. vm_compute. repeat split; reflexivity. Qed.

End Completion.

(** The same five ticks on binary64 numbers: 5.0 - 1.0 five times is exact. *)
Lemma five_ticks_computed_on_floats :
  let h : heap float := <[0%nat := Task_init 0 40%float 5%float]> ∅ in
  let p := add_task h 0%nat (Processor_new 7) in
  map (fun n => (tick_n n h p).2) [1; 2; 3; 4; 5]%nat
  = [[]; []; []; []; [0%nat]]
  /\ map (fun n => remaining_time ((tick_n n h p).1.1 !!! 0%nat))
       [0; 1; 2; 3; 4; 5]%nat
     = [5; 4; 3; 2; 1; 0]%float
  /\ tasks (tick_n 5 h p).1.2 = [].
Proof. vm_compute. repeat split; reflexivity. Qed.

(** ** Further properties of the strategies and of a tick *)

Section FirstFit.
Context {N : Type} `{PyNum N}.

(** Whether the processor has room for the task, as [_round_robin] tests it. *)
Definition has_room (h : heap N) (task : task_ref) (p : Processor N) : bool :=
  ple (load (h !!! task)) (get_available_capacity p).

Lemma round_robin_scan_first (h : heap N) (task : task_ref) (ps : list (Processor N))
    (i : nat) (p : Processor N) :
  ps !! i = Some p -> has_room h task p = true ->
  (forall j q, (j < i)%nat -> ps !! j = Some q -> has_room h task q = false) ->
  round_robin_scan h task ps = Some (alter (add_task h task) i ps).
Proof.
  revert i. induction ps as [|p0 ps IH]; intros i Hi Hroom Hbefore.
  - discriminate.
  - destruct i as [|i]; simpl in Hi.
    + inversion Hi; subst p0. simpl. fold (has_room h task p).
      rewrite Hroom. reflexivity.
    + simpl. fold (has_room h task p0).
      rewrite (Hbefore 0%nat p0) by (simpl; auto with lia).
      rewrite (IH i Hi Hroom).
      * reflexivity.
      * intros j q Hj Hq. apply (Hbefore (S j) q); [lia | exact Hq].
Qed.

Lemma round_robin_scan_none (h : heap N) (task : task_ref) (ps : list (Processor N)) :
  Forall (fun p => has_room h task p = false) ps ->
  round_robin_scan h task ps = None.
Proof.
  induction 1 as [|p ps Hp _ IH]; simpl; [reflexivity|].
  fold (has_room h task p). rewrite Hp, IH. reflexivity.
Qed.

(** The strategy called round robin is first fit: the task goes to the
    first processor, in list order, that has room for it, and to the
    processor at index 0 when none has.  The processor it goes to has the
    task as the new last entry of its task list and the task's load added
    to its current load; no other processor changes.  Without processors
    nothing happens. *)
Theorem round_robin_is_first_fit (h : heap N) (task : task_ref)
    (ps : list (Processor N)) :
  (forall i p,
     ps !! i = Some p -> has_room h task p = true ->
     (forall j q, (j < i)%nat -> ps !! j = Some q -> has_room h task q = false) ->
     _round_robin h task ps = alter (add_task h task) i ps
     /\ lands_on h task i ps (_round_robin h task ps))
  /\ (Forall (fun p => has_room h task p = false) ps ->
      _round_robin h task ps = alter (add_task h task) 0%nat ps
      /\ (ps <> [] -> lands_on h task 0%nat ps (_round_robin h task ps))
      /\ (ps = [] -> _round_robin h task ps = [])).
Proof.
  split.
  - intros i p Hi Hroom Hbefore.
    assert (Hres : _round_robin h task ps = alter (add_task h task) i ps).
    { unfold _round_robin.
      rewrite (round_robin_scan_first h task ps i p Hi Hroom Hbefore).
      reflexivity. }
    split; [exact Hres|]. rewrite Hres.
    apply alter_add_task_lands. eapply lookup_lt_Some, Hi.
  - intros Hnone.
    assert (Hres : _round_robin h task ps = alter (add_task h task) 0%nat ps).
    { unfold _round_robin. rewrite (round_robin_scan_none h task ps Hnone).
      destruct ps; reflexivity. }
    split; [exact Hres|]. split.
    + intros Hne. rewrite Hres. apply alter_add_task_lands.
      destruct ps; [contradiction | simpl; lia].
    + intros ->. reflexivity.
Qed.

(** A tick of a processor without tasks changes nothing but the history,
    which gets one sample, and completes nothing. *)
Theorem process_tasks_idle (h : heap N) (p : Processor N) :
  tasks p = [] ->
  process_tasks h p = (h, update_history p, [])
  /\ current_load (process_tasks h p).1.2 = current_load p
  /\ ((length (history p) < 100)%nat ->
      history (process_tasks h p).1.2 = history p ++ [current_load p]).
Proof.
  intros Hidle. assert (Heq : process_tasks h p = (h, update_history p, [])).
  { unfold process_tasks. rewrite Hidle. reflexivity. }
  rewrite Heq. cbn [fst snd].
  split; [reflexivity|]. split; [reflexivity|]. intros Hshort.
  rewrite update_history_last, length_app. simpl length.
  replace (length (history p) + 1 - 100)%nat with 0%nat by lia.
  apply drop_0.
Qed.

End FirstFit.

Section MoreScenarios.
Open Scope Q_scope.

Lemma process_tasks_idle_new_processor :
  process_tasks (N:=Q) ∅ (Processor_new 0) = (∅, update_history (Processor_new 0), [])
  /\ current_load (process_tasks (N:=Q) ∅ (Processor_new 0)).1.2
     = current_load (Processor_new (N:=Q) 0)
  /\ ((length (history (Processor_new (N:=Q) 0)) < 100)%nat ->
      history (process_tasks (N:=Q) ∅ (Processor_new 0)).1.2
      = history (Processor_new 0) ++ [current_load (Processor_new 0)]).
Proof. apply (process_tasks_idle ∅ (Processor_new 0)). reflexivity. Defined.

End MoreScenarios.

(** * The rest of the balancer

    The parts of [processLoaded.py] that the sections above do not reach:
    what a tick does to a whole task list, the creation of tasks, whole
    cycles, the task generator, the simulation loop and the handlers of the
    application that act on the balancer. *)

(** ** A tick splits the task list *)

Section TickPartition.
Context {N : Type} `{PyNum N}.

Lemma completes_unchanged (speed : N) (h h' : heap N) (ts : list task_ref) :
  (forall r, r ∈ ts -> h' !!! r = h !!! r) ->
  filter (fun r => completes speed (h' !!! r) = true) ts
  = filter (fun r => completes speed (h !!! r) = true) ts.
Proof.
  induction ts as [|t ts IH]; intros Hsame; [reflexivity|].
  rewrite !filter_cons, (Hsame t) by left.
  rewrite IH; [reflexivity|]. intros r Hr. apply Hsame. right. exact Hr.
Qed.

(** The tasks collected by the first loop, as a list: the ones of the
    list that complete, in the order of the list. *)
Lemma advance_tasks_completed (speed : N) (ts : list task_ref) (h : heap N)
    (completed : list task_ref) :
  NoDup ts ->
  (advance_tasks speed ts h completed).2
  = completed ++ filter (fun r => completes speed (h !!! r) = true) ts.
Proof.
  revert h completed. induction ts as [|t ts IH]; intros h completed Hnodup.
  - simpl. rewrite app_nil_r. reflexivity.
  - apply NoDup_cons in Hnodup as [Hfresh Hnodup]. simpl.
    rewrite IH by exact Hnodup.
    rewrite (completes_unchanged speed h); cycle 1.
    { intros r Hr. apply lookup_total_insert_ne. intros ->. contradiction. }
    rewrite filter_cons.
    change (ple (psub (remaining_time (h !!! t)) speed) (pint 0))
      with (completes speed (h !!! t)).
    destruct (completes speed (h !!! t)) eqn:Hc.
    + rewrite decide_True by reflexivity. rewrite <- app_assoc. reflexivity.
    + rewrite decide_False by discriminate. reflexivity.
Qed.

Lemma filter_all (P : task_ref -> Prop) `{forall x, Decision (P x)}
    (l : list task_ref) :
  (forall x, x ∈ l -> P x) -> filter P l = l.
Proof.
  induction l as [|y l IH]; intros Hall; [reflexivity|].
  rewrite filter_cons_True by (apply Hall; left).
  f_equal. apply IH. intros x Hx. apply Hall. right. exact Hx.
Qed.

Lemma filter_iff_in (P1 P2 : task_ref -> Prop)
    `{forall x, Decision (P1 x)} `{forall x, Decision (P2 x)} (l : list task_ref) :
  (forall x, x ∈ l -> P1 x <-> P2 x) -> filter P1 l = filter P2 l.
Proof.
  induction l as [|y l IH]; intros Hiff; [reflexivity|].
  rewrite !filter_cons, IH by (intros x Hx; apply Hiff; right; exact Hx).
  destruct (decide (P1 y)) as [Hy|Hy], (decide (P2 y)) as [Hy'|Hy'];
    try reflexivity; exfalso; apply (Hiff y) in Hy || apply (Hiff y) in Hy';
    try left; tauto.
Qed.

Lemma list_remove_first_filter (r : task_ref) (l : list task_ref) :
  NoDup l -> list_remove_first r l = filter (fun x => x <> r) l.
Proof.
  induction l as [|y l IH]; intros Hnodup; [reflexivity|].
  apply NoDup_cons in Hnodup as [Hfresh Hnodup]. simpl.
  destruct (decide (r = y)) as [->|Hne].
  - rewrite filter_cons_False by tauto.
    symmetry. apply filter_all. intros x Hx ->. contradiction.
  - rewrite filter_cons_True by congruence. f_equal. apply IH, Hnodup.
Qed.

Lemma remove_task_tasks (h : heap N) (r : task_ref) (p : Processor N) :
  NoDup (tasks p) ->
  tasks (remove_task h r p) = filter (fun x => x <> r) (tasks p).
Proof.
  intros Hnodup. unfold remove_task. case_bool_decide as Hin; cbn [tasks].
  - apply list_remove_first_filter, Hnodup.
  - symmetry. apply filter_all. intros x Hx ->. contradiction.
Qed.

Lemma remove_tasks_tasks (h : heap N) (done : list task_ref) (p : Processor N) :
  NoDup (tasks p) ->
  tasks (foldl (fun q task => remove_task h task q) p done)
  = filter (fun x => x ∉ done) (tasks p).
Proof.
  revert p. induction done as [|r done IH]; intros p Hnodup; simpl.
  - symmetry. apply filter_all. intros x _ Hnil. inversion Hnil.
  - rewrite IH by (apply (remove_task_NoDup h r p Hnodup)).
    rewrite remove_task_tasks by exact Hnodup.
    rewrite list_filter_filter. apply list_filter_iff.
    intros x. rewrite not_elem_of_cons. tauto.
Qed.

Lemma process_tasks_split (h : heap N) (p : Processor N) :
  NoDup (tasks p) ->
  let r := process_tasks h p in
  let done := fun task => completes (processing_speed p) (h !!! task) = true in
  r.2 = filter done (tasks p)
  /\ tasks r.1.2 = filter (fun task => ~ done task) (tasks p)
  /\ (length (tasks r.1.2) + length r.2 = length (tasks p))%nat
  /\ (forall task, task ∈ tasks p ->
        r.1.1 !!! task = ticked (processing_speed p) (h !!! task))
  /\ (forall task, task ∉ tasks p -> r.1.1 !!! task = h !!! task).
Proof.
  intros Hnodup. cbv zeta. unfold process_tasks.
  pose proof (advance_tasks_completed (processing_speed p) (tasks p) h [] Hnodup)
    as Hdone.
  destruct (advance_tasks_NoDup (processing_speed p) (tasks p) h [] Hnodup)
    as (Hin & Hout & _).
  destruct (advance_tasks (processing_speed p) (tasks p) h []) as [h' done].
  cbn [fst snd] in *. rewrite app_nil_l in Hdone. subst done.
  cbn [update_history tasks].
  assert (Hrest : tasks (foldl (fun q task => remove_task h' task q) p
                    (filter (fun r => completes (processing_speed p) (h !!! r) = true)
                       (tasks p)))
                  = filter (fun task => ~ completes (processing_speed p) (h !!! task) = true)
                      (tasks p)).
  { rewrite remove_tasks_tasks by exact Hnodup. apply filter_iff_in.
    intros x Hx. rewrite list_elem_of_filter. tauto. }
  split; [reflexivity|]. split; [exact Hrest|]. split; [|split; [exact Hin | exact Hout]].
  rewrite Hrest. rewrite Nat.add_comm.
  pose proof (filter_app_complement
                (fun r => completes (processing_speed p) (h !!! r) = true) (tasks p))
    as Hperm.
  apply Permutation_length in Hperm. rewrite length_app in Hperm. exact Hperm.
Qed.

(** One call of [process_tasks], as a whole: the tasks of the processor
    that complete are returned in the order in which the processor held
    them, the others stay with it in their order, every task of the
    processor has lost the processor's speed of remaining time, and no
    other task of the store is touched. *)
Theorem process_tasks_partitions (h : heap N) (p : Processor N) :
  NoDup (tasks p) ->
  let r := process_tasks h p in
  let done := fun task => completes (processing_speed p) (h !!! task) = true in
  r.2 = filter done (tasks p)
  /\ tasks r.1.2 = filter (fun task => ~ done task) (tasks p)
  /\ (length (tasks r.1.2) + length r.2 = length (tasks p))%nat
  /\ (forall task, task ∈ tasks p ->
        r.1.1 !!! task = ticked (processing_speed p) (h !!! task))
  /\ (forall task, task ∉ tasks p -> r.1.1 !!! task = h !!! task).
Proof. exact (process_tasks_split h p). Qed.

End TickPartition.

(** A processor with three tasks of which the second completes. *)
Lemma process_tasks_partitions_example :
  let h : heap Q :=
    <[2%nat := Task_init 2 (inject_Z 10) (inject_Z 3)]>
      (<[1%nat := Task_init 1 (inject_Z 20) (inject_Z 1)]>
         (<[0%nat := Task_init 0 (inject_Z 30) (inject_Z 2)]> ∅)) in
  let p := add_task h 2%nat (add_task h 1%nat (add_task h 0%nat (Processor_new 0))) in
  let r := process_tasks h p in
  let done := fun task => completes (processing_speed p) (h !!! task) = true in
  r.2 = filter done (tasks p)
  /\ tasks r.1.2 = filter (fun task => ~ done task) (tasks p)
  /\ (length (tasks r.1.2) + length r.2 = length (tasks p))%nat
  /\ (forall task, task ∈ tasks p ->
        r.1.1 !!! task = ticked (processing_speed p) (h !!! task))
  /\ (forall task, task ∉ tasks p -> r.1.1 !!! task = h !!! task).
Proof.
  cbv zeta. apply process_tasks_partitions.
  exact (NoDup_seq 0 3).
Defined.

(** ** The handlers of the application and the runs of the balancer *)

Section System.
Context {N : Type} `{PyNum N}.

(** [update_processor_speed]: the speed control of the processor at
    position [i] writes its value to that processor. *)
Definition update_processor_speed (i : nat) (v : N) (lb : LoadBalancer N)
    : LoadBalancer N :=
  mkLoadBalancer (alter (set_processing_speed v) i (processors lb))
    (task_queue lb) (completed_tasks lb) (task_id_counter lb)
    (algorithm lb) (running lb) (paused lb).

(** [toggle_pause] *)
Definition toggle_pause (lb : LoadBalancer N) : LoadBalancer N :=
  mkLoadBalancer (processors lb) (task_queue lb) (completed_tasks lb)
    (task_id_counter lb) (algorithm lb) (running lb) (negb (paused lb)).

(** The balancer that [reset_simulation] creates: as many new processors
    as there were, and the algorithm that is selected. *)
Definition reset_simulation (name : string) (lb : LoadBalancer N) : LoadBalancer N :=
  change_algorithm name (LoadBalancer_init (Z.of_nat (length (processors lb)))).

(** What the simulation loop and the handlers do to a balancer and the
    task store, one call at a time. *)
Inductive sys_op : Type :=
  | SysAddTask (ld et : N)
  | SysDistribute
  | SysCycle
  | SysChangeAlgorithm (name : string)
  | SysChangeProcessors (num : Z)
  | SysProcessorSpeed (i : nat) (v : N)
  | SysTogglePause
  | SysReset (name : string).

Definition apply_sys_op (op : sys_op) (s : heap N * LoadBalancer N)
    : heap N * LoadBalancer N :=
  match op with
  | SysAddTask ld et => lb_add_task s.1 s.2 ld et
  | SysDistribute => (s.1, (distribute_tasks s.1 s.2).1)
  | SysCycle => (process_cycle s.1 s.2).1
  | SysChangeAlgorithm name => (s.1, change_algorithm name s.2)
  | SysChangeProcessors num => (s.1, change_processors num s.2)
  | SysProcessorSpeed i v => (s.1, update_processor_speed i v s.2)
  | SysTogglePause => (s.1, toggle_pause s.2)
  | SysReset name => (s.1, reset_simulation name s.2)
  end.

Fixpoint run_sys (ops : list sys_op) (s : heap N * LoadBalancer N)
    : heap N * LoadBalancer N :=
  match ops with
  | [] => s
  | op :: ops' => run_sys ops' (apply_sys_op op s)
  end.

(** One pass of the body of the [while] loop of [run_simulation], with the
    list that [task_generator()] returned.  The second component tells
    whether the pass ended normally; an exception ends the loop. *)
Definition simulation_iteration (new_tasks : list (N * N))
    (s : heap N * LoadBalancer N) : heap N * LoadBalancer N * outcome :=
  if paused s.2 then (s, Returns)
  else
    let s1 := foldl (fun s' le => lb_add_task s'.1 s'.2 le.1 le.2) s new_tasks in
    let d := distribute_tasks s1.1 s1.2 in
    match d.2 with
    | Raises_ZeroDivisionError => (s1.1, d.1, Raises_ZeroDivisionError)
    | Returns => ((process_cycle s1.1 d.1).1, Returns)
    end.

(** All task references that the balancer holds: the queue, then the task
    lists of the processors. *)
Definition placed (lb : LoadBalancer N) : list task_ref :=
  task_queue lb ++ concat (map tasks (processors lb)).

(** What distribution and ticks leave alone in a processor. *)
Definition same_frame (p q : Processor N) : Prop :=
  proc_id q = proc_id p /\ capacity q = capacity p
  /\ processing_speed q = processing_speed p.

End System.

(** ** What distribution does to the processor list *)

Section DistributionFacts.
Context {N : Type} `{PyNum N}.

Lemma alter_beyond {A} (f : A -> A) (i : nat) (l : list A) :
  (length l <= i)%nat -> alter f i l = l.
Proof.
  revert i. induction l as [|x l IH]; intros i Hi; [reflexivity|].
  destruct i as [|i]; simpl in Hi; [lia|]. simpl. f_equal. apply IH. lia.
Qed.

Lemma fmap_alter_keep {A B} (f : A -> B) (g : A -> A) (i : nat) (l : list A) :
  (forall x, f (g x) = f x) -> map f (alter g i l) = map f l.
Proof.
  intros Hkeep. revert i. induction l as [|x l IH]; intros i; [reflexivity|].
  destruct i as [|i]; simpl; [rewrite Hkeep; reflexivity|].
  f_equal. apply IH.
Qed.

(** The task goes to the end of the task list of processor [i]. *)
Lemma tasks_alter_add_task (h : heap N) (task : task_ref) (i : nat)
    (ps : list (Processor N)) :
  (i < length ps)%nat ->
  concat (map tasks (alter (add_task h task) i ps))
  ≡ₚ task :: concat (map tasks ps).
Proof.
  revert i. induction ps as [|p ps IH]; intros i Hi; simpl in Hi; [lia|].
  destruct i as [|i]; simpl.
  - rewrite <- app_assoc. simpl.
    rewrite <- Permutation_middle. reflexivity.
  - rewrite (IH i) by lia. rewrite <- Permutation_middle. reflexivity.
Qed.

Lemma assign_to_first_cases (h : heap N) (task : task_ref)
    (sorted_ps : list (N * (nat * Processor N))) (ps : list (Processor N)) :
  assign_to_first h task sorted_ps ps = ps
  \/ exists i, (i < length ps)%nat
       /\ assign_to_first h task sorted_ps ps = alter (add_task h task) i ps.
Proof.
  destruct sorted_ps as [|[k [i p]] rest]; [left; reflexivity|].
  rewrite (assign_to_first_head h task _ ps k i p rest eq_refl).
  destruct (decide (i < length ps)%nat) as [Hi|Hi].
  - right. exists i. auto.
  - left. apply alter_beyond. lia.
Qed.

(** A strategy that returns has either done nothing or added the task to
    exactly one processor. *)
Lemma dispatch_cases (alg : string) (h : heap N) (task : task_ref)
    (ps ps' : list (Processor N)) :
  dispatch alg h task ps = Some ps' ->
  ps' = ps
  \/ exists i, (i < length ps)%nat /\ ps' = alter (add_task h task) i ps.
Proof.
  unfold dispatch.
  destruct (String.eqb alg "round_robin").
  { intros Heq. inversion Heq. destruct ps as [|p0 rest]; [left; reflexivity|].
    right. apply round_robin_assigns. discriminate. }
  destruct (String.eqb alg "least_loaded").
  { intros Heq. inversion Heq. apply assign_to_first_cases. }
  destruct (String.eqb alg "weighted").
  { unfold _weighted_distribution.
    destruct (mapM _ (enumerate ps)) as [keyed|]; simpl; [|discriminate].
    intros Heq. inversion Heq. apply assign_to_first_cases. }
  destruct (String.eqb alg "adaptive").
  { unfold _adaptive_distribution.
    destruct (mapM _ (enumerate ps)) as [keyed|]; simpl; [|discriminate].
    intros Heq. inversion Heq. apply assign_to_first_cases. }
  intros Heq. inversion Heq. left. reflexivity.
Qed.

(** Whatever [add_task] on one processor keeps, a distribution pass keeps. *)
Lemma drain_queue_preserves (R : list (Processor N) -> Prop) (alg : string)
    (h : heap N) (queue : list task_ref) (ps : list (Processor N)) :
  (forall task i ps0, R ps0 -> R (alter (add_task h task) i ps0)) ->
  R ps -> R (drain_queue alg h queue ps).1.2.
Proof.
  intros Hstep. revert ps. induction queue as [|task queue IH]; intros ps HR; simpl.
  - exact HR.
  - destruct (dispatch alg h task ps) as [ps1|] eqn:Hd; [|exact HR].
    apply IH. apply dispatch_cases in Hd as [->|(i & _ & ->)]; [exact HR|].
    apply Hstep, HR.
Qed.

(** A pass creates no task reference and copies none: what the queue and
    the processors hold afterwards was held before, as often at least. *)
Lemma drain_queue_placed (alg : string) (h : heap N) (queue : list task_ref)
    (ps : list (Processor N)) :
  (drain_queue alg h queue ps).1.1
    ++ concat (map tasks (drain_queue alg h queue ps).1.2)
  ⊆+ queue ++ concat (map tasks ps).
Proof.
  revert ps. induction queue as [|task queue IH]; intros ps; simpl.
  - reflexivity.
  - destruct (dispatch alg h task ps) as [ps1|] eqn:Hd.
    + etransitivity; [apply IH|].
      apply dispatch_cases in Hd as [->|(i & Hi & ->)].
      * apply submseteq_cons.  reflexivity.
      * rewrite (tasks_alter_add_task h task i ps Hi).
        rewrite <- Permutation_middle. reflexivity.
    + simpl. apply submseteq_cons. reflexivity.
Qed.

(** How a pass ends when a ranking divides by zero: the tasks before the
    failing one went through their strategy, the failing task is off the
    queue and with no processor, the tasks behind it are still queued. *)
Theorem distribution_stops_at_the_failing_task (alg : string) (h : heap N)
    (queue rest : list task_ref) (ps ps' : list (Processor N)) :
  drain_queue alg h queue ps = (rest, ps', Raises_ZeroDivisionError) ->
  exists before task,
    queue = before ++ task :: rest
    /\ drain_queue alg h before ps = ([], ps', Returns)
    /\ dispatch alg h task ps' = None.
Proof.
  revert ps. induction queue as [|t queue IH]; intros ps Hdrain; simpl in Hdrain.
  - discriminate.
  - destruct (dispatch alg h t ps) as [ps1|] eqn:Hd.
    + destruct (IH ps1 Hdrain) as (before & task & -> & Hbefore & Hfail).
      exists (t :: before), task. split; [reflexivity|].
      split; [|exact Hfail]. simpl. rewrite Hd. exact Hbefore.
    + inversion Hdrain; subst. exists [], t. auto.
Qed.

(** A pass that returns has emptied the queue. *)
Lemma drain_queue_returns (alg : string) (h : heap N) (queue : list task_ref)
    (ps : list (Processor N)) :
  (drain_queue alg h queue ps).2 = Returns ->
  (drain_queue alg h queue ps).1.1 = [].
Proof.
  revert ps. induction queue as [|t queue IH]; intros ps; simpl; [reflexivity|].
  destruct (dispatch alg h t ps) as [ps1|]; [apply IH | discriminate].
Qed.

End DistributionFacts.

(** ** What a cycle does to the processors and to the store *)

Section CycleFacts.
Context {N : Type} `{PyNum N}.

Lemma update_history_bound (p : Processor N) :
  (length (history (update_history p)) <= 100)%nat.
Proof. rewrite update_history_last, length_drop. lia. Qed.

Lemma list_remove_first_sublist (r : task_ref) (l : list task_ref) :
  list_remove_first r l `sublist_of` l.
Proof.
  induction l as [|y l IH]; simpl; [reflexivity|].
  destruct (decide (r = y)).
  - apply sublist_cons. reflexivity.
  - apply sublist_skip, IH.
Qed.

Lemma remove_task_sublist (h : heap N) (r : task_ref) (p : Processor N) :
  tasks (remove_task h r p) `sublist_of` tasks p.
Proof.
  unfold remove_task. case_bool_decide; cbn [tasks];
    [apply list_remove_first_sublist | reflexivity].
Qed.

Lemma remove_tasks_sublist (h : heap N) (done : list task_ref) (p : Processor N) :
  tasks (foldl (fun q task => remove_task h task q) p done) `sublist_of` tasks p.
Proof.
  revert p. induction done as [|r done IH]; intros p; simpl; [reflexivity|].
  etransitivity; [apply IH | apply remove_task_sublist].
Qed.

Lemma remove_tasks_frame (h : heap N) (done : list task_ref) (p : Processor N) :
  same_frame p (foldl (fun q task => remove_task h task q) p done).
Proof.
  revert p. induction done as [|r done IH]; intros p; simpl.
  - repeat split.
  - destruct (IH (remove_task h r p)) as (Hid & Hcap & Hspeed).
    destruct (remove_task_frame h r p) as (Hid' & Hcap' & Hspeed').
    repeat split; congruence.
Qed.

Lemma advance_tasks_dom (speed : N) (ts : list task_ref) (h : heap N)
    (completed : list task_ref) (x : task_ref) :
  is_Some (h !! x) -> is_Some ((advance_tasks speed ts h completed).1 !! x).
Proof.
  revert h completed. induction ts as [|t ts IH]; intros h completed Hx; simpl.
  - exact Hx.
  - apply IH. destruct (decide (t = x)) as [->|Hne].
    + rewrite lookup_insert_eq. eauto.
    + rewrite lookup_insert_ne by exact Hne. exact Hx.
Qed.

(** The first loop writes remaining times only: ids, loads and execution
    times of all tasks stay. *)
Lemma advance_tasks_fields (speed : N) (ts : list task_ref) (h : heap N)
    (completed : list task_ref) (x : task_ref) :
  let t' := (advance_tasks speed ts h completed).1 !!! x in
  task_id t' = task_id (h !!! x) /\ load t' = load (h !!! x)
  /\ execution_time t' = execution_time (h !!! x).
Proof.
  revert h completed. induction ts as [|t ts IH]; intros h completed; simpl.
  - auto.
  - destruct (IH (<[t := set_remaining_time (h !!! t)
                          (psub (remaining_time (h !!! t)) speed)]> h)
                (if ple (psub (remaining_time (h !!! t)) speed) (pint 0)
                 then completed ++ [t] else completed)) as (Hid & Hload & Hexec).
    simpl in Hid, Hload, Hexec. rewrite Hid, Hload, Hexec.
    destruct (decide (t = x)) as [->|Hne].
    + rewrite lookup_total_insert_eq. auto.
    + rewrite lookup_total_insert_ne by exact Hne. auto.
Qed.

(** What [process_cycle] does with one processor. *)
Lemma cycle_processor_spec (h : heap N) (p : Processor N) :
  let r := cycle_processor h p in
  same_frame p r.1.2
  /\ tasks r.1.2 `sublist_of` tasks p
  /\ (length (history r.1.2) <= 100)%nat
  /\ (forall x, is_Some (h !! x) -> is_Some (r.1.1 !! x))
  /\ (forall x, load (r.1.1 !!! x) = load (h !!! x))
  /\ (NoDup (tasks p) ->
      (length (tasks r.1.2) + length r.2 = length (tasks p))%nat).
Proof.
  cbv zeta. unfold cycle_processor.
  set (p0 := match tasks p with [] => update_history p | _ :: _ => p end).
  assert (Hp0 : tasks p0 = tasks p /\ same_frame p p0).
  { unfold p0. destruct (tasks p) eqn:Ht; [|rewrite Ht]; repeat split.
    simpl. exact Ht. }
  destruct Hp0 as [Htasks Hframe]. split; [|split; [|split; [|split; [|split]]]].
  - unfold process_tasks.
    destruct (advance_tasks (processing_speed p0) (tasks p0) h []) as [h' done].
    cbn [fst snd]. destruct (remove_tasks_frame h' done p0) as (Hid & Hcap & Hspeed).
    destruct Hframe as (Hid0 & Hcap0 & Hspeed0).
    unfold same_frame. cbn [update_history proc_id capacity processing_speed].
    repeat split; congruence.
  - rewrite <- Htasks. unfold process_tasks.
    destruct (advance_tasks (processing_speed p0) (tasks p0) h []) as [h' done].
    cbn [fst snd update_history tasks]. apply remove_tasks_sublist.
  - unfold process_tasks.
    destruct (advance_tasks (processing_speed p0) (tasks p0) h []) as [h' done].
    cbn [fst snd]. apply update_history_bound.
  - intros x Hx. unfold process_tasks.
    pose proof (advance_tasks_dom (processing_speed p0) (tasks p0) h [] x Hx) as Hdom.
    destruct (advance_tasks (processing_speed p0) (tasks p0) h []) as [h' done].
    exact Hdom.
  - intros x. unfold process_tasks.
    pose proof (advance_tasks_load (processing_speed p0) (tasks p0) h [] x) as Hload.
    destruct (advance_tasks (processing_speed p0) (tasks p0) h []) as [h' done].
    exact Hload.
  - intros Hnodup. rewrite <- Htasks in Hnodup |- *.
    apply (process_tasks_split h p0 Hnodup).
Qed.

(** What [process_cycle] does with the processor list. *)
Lemma cycle_processors_spec (h : heap N) (ps : list (Processor N))
    (completed : list task_ref) :
  let r := cycle_processors h ps completed in
  Forall2 (fun p p' => same_frame p p' /\ tasks p' `sublist_of` tasks p
                       /\ (length (history p') <= 100)%nat) ps r.1.2
  /\ (forall x, is_Some (h !! x) -> is_Some (r.1.1 !! x))
  /\ (forall x, load (r.1.1 !!! x) = load (h !!! x))
  /\ (exists finished, r.2 = completed ++ finished
        /\ (Forall (fun p => NoDup (tasks p)) ps ->
            (length (concat (map tasks r.1.2)) + length finished
             = length (concat (map tasks ps)))%nat)).
Proof.
  revert h completed. induction ps as [|p ps IH]; intros h completed.
  - simpl. split; [constructor|]. split; [auto|]. split; [auto|].
    exists []. rewrite app_nil_r. auto.
  - cbv zeta. cbn [cycle_processors].
    pose proof (cycle_processor_spec h p) as Hp. cbv zeta in Hp.
    destruct (cycle_processor h p) as [[h1 p'] finished1].
    cbn [fst snd] in Hp.
    destruct Hp as (Hframe & Hsub & Hhist & Hdom & Hload & Hcount).
    pose proof (IH h1 (completed ++ finished1)) as Hps. cbv zeta in Hps.
    destruct (cycle_processors h1 ps (completed ++ finished1)) as [[h2 ps''] completed'].
    cbn [fst snd] in Hps |- *.
    destruct Hps as (Hall & Hdom' & Hload' & finished & -> & Hcount').
    split; [constructor; auto|]. split; [auto|].
    split; [intros x; rewrite Hload'; apply Hload|].
    exists (finished1 ++ finished). split; [rewrite app_assoc; reflexivity|].
    intros Hnodup. apply Forall_cons in Hnodup as [Hnd Hnodup].
    specialize (Hcount Hnd). specialize (Hcount' Hnodup).
    simpl. rewrite !length_app. lia.
Qed.

(** One cycle, seen from outside: the queue, the counter of task ids, the
    algorithm and the flags are as before; there are as many processors,
    each with its id, capacity and speed, with no task that it did not
    have, and with at most 100 samples; the counter of completed tasks
    has grown by the number of tasks that the cycle returns. *)
Theorem process_cycle_frame (h : heap N) (lb : LoadBalancer N) :
  let r := process_cycle h lb in
  task_queue r.1.2 = task_queue lb
  /\ task_id_counter r.1.2 = task_id_counter lb
  /\ algorithm r.1.2 = algorithm lb
  /\ running r.1.2 = running lb /\ paused r.1.2 = paused lb
  /\ completed_tasks r.1.2 = completed_tasks lb + Z.of_nat (length r.2)
  /\ completed_tasks lb <= completed_tasks r.1.2
  /\ Forall2 (fun p p' => same_frame p p' /\ tasks p' `sublist_of` tasks p
                          /\ (length (history p') <= 100)%nat)
       (processors lb) (processors r.1.2).
Proof.
  cbv zeta. unfold process_cycle.
  pose proof (cycle_processors_spec h (processors lb) []) as Hspec. cbv zeta in Hspec.
  destruct (cycle_processors h (processors lb) []) as [[h' ps] completed].
  cbn [fst snd] in Hspec |- *. cbn. destruct Hspec as (Hall & _).
  repeat split; try reflexivity; [lia | exact Hall].
Qed.

End CycleFacts.

(** ** Invariants of every run *)

Section Invariants.
Context {N : Type} `{PyNum N}.

(** - every task reference that the balancer holds is in the store;
    - no reference is held twice: not twice in the queue, not by the queue
      and a processor, not by two processors, not twice by one;
    - no history is longer than 100;
    - the ids of the processors are their positions. *)
Definition sys_wf (s : heap N * LoadBalancer N) : Prop :=
  (forall r, r ∈ placed s.2 -> is_Some (s.1 !! r))
  /\ NoDup (placed s.2)
  /\ Forall (fun p => (length (history p) <= 100)%nat) (processors s.2)
  /\ ids_sequential s.2.

Lemma distribute_tasks_fields (h : heap N) (lb : LoadBalancer N) :
  let d := drain_queue (algorithm lb) h (task_queue lb) (processors lb) in
  distribute_tasks h lb
  = (mkLoadBalancer d.1.2 d.1.1 (completed_tasks lb) (task_id_counter lb)
       (algorithm lb) (running lb) (paused lb), d.2).
Proof.
  cbv zeta. unfold distribute_tasks.
  destruct (drain_queue (algorithm lb) h (task_queue lb) (processors lb))
    as [[queue ps] out]. reflexivity.
Qed.

Lemma process_cycle_fields (h : heap N) (lb : LoadBalancer N) :
  let c := cycle_processors h (processors lb) [] in
  process_cycle h lb
  = (c.1.1,
     mkLoadBalancer c.1.2 (task_queue lb)
       (completed_tasks lb + Z.of_nat (length c.2)) (task_id_counter lb)
       (algorithm lb) (running lb) (paused lb),
     c.2).
Proof.
  cbv zeta. unfold process_cycle.
  destruct (cycle_processors h (processors lb) []) as [[h' ps] completed].
  reflexivity.
Qed.

Lemma submseteq_NoDup (l k : list task_ref) : l ⊆+ k -> NoDup k -> NoDup l.
Proof.
  intros Hsub Hk. apply submseteq_Permutation in Hsub as [k' Hperm].
  rewrite Hperm in Hk. apply NoDup_app in Hk. tauto.
Qed.

Lemma concat_tasks_sublist (ps ps' : list (Processor N)) :
  Forall2 (fun p p' => tasks p' `sublist_of` tasks p) ps ps' ->
  concat (map tasks ps') `sublist_of` concat (map tasks ps).
Proof.
  induction 1 as [|p p' ps ps' Hp _ IH]; simpl; [reflexivity|].
  apply sublist_app; assumption.
Qed.

Lemma concat_tasks_new (ids : list Z) :
  concat (map tasks (map (Processor_new (N:=N)) ids)) = [].
Proof. induction ids as [|i ids IH]; [reflexivity | exact IH]. Qed.

Lemma Forall2_same_frame_ids (ps ps' : list (Processor N)) :
  Forall2 (fun p p' => same_frame p p') ps ps' ->
  map proc_id ps' = map proc_id ps /\ length ps' = length ps.
Proof.
  induction 1 as [|p p' ps ps' (Hid & _) _ [IHids IHlen]]; simpl; [auto|].
  split; congruence.
Qed.

Lemma sys_wf_add_task (s : heap N * LoadBalancer N) (ld et : N) :
  sys_wf s -> sys_wf (lb_add_task s.1 s.2 ld et).
Proof.
  destruct s as [h lb]. intros (Hlive & Hnodup & Hhist & Hids).
  cbn [fst snd] in *. unfold lb_add_task.
  assert (Hfresh : fresh (dom h) ∉ placed lb).
  { intros Hin. apply Hlive in Hin. apply elem_of_dom in Hin.
    exact (is_fresh (dom h) Hin). }
  assert (Hperm : placed (mkLoadBalancer (processors lb)
                    (task_queue lb ++ [fresh (dom h)]) (completed_tasks lb)
                    (task_id_counter lb + 1) (algorithm lb) (running lb) (paused lb))
                  ≡ₚ fresh (dom h) :: placed lb).
  { unfold placed. cbn [task_queue processors].
    rewrite <- app_assoc. simpl. rewrite <- Permutation_middle. reflexivity. }
  split; [|split; [|split]]; cbn [fst snd].
  - intros r Hr. rewrite Hperm in Hr. apply elem_of_cons in Hr as [->|Hr].
    + rewrite lookup_insert_eq. eauto.
    + destruct (decide (fresh (dom h) = r)) as [->|Hne].
      * rewrite lookup_insert_eq. eauto.
      * rewrite lookup_insert_ne by exact Hne. apply Hlive, Hr.
  - rewrite Hperm. apply NoDup_cons. auto.
  - exact Hhist.
  - exact Hids.
Qed.

Lemma sys_wf_distribute (s : heap N * LoadBalancer N) :
  sys_wf s -> sys_wf (s.1, (distribute_tasks s.1 s.2).1).
Proof.
  destruct s as [h lb]. intros (Hlive & Hnodup & Hhist & Hids).
  cbn [fst snd] in *. rewrite distribute_tasks_fields. cbn [fst snd].
  pose proof (drain_queue_placed (algorithm lb) h (task_queue lb) (processors lb))
    as Hsub.
  split; [|split; [|split]]; cbn [fst snd].
  - intros r Hr. apply Hlive. eapply elem_of_submseteq; [exact Hr | exact Hsub].
  - eapply submseteq_NoDup; [exact Hsub | exact Hnodup].
  - cbn [processors].
    apply (drain_queue_preserves
             (Forall (fun p => (length (history p) <= 100)%nat))); [|exact Hhist].
    intros task i ps0 Hps0. apply Forall_alter; [exact Hps0|]. auto.
  - unfold ids_sequential in *. cbn [processors].
    apply (drain_queue_preserves
             (fun ps => map proc_id ps = range 0 (Z.of_nat (length ps))));
      [|exact Hids].
    intros task i ps0 Hps0. rewrite length_alter, fmap_alter_keep; auto.
Qed.

Lemma sys_wf_cycle (s : heap N * LoadBalancer N) :
  sys_wf s -> sys_wf (process_cycle s.1 s.2).1.
Proof.
  destruct s as [h lb]. intros (Hlive & Hnodup & Hhist & Hids).
  cbn [fst snd] in *. rewrite process_cycle_fields. cbn [fst snd].
  destruct (cycle_processors_spec h (processors lb) []) as (Hall & Hdom & _ & _).
  assert (Hsub : placed (mkLoadBalancer (cycle_processors h (processors lb) []).1.2
                   (task_queue lb)
                   (completed_tasks lb
                    + Z.of_nat (length (cycle_processors h (processors lb) []).2))
                   (task_id_counter lb) (algorithm lb) (running lb) (paused lb))
                 `sublist_of` placed lb).
  { unfold placed. cbn [task_queue processors]. apply sublist_app; [reflexivity|].
    apply concat_tasks_sublist. eapply Forall2_impl; [exact Hall|].
    simpl. tauto. }
  split; [|split; [|split]]; cbn [fst snd].
  - intros r Hr. apply Hdom, Hlive. eapply elem_of_sublist; eauto.
  - eapply sublist_NoDup; eauto.
  - cbn [processors]. eapply Forall2_Forall_r; [exact Hall|].
    apply Forall_forall. simpl. tauto.
  - unfold ids_sequential in *. cbn [processors].
    destruct (Forall2_same_frame_ids (processors lb)
                (cycle_processors h (processors lb) []).1.2) as [Hmap Hlen].
    { eapply Forall2_impl; [exact Hall|]. simpl. tauto. }
    rewrite Hmap, Hlen. exact Hids.
Qed.

Lemma sys_wf_processor_speed (s : heap N * LoadBalancer N) (i : nat) (v : N) :
  sys_wf s -> sys_wf (s.1, update_processor_speed i v s.2).
Proof.
  destruct s as [h lb]. intros (Hlive & Hnodup & Hhist & Hids).
  cbn [fst snd] in *.
  assert (Hplaced : placed (update_processor_speed i v lb) = placed lb).
  { unfold placed, update_processor_speed. cbn [task_queue processors].
    rewrite fmap_alter_keep by reflexivity. reflexivity. }
  split; [|split; [|split]]; cbn [fst snd]; rewrite ?Hplaced; auto.
  - cbn [update_processor_speed processors]. apply Forall_alter; auto.
  - unfold ids_sequential in *. cbn [update_processor_speed processors].
    rewrite length_alter, fmap_alter_keep; auto.
Qed.

Lemma sys_wf_change_processors (s : heap N * LoadBalancer N) (num : Z) :
  sys_wf s -> sys_wf (s.1, change_processors num s.2).
Proof.
  destruct s as [h lb]. intros (Hlive & Hnodup & Hhist & Hids).
  cbn [fst snd] in *.
  assert (Hcases :
    placed (change_processors num lb) ≡ₚ placed lb
    /\ Forall (fun p => (length (history p) <= 100)%nat)
         (processors (change_processors num lb))).
  { destruct (Z.lt_trichotomy (Z.of_nat (length (processors lb))) num)
      as [Hlt|[Heq|Hgt]].
    - rewrite change_processors_grow by exact Hlt. unfold placed.
      cbn [task_queue processors]. split.
      + rewrite map_app, concat_app, concat_tasks_new, app_nil_r. reflexivity.
      + apply Forall_app. split; [exact Hhist|].
        apply Forall_forall. intros p Hp. map_is_fmap.
        apply list_elem_of_fmap in Hp as (i & -> & _). simpl. lia.
    - unfold change_processors. rewrite Heq, Z.ltb_irrefl. auto.
    - rewrite change_processors_shrink by lia. unfold placed.
      cbn [task_queue processors]. split.
      + rewrite <- (slice_to_from num (processors lb)) at 3.
        rewrite map_app, concat_app, <- app_assoc.
        apply Permutation_app_head, Permutation_app_comm.
      + unfold slice_to. apply Forall_take, Hhist. }
  destruct Hcases as [Hperm Hhist'].
  split; [|split; [|split]]; cbn [fst snd].
  - intros r Hr. rewrite Hperm in Hr. apply Hlive, Hr.
  - rewrite Hperm. exact Hnodup.
  - exact Hhist'.
  - apply change_processors_ids, Hids.
Qed.

Lemma sys_wf_reset (s : heap N * LoadBalancer N) (name : string) :
  sys_wf (s.1, reset_simulation name s.2).
Proof.
  assert (Hplaced : placed (reset_simulation name s.2) = []).
  { unfold placed, reset_simulation, change_algorithm, LoadBalancer_init.
    cbn [task_queue processors]. apply concat_tasks_new. }
  split; [|split; [|split]]; cbn [fst snd]; rewrite ?Hplaced.
  - intros r Hr. inversion Hr.
  - constructor.
  - unfold reset_simulation, change_algorithm, LoadBalancer_init. cbn [processors].
    apply Forall_forall. intros p Hp. map_is_fmap.
    apply list_elem_of_fmap in Hp as (i & -> & _). simpl. lia.
  - apply (LoadBalancer_init_ids (Z.of_nat (length (processors s.2)))).
Qed.

Lemma sys_wf_apply (op : sys_op) (s : heap N * LoadBalancer N) :
  sys_wf s -> sys_wf (apply_sys_op op s).
Proof.
  intros Hwf. destruct op; cbn [apply_sys_op].
  - apply sys_wf_add_task, Hwf.
  - apply sys_wf_distribute, Hwf.
  - apply sys_wf_cycle, Hwf.
  - exact Hwf.
  - apply sys_wf_change_processors, Hwf.
  - apply sys_wf_processor_speed, Hwf.
  - exact Hwf.
  - apply sys_wf_reset.
Qed.

Lemma sys_wf_new (n : Z) : sys_wf (∅, LoadBalancer_init (N:=N) n).
Proof.
  assert (Hplaced : placed (LoadBalancer_init (N:=N) n) = []).
  { unfold placed, LoadBalancer_init. cbn [task_queue processors].
    apply concat_tasks_new. }
  split; [|split; [|split]]; cbn [fst snd]; rewrite ?Hplaced.
  - intros r Hr. inversion Hr.
  - constructor.
  - unfold LoadBalancer_init. cbn [processors].
    apply Forall_forall. intros p Hp. map_is_fmap.
    apply list_elem_of_fmap in Hp as (i & -> & _). simpl. lia.
  - apply LoadBalancer_init_ids.
Qed.

Lemma sys_wf_run (ops : list sys_op) (s : heap N * LoadBalancer N) :
  sys_wf s -> sys_wf (run_sys ops s).
Proof.
  revert s. induction ops as [|op ops IH]; intros s Hwf; simpl.
  - exact Hwf.
  - apply IH, sys_wf_apply, Hwf.
Qed.

End Invariants.

Section RunTheorems.
Context {N : Type} `{PyNum N}.

(** In every run of a balancer (tasks created, distribution passes,
    cycles, changes of algorithm, of the number of processors and of
    speeds, pauses, resets, in any order) a task is in one place at most:
    the queue and the task lists of the processors together hold no task
    reference twice, and they hold only references of tasks that exist. *)
Theorem no_task_is_held_twice (n : Z) (ops : list sys_op) :
  let s := run_sys ops (∅, LoadBalancer_init (N:=N) n) in
  NoDup (task_queue s.2 ++ concat (map tasks (processors s.2)))
  /\ (forall r, r ∈ task_queue s.2 ++ concat (map tasks (processors s.2)) ->
        is_Some (s.1 !! r)).
Proof.
  cbv zeta. destruct (sys_wf_run ops _ (sys_wf_new n)) as (Hlive & Hnodup & _).
  split; [exact Hnodup | exact Hlive].
Qed.

(** In every run every processor has at most 100 samples in its history,
    and the ids of the processors are their positions in the list. *)
Theorem histories_and_ids_in_every_run (n : Z) (ops : list sys_op) :
  let s := run_sys ops (∅, LoadBalancer_init (N:=N) n) in
  Forall (fun p => (length (history p) <= 100)%nat) (processors s.2)
  /\ map proc_id (processors s.2) = range 0 (Z.of_nat (length (processors s.2))).
Proof.
  cbv zeta. destruct (sys_wf_run ops _ (sys_wf_new n)) as (_ & _ & Hhist & Hids).
  split; [exact Hhist | exact Hids].
Qed.

(** A pass of the simulation loop is a run: the tasks of the generator
    are created, a distribution pass follows and, unless that raised, a
    cycle; a paused balancer is left as it is. *)
Lemma simulation_iteration_is_a_run (new_tasks : list (N * N))
    (s : heap N * LoadBalancer N) :
  exists ops, (simulation_iteration new_tasks s).1 = run_sys ops s.
Proof.
  unfold simulation_iteration. destruct (paused s.2).
  - exists []. reflexivity.
  - assert (Hadd : forall s0,
              foldl (fun s' le => lb_add_task s'.1 s'.2 le.1 le.2) s0 new_tasks
              = run_sys (map (fun le => SysAddTask le.1 le.2) new_tasks) s0).
    { induction new_tasks as [|le l IH]; intros s0; simpl; [reflexivity|].
      apply IH. }
    assert (Happ : forall ops1 ops2 s0,
              run_sys (ops1 ++ ops2) s0 = run_sys ops2 (run_sys ops1 s0)).
    { induction ops1 as [|op ops1 IH]; intros ops2 s0; simpl; [reflexivity|].
      apply IH. }
    rewrite Hadd.
    set (s1 := run_sys (map (fun le => SysAddTask le.1 le.2) new_tasks) s).
    destruct (distribute_tasks s1.1 s1.2).2 eqn:Hout.
    + exists (map (fun le => SysAddTask le.1 le.2) new_tasks ++ [SysDistribute; SysCycle]).
      rewrite Happ. reflexivity.
    + exists (map (fun le => SysAddTask le.1 le.2) new_tasks ++ [SysDistribute]).
      rewrite Happ. reflexivity.
Qed.

End RunTheorems.

(** ** Loads and counts in every run (exact arithmetic) *)

Section RunsExact.
Open Scope Q_scope.

Definition loads_consistent (s : heap Q * LoadBalancer Q) : Prop :=
  Forall (fun p => load_consistent (s.1, p)) (processors s.2).

Lemma owned_load_same (h h' : heap Q) (ts : list task_ref) :
  (forall r, r ∈ ts -> load (h' !!! r) = load (h !!! r)) ->
  owned_load h' ts = owned_load h ts.
Proof.
  intros Hsame. unfold owned_load. f_equal.
  induction ts as [|t ts IH]; [reflexivity|]. simpl.
  rewrite Hsame by left. f_equal. apply IH.
  intros r Hr. apply Hsame. right. exact Hr.
Qed.

Lemma load_consistent_same (h h' : heap Q) (p : Processor Q) :
  (forall r, load (h' !!! r) = load (h !!! r)) ->
  load_consistent (h, p) -> load_consistent (h', p).
Proof.
  unfold load_consistent. cbn [fst snd]. intros Hsame Hp.
  rewrite (owned_load_same h h') by auto. exact Hp.
Qed.

Lemma tasks_in_placed (lb : LoadBalancer Q) (p : Processor Q) (r : task_ref) :
  p ∈ processors lb -> r ∈ tasks p -> r ∈ placed lb.
Proof.
  intros Hp Hr. unfold placed. apply elem_of_app. right.
  apply list_elem_of_In, in_concat. exists (tasks p). split.
  - apply in_map, list_elem_of_In, Hp.
  - apply list_elem_of_In, Hr.
Qed.

Lemma cycle_processors_consistent (h : heap Q) (ps : list (Processor Q))
    (completed : list task_ref) :
  Forall (fun p => load_consistent (h, p)) ps ->
  Forall (fun p => load_consistent ((cycle_processors h ps completed).1.1, p))
    (cycle_processors h ps completed).1.2.
Proof.
  revert h completed. induction ps as [|p ps IH]; intros h completed Hall.
  - constructor.
  - apply Forall_cons in Hall as [Hp Hall]. cbn [cycle_processors].
    pose proof (cycle_processor_spec h p) as Hspec. cbv zeta in Hspec.
    assert (Hp' : load_consistent (cycle_processor h p).1).
    { unfold cycle_processor. apply process_tasks_consistent.
      destruct (tasks p) eqn:Ht; [|exact Hp].
      unfold load_consistent in *. cbn [fst snd update_history current_load tasks].
      exact Hp. }
    destruct (cycle_processor h p) as [[h1 p'] finished1].
    cbn [fst snd] in Hspec, Hp'. destruct Hspec as (_ & _ & _ & _ & Hload & _).
    pose proof (IH h1 (completed ++ finished1)) as Hps.
    pose proof (cycle_processors_spec h1 ps (completed ++ finished1)) as Hspec'.
    cbv zeta in Hspec'.
    destruct (cycle_processors h1 ps (completed ++ finished1)) as [[h2 ps''] completed'].
    cbn [fst snd] in Hps, Hspec' |- *. destruct Hspec' as (_ & _ & Hload' & _).
    constructor.
    + apply (load_consistent_same h1 h2); [exact Hload' | exact Hp'].
    + apply Hps. eapply Forall_impl; [exact Hall|]. simpl.
      intros q Hq. apply (load_consistent_same h h1); [exact Hload | exact Hq].
Qed.

Lemma loads_consistent_apply (op : sys_op) (s : heap Q * LoadBalancer Q) :
  sys_wf s -> loads_consistent s -> loads_consistent (apply_sys_op op s).
Proof.
  destruct s as [h lb]. intros (Hlive & _) Hall. unfold loads_consistent in *.
  cbn [fst snd] in *. destruct op; cbn [apply_sys_op fst snd].
  - unfold lb_add_task. cbn [fst snd processors].
    apply Forall_forall. intros p Hp.
    unfold load_consistent. cbn [fst snd].
    rewrite (owned_load_same h).
    + exact (proj1 (Forall_forall _ _) Hall p Hp).
    + intros r Hr. rewrite lookup_total_insert_ne; [reflexivity|].
      intros Heq. subst r.
      pose proof (Hlive _ (tasks_in_placed lb p _ Hp Hr)) as Hsome.
      apply elem_of_dom in Hsome. exact (is_fresh (dom h) Hsome).
  - rewrite distribute_tasks_fields. cbn [fst processors].
    apply (drain_queue_preserves (Forall (fun p => load_consistent (h, p))));
      [|exact Hall].
    intros task i ps0 Hps0. apply Forall_alter; [exact Hps0|].
    intros p _ Hp. apply add_task_consistent, Hp.
  - rewrite process_cycle_fields. cbn [fst snd processors].
    apply cycle_processors_consistent, Hall.
  - exact Hall.
  - destruct (Z.lt_trichotomy (Z.of_nat (length (processors lb))) num)
      as [Hlt|[Heq|Hgt]].
    + rewrite change_processors_grow by exact Hlt. cbn [processors].
      apply Forall_app. split; [exact Hall|].
      apply Forall_forall. intros p Hp. map_is_fmap.
      apply list_elem_of_fmap in Hp as (i & -> & _). reflexivity.
    + unfold change_processors. rewrite Heq, Z.ltb_irrefl. exact Hall.
    + rewrite change_processors_shrink by lia. cbn [processors].
      unfold slice_to. apply Forall_take, Hall.
  - cbn [update_processor_speed processors]. apply Forall_alter; [exact Hall|].
    intros p _ Hp. exact Hp.
  - exact Hall.
  - unfold reset_simulation, change_algorithm, LoadBalancer_init. cbn [processors].
    apply Forall_forall. intros p Hp. map_is_fmap.
    apply list_elem_of_fmap in Hp as (i & -> & _). reflexivity.
Qed.

(** With loads that add and subtract without rounding, in every run of a
    balancer the [current_load] of every processor is the sum of the loads
    of the tasks it holds. *)
Theorem loads_are_consistent_in_every_run (n : Z) (ops : list sys_op) :
  let s := run_sys ops (∅, LoadBalancer_init (N:=Q) n) in
  Forall (fun p => current_load p == owned_load s.1 (tasks p)) (processors s.2).
Proof.
  cbv zeta.
  assert (Hstart : sys_wf (∅, LoadBalancer_init (N:=Q) n)
                   /\ loads_consistent (∅, LoadBalancer_init (N:=Q) n)).
  { split; [apply sys_wf_new|]. unfold loads_consistent, LoadBalancer_init.
    cbn [fst snd processors]. apply Forall_forall. intros p Hp. map_is_fmap.
    apply list_elem_of_fmap in Hp as (i & -> & _). reflexivity. }
  revert Hstart. generalize (∅ : heap Q, LoadBalancer_init (N:=Q) n).
  induction ops as [|op ops IH]; intros s [Hwf Hall]; simpl.
  - exact Hall.
  - apply IH. split; [apply sys_wf_apply, Hwf|].
    apply loads_consistent_apply; assumption.
Qed.

End RunsExact.

(** ** No task is lost or counted twice *)

Section Conservation.
Open Scope Q_scope.

(** The tasks created are the tasks queued, held and completed. *)
Definition conserved (lb : LoadBalancer Q) : Prop :=
  task_id_counter lb
  = (Z.of_nat (length (task_queue lb))
     + Z.of_nat (length (concat (map tasks (processors lb))))
     + completed_tasks lb)%Z.

(** A distribution pass is safe when it has a processor to give tasks to,
    one of the four strategies to choose it and no zero to divide by. *)
Definition safe_op (op : @sys_op Q) (s : heap Q * LoadBalancer Q) : Prop :=
  match op with
  | SysDistribute =>
      processors s.2 <> [] /\ known_algorithm (algorithm s.2)
      /\ ranking_defined (algorithm s.2) (processors s.2)
  | _ => True
  end.

Fixpoint safe_run (ops : list (@sys_op Q)) (s : heap Q * LoadBalancer Q) : Prop :=
  match ops with
  | [] => True
  | op :: ops' => safe_op op s /\ safe_run ops' (apply_sys_op op s)
  end.

Lemma assigned_each_length (h : heap Q) (queue : list task_ref)
    (ps ps' : list (Processor Q)) :
  assigned_each h queue ps ps' ->
  length (concat (map tasks ps'))
  = (length queue + length (concat (map tasks ps)))%nat.
Proof.
  induction 1 as [ps|task queue ps i ps' Hi _ IH]; [reflexivity|].
  rewrite IH. rewrite (Permutation_length (tasks_alter_add_task h task i ps Hi)).
  simpl. lia.
Qed.

Lemma NoDup_concat_each (ps : list (Processor Q)) :
  NoDup (concat (map tasks ps)) -> Forall (fun p => NoDup (tasks p)) ps.
Proof.
  induction ps as [|p ps IH]; simpl; intros Hnodup; [constructor|].
  apply NoDup_app in Hnodup as (Hp & _ & Hps). constructor; auto.
Qed.

Lemma change_processors_placed (num : Z) (lb : LoadBalancer Q) :
  placed (change_processors num lb) ≡ₚ placed lb.
Proof.
  destruct (Z.lt_trichotomy (Z.of_nat (length (processors lb))) num)
    as [Hlt|[Heq|Hgt]].
  - rewrite change_processors_grow by exact Hlt. unfold placed.
    cbn [task_queue processors].
    rewrite map_app, concat_app, concat_tasks_new, app_nil_r. reflexivity.
  - unfold change_processors. rewrite Heq, Z.ltb_irrefl. reflexivity.
  - rewrite change_processors_shrink by lia. unfold placed.
    cbn [task_queue processors].
    rewrite <- (slice_to_from num (processors lb)) at 3.
    rewrite map_app, concat_app, <- app_assoc.
    apply Permutation_app_head, Permutation_app_comm.
Qed.

Lemma conserved_placed (lb : LoadBalancer Q) :
  conserved lb
  <-> task_id_counter lb = (Z.of_nat (length (placed lb)) + completed_tasks lb)%Z.
Proof. unfold conserved, placed. rewrite length_app. split; lia. Qed.

Lemma conserved_apply (op : sys_op) (s : heap Q * LoadBalancer Q) :
  sys_wf s -> safe_op op s -> conserved s.2 -> conserved (apply_sys_op op s).2.
Proof.
  destruct s as [h lb]. intros (_ & Hnodup & _) Hsafe Hcons.
  cbn [fst snd] in *. destruct op; cbn [apply_sys_op fst snd].
  - unfold conserved in *. cbn [lb_add_task snd task_id_counter task_queue
                                 processors completed_tasks].
    rewrite length_app. simpl length. lia.
  - destruct Hsafe as (Hne & Hknown & Hrank).
    destruct (drain_queue_assigns (algorithm lb) h (task_queue lb) (processors lb)
                Hne Hknown Hrank) as (ps' & Hdrain & Hall).
    rewrite distribute_tasks_fields, Hdrain.
    apply assigned_each_length in Hall.
    unfold conserved in *. cbn [fst snd task_id_counter task_queue processors
                                 completed_tasks].
    rewrite Hall. simpl length. lia.
  - rewrite process_cycle_fields. cbn [fst snd].
    destruct (cycle_processors_spec h (processors lb) [])
      as (_ & _ & _ & finished & Hfin & Hcount).
    unfold conserved in *. cbn [task_id_counter task_queue processors completed_tasks].
    rewrite Hfin. simpl length.
    assert (Heach : Forall (fun p => NoDup (tasks p)) (processors lb)).
    { apply NoDup_concat_each. unfold placed in Hnodup.
      apply NoDup_app in Hnodup. tauto. }
    specialize (Hcount Heach). lia.
  - exact Hcons.
  - apply conserved_placed. apply conserved_placed in Hcons.
    rewrite (Permutation_length (change_processors_placed num lb)).
    replace (task_id_counter (change_processors num lb)) with (task_id_counter lb);
      [replace (completed_tasks (change_processors num lb)) with (completed_tasks lb);
       [exact Hcons|]|];
      unfold change_processors;
      destruct (Z.of_nat (length (processors lb)) <? num)%Z;
      try reflexivity;
      destruct (num <? Z.of_nat (length (processors lb)))%Z; reflexivity.
  - apply conserved_placed. apply conserved_placed in Hcons.
    unfold placed in *. cbn [update_processor_speed task_queue processors
                              task_id_counter completed_tasks].
    rewrite fmap_alter_keep by reflexivity. exact Hcons.
  - exact Hcons.
  - apply conserved_placed. unfold placed, reset_simulation, change_algorithm,
      LoadBalancer_init. cbn [task_queue processors task_id_counter completed_tasks].
    rewrite concat_tasks_new. reflexivity.
Qed.

(** As long as every distribution pass of a run finds at least one
    processor, one of the four strategies selected and no zero divisor in
    its ranking, no task is lost and none is counted twice: at every point
    the number of tasks created since the balancer was made is the number
    of tasks in the queue plus the number of tasks that the processors
    hold plus the number of completed tasks. *)
Theorem tasks_are_conserved (n : Z) (ops : list (@sys_op Q)) :
  safe_run ops (∅, LoadBalancer_init n) ->
  let lb := (run_sys ops (∅ : heap Q, LoadBalancer_init n)).2 in
  task_id_counter lb
  = (Z.of_nat (length (task_queue lb))
     + Z.of_nat (length (concat (map tasks (processors lb))))
     + completed_tasks lb)%Z.
Proof.
  cbv zeta.
  assert (Hstart : sys_wf (∅, LoadBalancer_init (N:=Q) n)
                   /\ conserved (∅ : heap Q, LoadBalancer_init (N:=Q) n).2).
  { split; [apply sys_wf_new|]. apply conserved_placed.
    unfold placed, LoadBalancer_init. cbn [snd task_queue processors
      task_id_counter completed_tasks]. rewrite concat_tasks_new. reflexivity. }
  revert Hstart. generalize (∅ : heap Q, LoadBalancer_init (N:=Q) n).
  induction ops as [|op ops IH]; intros s [Hwf Hcons] Hsafe; simpl in *.
  - exact Hcons.
  - destruct Hsafe as [Hop Hsafe]. apply IH; [|exact Hsafe].
    split; [apply sys_wf_apply, Hwf|]. apply conserved_apply; assumption.
Qed.

(** A run on two processors: three tasks, a pass, five cycles (the task
    of duration 5 completes in the last one), a cut to one processor, and
    a pass that places the task of the removed processor again. *)
Definition conservation_run : list (@sys_op Q) :=
  [SysAddTask 40 5; SysAddTask 70 9; SysAddTask 30 9; SysDistribute;
   SysCycle; SysCycle; SysCycle; SysCycle; SysCycle;
   SysChangeProcessors 1; SysDistribute; SysCycle].

Lemma conservation_run_is_safe :
  safe_run conservation_run (∅, LoadBalancer_init 2).
Proof.
  unfold conservation_run. cbn [safe_run safe_op].
  repeat first
    [ exact I
    | split; [exact I|]
    | split;
      [ split; [vm_compute; discriminate|];
        split; [left; vm_compute; reflexivity|];
        split; intros Halg; vm_compute in Halg; discriminate Halg
      | ] ].
Qed.

Lemma tasks_are_conserved_in_a_run :
  let lb := (run_sys conservation_run (∅ : heap Q, LoadBalancer_init 2)).2 in
  task_id_counter lb
  = (Z.of_nat (length (task_queue lb))
     + Z.of_nat (length (concat (map tasks (processors lb))))
     + completed_tasks lb)%Z.
Proof.
  apply (tasks_are_conserved 2 conservation_run). exact conservation_run_is_safe.
Defined.

Lemma conservation_run_computed :
  let lb := (run_sys conservation_run (∅ : heap Q, LoadBalancer_init 2)).2 in
  task_id_counter lb = 3%Z /\ completed_tasks lb = 1%Z
  /\ task_queue lb = [] /\ map tasks (processors lb) = [[2%nat; 1%nat]].
Proof. vm_compute. repeat split; reflexivity. Qed.

End Conservation.

(** ** The two strategies that rank by a quotient

    The keys are the numbers that the code computes, with the arithmetic
    of the number type at hand; on [float] they are binary64 quotients and
    products, rounded as Python rounds them. *)

Section Rankings.
Context {N : Type} `{PyNum N}.

Lemma keys_mapM (f : Processor N -> option N) (ps : list (Processor N))
    (keys : list N) :
  Forall2 (fun p k => f p = Some k) ps keys ->
  mapM (fun ip => k ← f ip.2; Some (k, ip)) (enumerate ps)
  = Some (zip keys (enumerate ps)).
Proof.
  intros Hkeys. apply mapM_Some. apply Forall2_same_length_lookup_2.
  - rewrite length_zip, enumerate_length, (Forall2_length _ _ _ Hkeys). lia.
  - intros j ip kip Hip Hkip.
    apply lookup_zip_with_Some in Hkip as (k & ip' & -> & Hk & Hip').
    assert (ip' = ip) as -> by congruence.
    destruct ip as [i p]. apply enumerate_lookup in Hip as [-> Hp].
    simpl. rewrite (Forall2_lookup_lr _ _ _ _ _ _ Hkeys Hp Hk). reflexivity.
Qed.

(** A strategy that sorts by a key gives the task to the first processor
    with the least key, when the key is defined for every processor and
    [<] orders the keys. *)
Lemma keyed_strategy_first_least (f : Processor N -> option N) (h : heap N)
    (task : task_ref) (ps : list (Processor N)) (keys : list N) :
  ps <> [] -> Forall2 (fun p k => f p = Some k) ps keys -> key_order keys ->
  exists i p k,
    ps !! i = Some p /\ keys !! i = Some k
    /\ (forall j kq, keys !! j = Some kq -> plt kq k = false)
    /\ (forall j kq, (j < i)%nat -> keys !! j = Some kq -> plt k kq = true)
    /\ (keyed ← mapM (fun ip => k ← f ip.2; Some (k, ip)) (enumerate ps);
        Some (assign_to_first h task (sorted keyed) ps))
       = Some (alter (add_task h task) i ps).
Proof.
  intros Hne Hkeys Hord. rewrite (keys_mapM f ps keys Hkeys).
  set (keyed := zip keys (enumerate ps)).
  assert (Hlen : length keys = length ps).
  { symmetry. eapply Forall2_length, Hkeys. }
  assert (Hfst : keyed.*1 = keys).
  { apply fst_zip. rewrite enumerate_length. lia. }
  destruct (sorted_head_least keyed) as (i & e & rest & Hsorted & He & Hmin & Hfirst).
  { intros Hnil. apply Hne, nil_length_inv.
    rewrite <- Hlen, <- Hfst, Hnil. reflexivity. }
  { rewrite Hfst. exact Hord. }
  destruct e as [k [i' p]].
  apply lookup_zip_with_Some in He as (k0 & ip & Heq & Hk & Hip).
  inversion Heq; subst k0 ip. apply enumerate_lookup in Hip as [-> Hp].
  assert (Hat : forall j kq, keys !! j = Some kq ->
                  exists q, keyed !! j = Some (kq, (j, q))).
  { intros j kq Hkq. destruct (lookup_lt_is_Some_2 ps j) as [q Hq].
    { rewrite <- Hlen. eapply lookup_lt_Some, Hkq. }
    exists q. apply lookup_zip_with_Some. exists kq, (j, q).
    split; [reflexivity|]. split; [exact Hkq|]. apply enumerate_lookup. auto. }
  exists i, p, k. split; [exact Hp|]. split; [exact Hk|].
  split.
  { intros j kq Hkq. destruct (Hat j kq Hkq) as [q Hq]. exact (Hmin j _ Hq). }
  split.
  { intros j kq Hj Hkq. destruct (Hat j kq Hkq) as [q Hq].
    exact (Hfirst j _ Hj Hq). }
  csimpl. f_equal. eapply assign_to_first_head, Hsorted.
Qed.

(** The weighted strategy.  Let [keys] be the quotients
    [current_load / processing_speed] of the processors, in order, as the
    number type computes them; all are defined (no speed is zero) and [<]
    orders them (none is a NaN).  Then the task goes to the first
    processor whose key is least: no key is smaller than its key and every
    earlier key is greater.  The task is appended to the task list of
    that processor and its load is added there; nothing else changes. *)
Theorem weighted_picks_first_least_key (h : heap N) (task : task_ref)
    (ps : list (Processor N)) (keys : list N) :
  ps <> [] ->
  Forall2 (fun p k => pdiv (current_load p) (processing_speed p) = Some k) ps keys ->
  key_order keys ->
  exists i p k ps',
    ps !! i = Some p /\ keys !! i = Some k
    /\ (forall j kq, keys !! j = Some kq -> plt kq k = false)
    /\ (forall j kq, (j < i)%nat -> keys !! j = Some kq -> plt k kq = true)
    /\ _weighted_distribution h task ps = Some ps'
    /\ lands_on h task i ps ps'.
Proof.
  intros Hne Hkeys Hord.
  destruct (keyed_strategy_first_least weighted_key h task ps keys Hne Hkeys Hord)
    as (i & p & k & Hp & Hk & Hmin & Hfirst & Hres).
  exists i, p, k, (alter (add_task h task) i ps).
  split; [exact Hp|]. split; [exact Hk|]. split; [exact Hmin|].
  split; [exact Hfirst|]. split; [exact Hres|].
  apply alter_add_task_lands. eapply lookup_lt_Some, Hp.
Qed.




End Rankings.

(** On exact numbers [<] orders every list of keys. *)
Lemma key_order_Q (keys : list Q) : key_order keys.
Proof.
  intros a b c _ _ _. rewrite !plt_Q_false, !plt_Q. repeat split.
  - apply Qle_refl.
  - apply Qlt_trans.
  - intros Hba Hcb. eapply Qle_trans; eassumption.
Qed.

(** The same on binary64, with speeds that the speed control can set. *)

Section RankingsOnFloats.
#[local] Set Warnings "-inexact-float".

Ltac which_key :=
  repeat match goal with
         | Hin : _ ∈ [] |- _ => inversion Hin
         | Hin : _ ∈ _ :: _ |- _ => apply elem_of_cons in Hin as [->|Hin]
         end.

(** Loads 30 and 50 at speeds 0.6 and 1.0, and a further task of load 5. *)
Definition slider_heap : heap float :=
  <[2%nat := Task_init 2 5%float 1%float]>
    (<[1%nat := Task_init 1 50%float 1%float]>
       (<[0%nat := Task_init 0 30%float 1%float]> ∅)).

Definition slider_scenario : list (Processor float) :=
  [set_processing_speed 0.6%float (add_task slider_heap 0%nat (Processor_new 0));
   add_task slider_heap 1%nat (Processor_new 1)].

(** Both quotients are 50.0, a tie, and the task goes to the first
    processor; the exact quotient of 30 by the binary64 number written 0.6
    is greater than 50. *)
Lemma weighted_tie_at_speed_0_6 :
  map weighted_key slider_scenario = [Some 50%float; Some 50%float]
  /\ exists ps',
       _weighted_distribution slider_heap 2%nat slider_scenario = Some ps'
       /\ lands_on slider_heap 2%nat 0%nat slider_scenario ps'
       /\ map tasks ps' = [[0%nat; 2%nat]; [1%nat]].
Proof.
  split; [vm_compute; reflexivity|].
  destruct (weighted_picks_first_least_key slider_heap 2%nat slider_scenario
              [50%float; 50%float])
    as (i & p & k & ps' & Hp & Hk & _ & Hfirst & Hres & Hland).
  - discriminate.
  - repeat constructor; vm_compute; reflexivity.
  - intros a b c Ha Hb Hc. which_key; vm_compute; repeat split; congruence.
  - destruct i as [|[|i]]; simpl in Hk; inversion Hk; subst k.
    + exists ps'. split; [exact Hres|]. split; [exact Hland|].
      vm_compute in Hres. inversion Hres. reflexivity.
    + exfalso. pose proof (Hfirst 0%nat _ (Nat.lt_0_succ 0) eq_refl) as Hlt.
      vm_compute in Hlt. discriminate Hlt.
Defined.




End RankingsOnFloats.

(** ** The number of processors after a change *)

Section ProcessorCount.
Context {N : Type} `{PyNum N}.

Lemma change_processors_length (num : Z) (lb : LoadBalancer N) :
  0 <= num -> length (processors (change_processors num lb)) = Z.to_nat num.
Proof.
  intros Hnum.
  destruct (Z.lt_trichotomy (Z.of_nat (length (processors lb))) num)
    as [Hlt|[Heq|Hgt]].
  - rewrite change_processors_grow by exact Hlt. cbn [processors].
    rewrite length_app, length_map, range_length. lia.
  - unfold change_processors. rewrite Heq, Z.ltb_irrefl. lia.
  - rewrite change_processors_shrink by lia. cbn [processors].
    apply slice_to_length. lia.
Qed.

(** Asking for [num >= 0] processors leaves exactly [num] of them, keeps
    every processor at a position below [num] as it is, and asking again
    changes nothing.  A negative [num] is read as by a Python slice: that
    many processors are cut off the end. *)
Theorem change_processors_sets_the_count (num : Z) (lb : LoadBalancer N) :
  (0 <= num ->
     length (processors (change_processors num lb)) = Z.to_nat num
     /\ (forall i p, (i < Z.to_nat num)%nat -> processors lb !! i = Some p ->
           processors (change_processors num lb) !! i = Some p)
     /\ change_processors num (change_processors num lb) = change_processors num lb)
  /\ (num < 0 ->
      length (processors (change_processors num lb))
      = Z.to_nat (Z.max 0 (Z.of_nat (length (processors lb)) + num))).
Proof.
  split.
  - intros Hnum. split; [apply change_processors_length, Hnum|]. split.
    + intros i p Hi Hp.
      destruct (Z.lt_trichotomy (Z.of_nat (length (processors lb))) num)
        as [Hlt|[Heq|Hgt]].
      * rewrite change_processors_grow by exact Hlt. cbn [processors].
        rewrite lookup_app_l by (eapply lookup_lt_Some, Hp). exact Hp.
      * unfold change_processors. rewrite Heq, Z.ltb_irrefl. exact Hp.
      * rewrite change_processors_shrink by lia. cbn [processors].
        unfold slice_to, slice_index.
        destruct (Z.ltb_spec num 0); [lia|].
        rewrite lookup_take_lt by lia. exact Hp.
    + pose proof (change_processors_length num lb Hnum) as Hlen.
      unfold change_processors at 1. rewrite Hlen, Z2Nat.id by exact Hnum.
      rewrite Z.ltb_irrefl. reflexivity.
  - intros Hneg.
    rewrite change_processors_shrink by lia. cbn [processors].
    unfold slice_to, slice_index. destruct (Z.ltb_spec num 0); [|lia].
    rewrite length_take. lia.
Qed.

End ProcessorCount.

Lemma change_processors_to_three :
  length (processors (change_processors 3 four_busy_processors)) = Z.to_nat 3
  /\ (forall i p, (i < Z.to_nat 3)%nat ->
        processors four_busy_processors !! i = Some p ->
        processors (change_processors 3 four_busy_processors) !! i = Some p)
  /\ change_processors 3 (change_processors 3 four_busy_processors)
     = change_processors 3 four_busy_processors.
Proof.
  apply (change_processors_sets_the_count 3 four_busy_processors). lia.
Defined.

(** ** Task ids *)

Section TaskIds.
Context {N : Type} `{PyNum N}.

Lemma cycle_processors_task_id (h : heap N) (ps : list (Processor N))
    (completed : list task_ref) (x : task_ref) :
  task_id ((cycle_processors h ps completed).1.1 !!! x) = task_id (h !!! x).
Proof.
  revert h completed. induction ps as [|p ps IH]; intros h completed; [reflexivity|].
  cbn [cycle_processors].
  assert (Hp : task_id ((cycle_processor h p).1.1 !!! x) = task_id (h !!! x)).
  { unfold cycle_processor, process_tasks.
    set (p0 := match tasks p with [] => update_history p | _ :: _ => p end).
    pose proof (advance_tasks_fields (processing_speed p0) (tasks p0) h [] x) as Hf.
    cbv zeta in Hf.
    destruct (advance_tasks (processing_speed p0) (tasks p0) h []) as [h' done].
    apply Hf. }
  destruct (cycle_processor h p) as [[h1 p'] finished1]. cbn [fst snd] in Hp.
  pose proof (IH h1 (completed ++ finished1)) as Hps.
  destruct (cycle_processors h1 ps (completed ++ finished1)) as [[h2 ps''] completed'].
  cbn [fst snd] in Hps |- *. congruence.
Qed.

(** The ops that create no task keep the references that the balancer
    holds among the ones it held, and keep the ids of all tasks. *)
Lemma apply_sys_op_keeps (op : sys_op) (s : heap N * LoadBalancer N) :
  (forall ld et, op <> SysAddTask ld et) ->
  (forall r, r ∈ placed (apply_sys_op op s).2 -> r ∈ placed s.2)
  /\ (forall r, task_id ((apply_sys_op op s).1 !!! r) = task_id (s.1 !!! r))
  /\ (task_id_counter (apply_sys_op op s).2 = task_id_counter s.2
      \/ placed (apply_sys_op op s).2 = []).
Proof.
  destruct s as [h lb]. intros Hop.
  destruct op; cbn [apply_sys_op fst snd].
  - exfalso. eapply Hop. reflexivity.
  - rewrite distribute_tasks_fields. cbn [fst snd]. split; [|split; auto].
    intros r Hr. eapply elem_of_submseteq; [exact Hr|].
    apply (drain_queue_placed (algorithm lb) h (task_queue lb) (processors lb)).
  - rewrite process_cycle_fields. cbn [fst snd]. split; [|split; auto].
    + destruct (cycle_processors_spec h (processors lb) []) as (Hall & _).
      intros r Hr. unfold placed in *. cbn [task_queue processors] in Hr.
      apply elem_of_app in Hr as [Hr|Hr]; apply elem_of_app; [left; exact Hr|].
      right. eapply elem_of_sublist; [exact Hr|].
      apply concat_tasks_sublist. eapply Forall2_impl; [exact Hall|].
      simpl. tauto.
    + intros r. apply cycle_processors_task_id.
  - auto.
  - split; [|split; [reflexivity|]].
    + destruct (Z.lt_trichotomy (Z.of_nat (length (processors lb))) num)
        as [Hlt|[Heq|Hgt]].
      * rewrite change_processors_grow by exact Hlt. unfold placed.
        cbn [task_queue processors].
        rewrite map_app, concat_app, concat_tasks_new, app_nil_r. auto.
      * unfold change_processors. rewrite Heq, Z.ltb_irrefl. auto.
      * rewrite change_processors_shrink by lia. unfold placed.
        cbn [task_queue processors]. intros r.
        rewrite <- (slice_to_from num (processors lb)) at 3.
        rewrite map_app, concat_app, !elem_of_app. tauto.
    + left. unfold change_processors.
      destruct (Z.of_nat (length (processors lb)) <? num); [reflexivity|].
      destruct (num <? Z.of_nat (length (processors lb))); reflexivity.
  - split; [|split; auto]. unfold placed, update_processor_speed.
    cbn [task_queue processors]. rewrite fmap_alter_keep by reflexivity. auto.
  - auto.
  - split; [|split; [reflexivity|]].
    + unfold placed, reset_simulation, change_algorithm, LoadBalancer_init.
      cbn [task_queue processors]. rewrite concat_tasks_new.
      intros r Hr. inversion Hr.
    + right. unfold placed, reset_simulation, change_algorithm, LoadBalancer_init.
      cbn [task_queue processors]. apply concat_tasks_new.
Qed.

(** The ids of the tasks that the balancer holds are below its counter
    and differ from each other. *)
Definition ids_wf (s : heap N * LoadBalancer N) : Prop :=
  0 <= task_id_counter s.2
  /\ (forall r, r ∈ placed s.2 -> 0 <= task_id (s.1 !!! r) < task_id_counter s.2)
  /\ (forall r1 r2, r1 ∈ placed s.2 -> r2 ∈ placed s.2 ->
        task_id (s.1 !!! r1) = task_id (s.1 !!! r2) -> r1 = r2).

Lemma ids_wf_apply (op : sys_op) (s : heap N * LoadBalancer N) :
  sys_wf s -> ids_wf s -> ids_wf (apply_sys_op op s).
Proof.
  intros (Hlive & _) (Hpos & Hbound & Hinj).
  assert (Hadd : (exists ld et, op = SysAddTask ld et)
                 \/ (forall ld et, op <> SysAddTask ld et)).
  { destruct op; eauto; right; discriminate. }
  destruct Hadd as [(ld & et & ->)|Hother].
  - destruct s as [h lb]. cbn [apply_sys_op fst snd] in *. unfold lb_add_task.
    assert (Hfresh : fresh (dom h) ∉ placed lb).
    { intros Hin. apply Hlive in Hin. apply elem_of_dom in Hin.
      exact (is_fresh (dom h) Hin). }
    assert (Hmem : forall r,
              r ∈ placed (mkLoadBalancer (processors lb)
                    (task_queue lb ++ [fresh (dom h)]) (completed_tasks lb)
                    (task_id_counter lb + 1) (algorithm lb) (running lb) (paused lb))
              <-> r = fresh (dom h) \/ r ∈ placed lb).
    { intros r. unfold placed. cbn [task_queue processors].
      rewrite !elem_of_app, list_elem_of_singleton. tauto. }
    assert (Hid : forall r,
              task_id (<[fresh (dom h) := Task_init (task_id_counter lb) ld et]> h !!! r)
              = if decide (r = fresh (dom h)) then task_id_counter lb
                else task_id (h !!! r)).
    { intros r. destruct (decide (r = fresh (dom h))) as [->|Hne].
      - rewrite lookup_total_insert_eq. reflexivity.
      - rewrite lookup_total_insert_ne by congruence. reflexivity. }
    split; [|split]; cbn [fst snd task_id_counter].
    + lia.
    + intros r Hr. apply Hmem in Hr. rewrite Hid.
      destruct (decide (r = fresh (dom h))) as [->|Hne]; [lia|].
      destruct Hr as [Hr|Hr]; [contradiction|]. specialize (Hbound r Hr). lia.
    + intros r1 r2 Hr1 Hr2. apply Hmem in Hr1. apply Hmem in Hr2. rewrite !Hid.
      destruct (decide (r1 = fresh (dom h))) as [->|Hne1],
               (decide (r2 = fresh (dom h))) as [->|Hne2]; try reflexivity.
      * destruct Hr2 as [Hr2|Hr2]; [contradiction|].
        specialize (Hbound r2 Hr2). lia.
      * destruct Hr1 as [Hr1|Hr1]; [contradiction|].
        specialize (Hbound r1 Hr1). lia.
      * destruct Hr1 as [Hr1|Hr1]; [contradiction|].
        destruct Hr2 as [Hr2|Hr2]; [contradiction|]. apply Hinj; assumption.
  - destruct (apply_sys_op_keeps op s Hother) as (Hsub & Hsame & Hcounter).
    destruct Hcounter as [Hcounter|Hnil].
    + split; [|split].
      * rewrite Hcounter. exact Hpos.
      * intros r Hr. rewrite Hsame, Hcounter. apply Hbound, Hsub, Hr.
      * intros r1 r2 Hr1 Hr2. rewrite !Hsame. apply Hinj; apply Hsub; assumption.
    + assert (Hreset : 0 <= task_id_counter (apply_sys_op op s).2).
      { destruct op; cbn [apply_sys_op snd]; try exact Hpos.
        - exfalso. eapply Hother. reflexivity.
        - rewrite distribute_tasks_fields. exact Hpos.
        - rewrite process_cycle_fields. exact Hpos.
        - unfold change_processors.
          destruct (Z.of_nat (length (processors s.2)) <? num); [exact Hpos|].
          destruct (num <? Z.of_nat (length (processors s.2))); exact Hpos.
        - cbn. lia. }
      split; [exact Hreset|]. rewrite Hnil. split.
      * intros r Hr. inversion Hr.
      * intros r1 r2 Hr1. inversion Hr1.
Qed.

(** In every run the tasks that the balancer holds have different ids,
    all of them at least 0 and below the counter of task ids. *)
Theorem task_ids_are_unique_in_every_run (n : Z) (ops : list sys_op) :
  let s := run_sys ops (∅, LoadBalancer_init (N:=N) n) in
  let held := task_queue s.2 ++ concat (map tasks (processors s.2)) in
  (forall r, r ∈ held -> 0 <= task_id (s.1 !!! r) < task_id_counter s.2)
  /\ (forall r1 r2, r1 ∈ held -> r2 ∈ held ->
        task_id (s.1 !!! r1) = task_id (s.1 !!! r2) -> r1 = r2).
Proof.
  cbv zeta.
  assert (Hstart : sys_wf (∅, LoadBalancer_init (N:=N) n)
                   /\ ids_wf (∅, LoadBalancer_init (N:=N) n)).
  { split; [apply sys_wf_new|]. unfold ids_wf.
    assert (Hplaced : placed (LoadBalancer_init (N:=N) n) = []).
    { unfold placed, LoadBalancer_init. cbn [task_queue processors].
      apply concat_tasks_new. }
    cbn [fst snd]. rewrite Hplaced. split; [reflexivity|]. split.
    - intros r Hr. inversion Hr.
    - intros r1 r2 Hr1. inversion Hr1. }
  revert Hstart. generalize (∅ : heap N, LoadBalancer_init (N:=N) n).
  induction ops as [|op ops IH]; intros s [Hwf Hids]; simpl.
  - destruct Hids as (_ & Hbound & Hinj). split; assumption.
  - apply IH. split; [apply sys_wf_apply, Hwf|]. apply ids_wf_apply; assumption.
Qed.

End TaskIds.

(** ** The task generator *)

Section Generator.
Context {N : Type} `{PyNum N}.

(** [max(a, b)] and [min(a, b)] of two numbers: the first argument stays
    unless the second is greater (smaller). *)
Definition py_max (a b : N) : N := if plt a b then b else a.
Definition py_min (a b : N) : N := if plt b a then b else a.

End Generator.

Section GeneratorOnFloats.
#[local] Set Warnings "-inexact-float".

(** [generate_tasks], with the three random numbers that it draws as
    arguments: [u] is [random.random()], [g_size] and [g_duration] are the
    two results of [random.gauss]; [rate] is the task rate that is set.
    All four are Python floats, and [0.1] is the binary64 number that the
    literal denotes, so the threshold is the rounded product. *)
Definition generate_tasks (rate u g_size g_duration : float)
    : list (float * float) :=
  if plt u (pmul rate 0.1%float)
  then [(py_max (pint 5) (py_min (pint 100) g_size), py_max (pint 1) g_duration)]
  else [].

Lemma float_ltb_leb (x y : float) :
  PrimFloat.ltb x y = true -> PrimFloat.leb x y = true.
Proof.
  rewrite FloatAxioms.ltb_spec, FloatAxioms.leb_spec. unfold SFltb, SFleb.
  destruct (SFcompare (Prim2SF x) (Prim2SF y)) as [[| |]|];
    intros Hlt; try discriminate Hlt; reflexivity.
Qed.

(** [max(5, min(100, g))]: the draw itself when it lies strictly between
    the bounds, and the bound otherwise; a NaN gives 100. *)
Lemma clamp_size (g : float) :
  let ld := py_max (pint 5) (py_min (pint 100) g) in
  PrimFloat.leb 5 ld = true /\ PrimFloat.leb ld 100 = true
  /\ (PrimFloat.ltb 5 g = true -> PrimFloat.ltb g 100 = true -> ld = g)
  /\ (PrimFloat.ltb g 100 = false -> ld = 100%float)
  /\ (PrimFloat.ltb g 100 = true -> PrimFloat.ltb 5 g = false -> ld = 5%float).
Proof.
  cbv zeta. unfold py_max, py_min. cbn [plt float_PyNum].
  change (pint 5) with 5%float. change (pint 100) with 100%float.
  destruct (PrimFloat.ltb g 100) eqn:Hhigh.
  - destruct (PrimFloat.ltb 5 g) eqn:Hlow.
    + split; [apply float_ltb_leb, Hlow|]. split; [apply float_ltb_leb, Hhigh|].
      split; [reflexivity|]. split; intros; discriminate.
    + split; [reflexivity|]. split; [reflexivity|].
      split; [intros; discriminate|]. split; [intros; discriminate | reflexivity].
  - change (PrimFloat.ltb 5 100) with true. cbv iota.
    split; [reflexivity|]. split; [reflexivity|].
    split; [intros; discriminate|]. split; [reflexivity | intros; discriminate].
Qed.

(** [max(1, g)] *)
Lemma clamp_duration (g : float) :
  let et := py_max (pint 1) g in
  PrimFloat.leb 1 et = true
  /\ (PrimFloat.ltb 1 g = true -> et = g)
  /\ (PrimFloat.ltb 1 g = false -> et = 1%float).
Proof.
  cbv zeta. unfold py_max. cbn [plt float_PyNum]. change (pint 1) with 1%float.
  destruct (PrimFloat.ltb 1 g) eqn:Hlow.
  - split; [apply float_ltb_leb, Hlow|]. split; [reflexivity | intros; discriminate].
  - split; [reflexivity|]. split; [intros; discriminate | reflexivity].
Qed.

(** Whatever the random numbers are, the generator returns at most one
    task, and one exactly when [u < rate * 0.1] holds of the binary64
    product; the load of that task is between 5 and 100 and its duration
    is at least 1; a size drawn strictly between 5 and 100 and a duration
    drawn above 1 are passed on as they are, every other draw gives the
    bound. *)
Theorem generate_tasks_bounds (rate u g_size g_duration : float) :
  (length (generate_tasks rate u g_size g_duration) <= 1)%nat
  /\ (generate_tasks rate u g_size g_duration <> []
      <-> PrimFloat.ltb u (PrimFloat.mul rate 0.1) = true)
  /\ (forall ld et, (ld, et) ∈ generate_tasks rate u g_size g_duration ->
        PrimFloat.leb 5 ld = true /\ PrimFloat.leb ld 100 = true
        /\ PrimFloat.leb 1 et = true
        /\ (PrimFloat.ltb 5 g_size = true -> PrimFloat.ltb g_size 100 = true ->
            ld = g_size)
        /\ (PrimFloat.ltb g_size 100 = false -> ld = 100%float)
        /\ (PrimFloat.ltb g_size 100 = true -> PrimFloat.ltb 5 g_size = false ->
            ld = 5%float)
        /\ (PrimFloat.ltb 1 g_duration = true -> et = g_duration)
        /\ (PrimFloat.ltb 1 g_duration = false -> et = 1%float)).
Proof.
  unfold generate_tasks. cbn [plt pmul float_PyNum].
  destruct (PrimFloat.ltb u (PrimFloat.mul rate 0.1)) eqn:Hu.
  - split; [simpl; lia|]. split; [split; [reflexivity | discriminate]|].
    intros ld et Hin. apply list_elem_of_singleton in Hin. inversion Hin; subst.
    destruct (clamp_size g_size) as (Hlow & Hhigh & Hpass & Htop & Hbottom).
    destruct (clamp_duration g_duration) as (Hone & Hkeep & Hfloor).
    split; [exact Hlow|]. split; [exact Hhigh|]. split; [exact Hone|].
    split; [exact Hpass|]. split; [exact Htop|]. split; [exact Hbottom|].
    split; [exact Hkeep | exact Hfloor].
  - split; [simpl; lia|]. split.
    + split; [contradiction | discriminate].
    + intros ld et Hin. inversion Hin.
Qed.

(** Draws at rate 0.7: the product [0.7 * 0.1] is 0.06999999999999999 in
    binary64, so a draw of that value lets no task through, and a smaller
    draw lets through a task whose size is cut to 100. *)
Lemma generate_tasks_at_rate_0_7 :
  PrimFloat.mul 0.7 0.1 = 0.06999999999999999%float
  /\ generate_tasks 0.7 0.06999999999999999 130 3.5 = []
  /\ generate_tasks 0.7 0.05 130 3.5 = [(100, 3.5)]%float.
Proof. vm_compute. repeat split; reflexivity. Qed.

End GeneratorOnFloats.

(** ** The simulation loop *)

Section Loop.
Context {N : Type} `{PyNum N}.

Definition set_running (b : bool) (lb : LoadBalancer N) : LoadBalancer N :=
  mkLoadBalancer (processors lb) (task_queue lb) (completed_tasks lb)
    (task_id_counter lb) (algorithm lb) b (paused lb).

(** Passes of the loop, one for each list that the task generator
    returns, up to the first pass that raises. *)
Fixpoint simulation_passes (passes : list (list (N * N)))
    (s : heap N * LoadBalancer N) : heap N * LoadBalancer N * outcome :=
  match passes with
  | [] => (s, Returns)
  | new_tasks :: rest =>
      let r := simulation_iteration new_tasks s in
      match r.2 with
      | Returns => simulation_passes rest r.1
      | Raises_ZeroDivisionError => r
      end
  end.

(** [run_simulation]: the flag [running] is set and the loop runs; nothing
    in the program clears the flag, so the passes that are looked at are a
    beginning of the loop. *)
Definition run_simulation (passes : list (list (N * N)))
    (s : heap N * LoadBalancer N) : heap N * LoadBalancer N * outcome :=
  simulation_passes passes (s.1, set_running true s.2).

(** Id, capacity and speed of the processors, in order. *)
Definition frames (ps : list (Processor N)) : list (Z * N * N) :=
  map (fun p => (proc_id p, capacity p, processing_speed p)) ps.

Lemma frames_alter_add_task (h : heap N) (task : task_ref) (i : nat)
    (ps : list (Processor N)) :
  frames (alter (add_task h task) i ps) = frames ps.
Proof. unfold frames. apply fmap_alter_keep. reflexivity. Qed.

Lemma frames_same_frame (ps ps' : list (Processor N)) :
  Forall2 (fun p p' => same_frame p p') ps ps' -> frames ps' = frames ps.
Proof.
  induction 1 as [|p p' ps ps' (Hid & Hcap & Hspeed) _ IH]; [reflexivity|].
  unfold frames in *. simpl. rewrite IH, Hid, Hcap, Hspeed. reflexivity.
Qed.

Lemma frames_nonempty (ps ps' : list (Processor N)) :
  frames ps' = frames ps -> ps <> [] -> ps' <> [].
Proof.
  intros Hf Hne Hnil. subst ps'. destruct ps; [contradiction | discriminate].
Qed.

Lemma add_tasks_keep (new_tasks : list (N * N)) (s : heap N * LoadBalancer N) :
  let s1 := foldl (fun s' le => lb_add_task s'.1 s'.2 le.1 le.2) s new_tasks in
  processors s1.2 = processors s.2 /\ algorithm s1.2 = algorithm s.2
  /\ paused s1.2 = paused s.2 /\ running s1.2 = running s.2.
Proof.
  revert s. induction new_tasks as [|le l IH]; intros s; simpl; [auto|].
  destruct (IH (lb_add_task s.1 s.2 le.1 le.2)) as (Hps & Halg & Hp & Hr).
  cbn [lb_add_task snd processors algorithm paused running] in *. auto.
Qed.

Lemma cycle_keeps_frames (h : heap N) (lb : LoadBalancer N) :
  frames (processors (process_cycle h lb).1.2) = frames (processors lb)
  /\ task_queue (process_cycle h lb).1.2 = task_queue lb
  /\ algorithm (process_cycle h lb).1.2 = algorithm lb
  /\ paused (process_cycle h lb).1.2 = paused lb.
Proof.
  rewrite process_cycle_fields. cbn [fst snd processors task_queue algorithm paused].
  split; [|auto]. apply frames_same_frame.
  destruct (cycle_processors_spec h (processors lb) []) as (Hall & _).
  eapply Forall2_impl; [exact Hall|]. simpl. tauto.
Qed.

End Loop.

Section LoopExact.
Open Scope Q_scope.

Lemma ranking_defined_frames (alg : string) (ps ps' : list (Processor Q)) :
  frames ps' = frames ps -> ranking_defined alg ps -> ranking_defined alg ps'.
Proof.
  intros Hf [Hw Ha].
  assert (Hmove : forall P : Z * Q * Q -> Prop,
            Forall (fun p => P (proc_id p, capacity p, processing_speed p)) ps ->
            Forall (fun p => P (proc_id p, capacity p, processing_speed p)) ps').
  { intros P Hall.
    assert (Hf' : (fun p : Processor Q => (proc_id p, capacity p, processing_speed p))
                    <$> ps'
                  = (fun p : Processor Q => (proc_id p, capacity p, processing_speed p))
                    <$> ps) by exact Hf.
    apply (proj1 (Forall_fmap _ P ps')). rewrite Hf'.
    apply (proj2 (Forall_fmap _ P ps)). exact Hall. }
  split; intros Halg.
  - apply (Hmove (fun f => ~ f.2 == 0)), Hw, Halg.
  - apply (Hmove (fun f => ~ f.1.2 == 0 /\ ~ f.2 == 0)), Ha, Halg.
Qed.

(** One pass on a balancer that has a processor, one of the four
    strategies and no zero divisor. *)
Lemma simulation_iteration_safe (new_tasks : list (Q * Q))
    (s : heap Q * LoadBalancer Q) :
  processors s.2 <> [] -> known_algorithm (algorithm s.2) ->
  ranking_defined (algorithm s.2) (processors s.2) ->
  let r := simulation_iteration new_tasks s in
  r.2 = Returns
  /\ frames (processors r.1.2) = frames (processors s.2)
  /\ algorithm r.1.2 = algorithm s.2
  /\ paused r.1.2 = paused s.2
  /\ (paused s.2 = false -> task_queue r.1.2 = []).
Proof.
  intros Hne Hknown Hrank. cbv zeta. unfold simulation_iteration.
  destruct (paused s.2) eqn:Hpaused.
  { cbn [fst snd]. repeat split; auto. discriminate. }
  destruct (add_tasks_keep new_tasks s) as (Hps & Halg & Hp & _).
  set (s1 := foldl (fun s' le => lb_add_task s'.1 s'.2 le.1 le.2) s new_tasks) in *.
  rewrite <- Hps in Hne, Hrank. rewrite <- Halg in Hknown, Hrank.
  destruct (drain_queue_assigns (algorithm s1.2) s1.1 (task_queue s1.2)
              (processors s1.2) Hne Hknown Hrank) as (ps' & Hdrain & _).
  pose proof (drain_queue_preserves
                (fun ps0 => frames ps0 = frames (processors s1.2))
                (algorithm s1.2) s1.1 (task_queue s1.2) (processors s1.2)) as Hframes.
  rewrite Hdrain in Hframes. cbn [fst snd] in Hframes.
  rewrite distribute_tasks_fields, Hdrain. cbn [fst snd].
  destruct (cycle_keeps_frames s1.1
              (mkLoadBalancer ps' [] (completed_tasks s1.2) (task_id_counter s1.2)
                 (algorithm s1.2) (running s1.2) (paused s1.2)))
    as (Hf & Hq & Ha & Hpa).
  cbn [processors task_queue algorithm paused] in Hf, Hq, Ha, Hpa.
  split; [reflexivity|]. split.
  { rewrite Hf, Hframes, Hps; [reflexivity | | reflexivity].
    intros task i ps0 Hps0. rewrite frames_alter_add_task. exact Hps0. }
  split; [congruence|]. split; [congruence|]. intros _. exact Hq.
Qed.

(** The loop never raises and leaves no task waiting, as long as nobody
    interferes: on a balancer that has at least one processor, one of the
    four strategies selected and no zero divisor in its ranking, every
    pass returns normally, whatever tasks the generator delivers; ids,
    capacities and speeds of the processors, the algorithm and the pause
    flag stay as they are; and when the balancer is not paused the queue
    is empty after every pass. *)
Theorem simulation_loop_never_raises (passes : list (list (Q * Q)))
    (s : heap Q * LoadBalancer Q) :
  processors s.2 <> [] -> known_algorithm (algorithm s.2) ->
  ranking_defined (algorithm s.2) (processors s.2) ->
  let r := run_simulation passes s in
  r.2 = Returns
  /\ frames (processors r.1.2) = frames (processors s.2)
  /\ algorithm r.1.2 = algorithm s.2
  /\ paused r.1.2 = paused s.2
  /\ running r.1.2 = true
  /\ (paused s.2 = false -> passes <> [] -> task_queue r.1.2 = []).
Proof.
  intros Hne Hknown Hrank. cbv zeta. unfold run_simulation.
  assert (Hgen : forall s0 : heap Q * LoadBalancer Q,
            processors s0.2 <> [] -> known_algorithm (algorithm s0.2) ->
            ranking_defined (algorithm s0.2) (processors s0.2) ->
            (simulation_passes passes s0).2 = Returns
            /\ frames (processors (simulation_passes passes s0).1.2)
               = frames (processors s0.2)
            /\ algorithm (simulation_passes passes s0).1.2 = algorithm s0.2
            /\ paused (simulation_passes passes s0).1.2 = paused s0.2
            /\ running (simulation_passes passes s0).1.2 = running s0.2
            /\ (paused s0.2 = false -> passes <> [] ->
                task_queue (simulation_passes passes s0).1.2 = [])).
  { clear. induction passes as [|new_tasks rest IH]; intros s0 Hne Hknown Hrank.
    - cbn [simulation_passes fst snd]. repeat split; auto. contradiction.
    - cbn [simulation_passes].
      destruct (simulation_iteration_safe new_tasks s0 Hne Hknown Hrank)
        as (Hret & Hf & Ha & Hp & Hq).
      assert (Hrun : running (simulation_iteration new_tasks s0).1.2 = running s0.2).
      { unfold simulation_iteration. destruct (paused s0.2); [reflexivity|].
        destruct (add_tasks_keep new_tasks s0) as (_ & _ & _ & Hr).
        set (s1 := foldl (fun s' le => lb_add_task s'.1 s'.2 le.1 le.2) s0 new_tasks) in *.
        rewrite distribute_tasks_fields. cbn [fst snd].
        destruct (drain_queue (algorithm s1.2) s1.1 (task_queue s1.2) (processors s1.2)).2;
          cbn [fst snd]; [|exact Hr].
        rewrite process_cycle_fields. exact Hr. }
      rewrite Hret.
      destruct (IH (simulation_iteration new_tasks s0).1) as (Hret' & Hf' & Ha' & Hp' & Hr' & Hq').
      + eapply frames_nonempty; [exact Hf | exact Hne].
      + rewrite Ha. exact Hknown.
      + rewrite Ha. eapply ranking_defined_frames; [exact Hf | exact Hrank].
      + split; [exact Hret'|]. split; [congruence|]. split; [congruence|].
        split; [congruence|]. split; [congruence|].
        intros Hpaused _. destruct rest as [|new' rest'].
        * cbn [simulation_passes fst snd]. apply Hq, Hpaused.
        * apply Hq'; [congruence | discriminate]. }
  destruct (Hgen (s.1, set_running true s.2) Hne Hknown Hrank)
    as (Hret & Hf & Ha & Hp & Hr & Hq).
  cbn [fst snd set_running processors algorithm paused running] in *.
  repeat split; assumption.
Qed.

(** The balancer of the application as it starts (four processors, the
    strategy called round robin), and three passes. *)
Definition three_passes : list (list (Q * Q)) := [[(40, 5)]; []; [(30, 2)]].

Lemma default_loop_never_raises :
  let r := run_simulation three_passes (∅, LoadBalancer_init 4) in
  r.2 = Returns
  /\ frames (processors r.1.2) = frames (processors (LoadBalancer_init (N:=Q) 4))
  /\ algorithm r.1.2 = algorithm (LoadBalancer_init (N:=Q) 4)
  /\ paused r.1.2 = paused (LoadBalancer_init (N:=Q) 4)
  /\ running r.1.2 = true
  /\ (paused (LoadBalancer_init (N:=Q) 4) = false -> three_passes <> [] ->
      task_queue r.1.2 = []).
Proof.
  apply (simulation_loop_never_raises three_passes (∅, LoadBalancer_init 4)).
  - discriminate.
  - left. reflexivity.
  - split; intros Halg; discriminate Halg.
Defined.

End LoopExact.

(** ** The application: which balancer the loop runs on

    [LoadBalancerApp] keeps the balancer in [self.load_balancer] and starts
    the loop with [threading.Thread(target=self.load_balancer.run_simulation)]:
    the thread is bound to the balancer object that [self.load_balancer]
    names at that moment.  Balancer objects are kept in a list and named by
    their position; [simulation_thread] is the balancer that the live
    thread runs on, or [None] when the thread has ended (a pass raised).
    A pass of the loop and a handler are taken as steps that do not
    overlap. *)

Section Application.
Context {N : Type} `{PyNum N}.

Record App : Type := mkApp {
  balancers : list (LoadBalancer N);
  load_balancer : nat;
  simulation_thread : option nat;
}.

(** [LoadBalancerApp.__init__]: a balancer with four processors, and the
    thread started on it. *)
Definition App_init : App :=
  mkApp [set_running true (LoadBalancer_init 4)] 0 (Some 0%nat).

(** A handler that acts on [self.load_balancer]. *)
Definition on_load_balancer (f : LoadBalancer N -> LoadBalancer N) (app : App) : App :=
  mkApp (alter f (load_balancer app) (balancers app)) (load_balancer app)
    (simulation_thread app).

(** [reset_simulation]: a new balancer becomes [self.load_balancer]; a new
    thread is started on it only when the old thread is not alive. *)
Definition app_reset_simulation (name : string) (app : App) : App :=
  match balancers app !! load_balancer app with
  | None => app
  | Some lb =>
      let new := reset_simulation name lb in
      let position := length (balancers app) in
      match simulation_thread app with
      | Some t => mkApp (balancers app ++ [new]) position (Some t)
      | None => mkApp (balancers app ++ [set_running true new]) position (Some position)
      end
  end.

(** One pass of the loop of the live thread. *)
Definition thread_pass (new_tasks : list (N * N)) (s : heap N * App) : heap N * App :=
  match simulation_thread s.2 with
  | None => s
  | Some t =>
      match balancers s.2 !! t with
      | None => s
      | Some lb =>
          let r := simulation_iteration new_tasks (s.1, lb) in
          (r.1.1,
           mkApp (<[t := r.1.2]> (balancers s.2)) (load_balancer s.2)
             (match r.2 with
              | Returns => Some t
              | Raises_ZeroDivisionError => None
              end))
      end
  end.

Fixpoint thread_passes (passes : list (list (N * N))) (s : heap N * App)
    : heap N * App :=
  match passes with
  | [] => s
  | new_tasks :: rest => thread_passes rest (thread_pass new_tasks s)
  end.

Lemma thread_pass_elsewhere (new_tasks : list (N * N)) (s : heap N * App)
    (t i : nat) :
  (simulation_thread s.2 = Some t \/ simulation_thread s.2 = None) -> i <> t ->
  balancers (thread_pass new_tasks s).2 !! i = balancers s.2 !! i
  /\ load_balancer (thread_pass new_tasks s).2 = load_balancer s.2
  /\ (simulation_thread (thread_pass new_tasks s).2 = Some t
      \/ simulation_thread (thread_pass new_tasks s).2 = None).
Proof.
  intros Hthread Hi. unfold thread_pass.
  destruct (simulation_thread s.2) as [t'|] eqn:Ht; [|auto].
  destruct Hthread as [Heq|Heq]; [|discriminate]. inversion Heq; subst t'.
  destruct (balancers s.2 !! t) as [lb|]; [|rewrite Ht; auto].
  cbn [snd balancers load_balancer simulation_thread].
  split; [apply list_lookup_insert_ne; congruence|]. split; [reflexivity|].
  destruct (simulation_iteration new_tasks (s.1, lb)).2; auto.
Qed.

Lemma thread_passes_elsewhere (passes : list (list (N * N))) (s : heap N * App)
    (t i : nat) :
  (simulation_thread s.2 = Some t \/ simulation_thread s.2 = None) -> i <> t ->
  balancers (thread_passes passes s).2 !! i = balancers s.2 !! i
  /\ load_balancer (thread_passes passes s).2 = load_balancer s.2
  /\ (simulation_thread (thread_passes passes s).2 = Some t
      \/ simulation_thread (thread_passes passes s).2 = None).
Proof.
  revert s. induction passes as [|new_tasks rest IH]; intros s Hthread Hi; simpl.
  - auto.
  - destruct (thread_pass_elsewhere new_tasks s t i Hthread Hi) as (Hb & Hl & Ht).
    destruct (IH (thread_pass new_tasks s) Ht Hi) as (Hb' & Hl' & Ht').
    split; [congruence|]. split; [congruence | exact Ht'].
Qed.

(** A reset while the loop is alive does not move the loop: the new
    balancer becomes the balancer of the application, the thread goes on
    with the balancer it was started on, and however many passes follow
    the new balancer stays as the reset made it, with no task, no sample
    and [running] false. *)
Theorem reset_leaves_the_loop_on_the_old_balancer (name : string) (h : heap N)
    (app : App) (t : nat) (lb : LoadBalancer N) (passes : list (list (N * N))) :
  simulation_thread app = Some t -> (t < length (balancers app))%nat ->
  balancers app !! load_balancer app = Some lb ->
  let app' := app_reset_simulation name app in
  let r := thread_passes passes (h, app') in
  load_balancer app' = length (balancers app)
  /\ load_balancer app' <> t
  /\ load_balancer r.2 = load_balancer app'
  /\ balancers r.2 !! load_balancer r.2 = Some (reset_simulation name lb)
  /\ running (reset_simulation name lb) = false
  /\ Forall (fun p => tasks p = [] /\ history p = [])
       (processors (reset_simulation name lb))
  /\ (simulation_thread r.2 = Some t \/ simulation_thread r.2 = None).
Proof.
  intros Hthread Ht Hlb. cbv zeta. unfold app_reset_simulation.
  rewrite Hlb, Hthread.
  set (app' := mkApp (balancers app ++ [reset_simulation name lb])
                 (length (balancers app)) (Some t)).
  destruct (thread_passes_elsewhere passes (h, app') t (length (balancers app)))
    as (Hb & Hl & Hs).
  { left. reflexivity. }
  { lia. }
  cbn [snd app' balancers load_balancer simulation_thread] in Hb, Hl, Hs.
  change (load_balancer app') with (length (balancers app)).
  split; [reflexivity|]. split; [lia|].
  split; [exact Hl|]. split.
  { rewrite Hl, Hb. apply list_lookup_middle. reflexivity. }
  split; [reflexivity|]. split; [|exact Hs].
  unfold reset_simulation, change_algorithm, LoadBalancer_init. cbn [processors].
  apply Forall_forall. intros p Hp. map_is_fmap.
  apply list_elem_of_fmap in Hp as (i & -> & _). auto.
Qed.

End Application.

(** The application as it starts, reset once, and three passes. *)
Lemma reset_after_start :
  let app' := app_reset_simulation "round_robin" (App_init (N:=Q)) in
  let r := thread_passes three_passes (∅, app') in
  load_balancer app' = length (balancers (App_init (N:=Q)))
  /\ load_balancer app' <> 0%nat
  /\ load_balancer r.2 = load_balancer app'
  /\ balancers r.2 !! load_balancer r.2
     = Some (reset_simulation "round_robin" (set_running true (LoadBalancer_init 4)))
  /\ running (reset_simulation "round_robin"
                (set_running true (LoadBalancer_init (N:=Q) 4))) = false
  /\ Forall (fun p => tasks p = [] /\ history p = [])
       (processors (reset_simulation "round_robin"
                      (set_running true (LoadBalancer_init (N:=Q) 4))))
  /\ (simulation_thread r.2 = Some 0%nat \/ simulation_thread r.2 = None).
Proof.
  apply (reset_leaves_the_loop_on_the_old_balancer "round_robin" ∅ App_init 0%nat
           (set_running true (LoadBalancer_init 4)) three_passes).
  - reflexivity.
  - simpl. lia.
  - reflexivity.
Defined.

(** What the passes did meanwhile: the balancer at position 0, the old
    one, has been ticked (its first processor holds a task and every
    processor has samples), the balancer at position 1 has not. *)
Lemma reset_after_start_computed :
  let r := thread_passes three_passes
             (∅, app_reset_simulation "round_robin" (App_init (N:=Q))) in
  load_balancer r.2 = 1%nat
  /\ map (fun lb => map (fun p => length (history p)) (processors lb)) (balancers r.2)
     = [[3; 6; 6; 6]; [0; 0; 0; 0]]%nat
  /\ map task_id_counter (balancers r.2) = [2; 0].
Proof. vm_compute. repeat split; reflexivity. Qed.

(** ** A pass that raises *)

Section FailedPass.
Open Scope Q_scope.

(** A strategy that returned for one task found no zero divisor, and the
    divisors are fields that [add_task] does not write. *)
Lemma dispatch_Some_ranking (alg : string) (h : heap Q) (task : task_ref)
    (ps ps1 : list (Processor Q)) :
  dispatch alg h task ps = Some ps1 -> ranking_defined alg ps.
Proof.
  intros Hd. split; intros ->.
  - rewrite dispatch_weighted in Hd. unfold _weighted_distribution in Hd.
    apply Forall_forall. intros p Hin Hzero.
    assert (Hnone : mapM (fun ip => k ← weighted_key ip.2; Some (k, ip))
                      (enumerate ps) = None).
    { apply keys_None, Exists_exists. exists p. split; [exact Hin|].
      apply weighted_key_None, Hzero. }
    rewrite Hnone in Hd. discriminate Hd.
  - rewrite dispatch_adaptive in Hd. unfold _adaptive_distribution in Hd.
    apply Forall_forall. intros p Hin.
    assert (Hgood : ~ (capacity p == 0 \/ processing_speed p == 0)); [|tauto].
    intros Hzero.
    assert (Hnone : mapM (fun ip => s ← adaptive_score ip.2; Some (s, ip))
                      (enumerate ps) = None).
    { apply keys_None, Exists_exists. exists p. split; [exact Hin|].
      apply adaptive_score_None, Hzero. }
    rewrite Hnone in Hd. discriminate Hd.
Qed.

Lemma known_algorithm_dec (alg : string) :
  known_algorithm alg \/ ~ known_algorithm alg.
Proof.
  unfold known_algorithm.
  destruct (String.eqb_spec alg "round_robin"); [tauto|].
  destruct (String.eqb_spec alg "least_loaded"); [tauto|].
  destruct (String.eqb_spec alg "weighted"); [tauto|].
  destruct (String.eqb_spec alg "adaptive"); tauto.
Qed.

(** A pass whose first task went through goes through. *)
Lemma drain_queue_after_first (alg : string) (h : heap Q) (task : task_ref)
    (queue : list task_ref) (ps ps1 : list (Processor Q)) :
  dispatch alg h task ps = Some ps1 ->
  (drain_queue alg h (task :: queue) ps).2 = Returns.
Proof.
  intros Hd. destruct ps as [|p0 ps0].
  { rewrite drain_queue_no_processors. reflexivity. }
  destruct (known_algorithm_dec alg) as [Hknown|Hunknown].
  - destruct (drain_queue_assigns alg h (task :: queue) (p0 :: ps0))
      as (ps' & -> & _);
      [discriminate | exact Hknown | exact (dispatch_Some_ranking _ _ _ _ _ Hd)
      | reflexivity].
  - rewrite drain_queue_unknown by exact Hunknown. reflexivity.
Qed.

(** When [distribute_tasks] raises, it raises at the first task it takes:
    the strategy is the weighted or the adaptive one and a processor has a
    zero divisor; the head of the queue is off the queue and with no
    processor, the rest of the queue is still queued, and no processor has
    been given anything. *)
Theorem a_pass_that_raises_loses_the_head_of_the_queue (h : heap Q)
    (lb lb' : LoadBalancer Q) :
  distribute_tasks h lb = (lb', Raises_ZeroDivisionError) ->
  exists task,
    task_queue lb = task :: task_queue lb'
    /\ processors lb' = processors lb
    /\ placed lb ≡ₚ task :: placed lb'
    /\ ((algorithm lb = "weighted"%string
         /\ Exists (fun p => processing_speed p == 0) (processors lb))
        \/ (algorithm lb = "adaptive"%string
            /\ Exists (fun p => capacity p == 0 \/ processing_speed p == 0)
                 (processors lb))).
Proof.
  unfold distribute_tasks. intros Hpass.
  destruct (task_queue lb) as [|task queue] eqn:Hqueue.
  { simpl in Hpass. inversion Hpass. }
  destruct (dispatch (algorithm lb) h task (processors lb)) as [ps1|] eqn:Hd.
  { pose proof (drain_queue_after_first _ h task queue _ ps1 Hd) as Hret.
    destruct (drain_queue (algorithm lb) h (task :: queue) (processors lb))
      as [[q' ps'] out].
    simpl in Hret. subst out. inversion Hpass. }
  simpl in Hpass. rewrite Hd in Hpass. inversion Hpass; subst lb'.
  cbn [task_queue processors]. exists task.
  split; [reflexivity|]. split; [reflexivity|].
  split.
  { unfold placed. cbn [task_queue processors]. rewrite Hqueue. reflexivity. }
  destruct (known_algorithm_dec (algorithm lb)) as [Hknown|Hunknown];
    [|rewrite dispatch_unknown in Hd by exact Hunknown; discriminate Hd].
  destruct Hknown as [Halg | [Halg | [Halg | Halg]]]; rewrite Halg in Hd.
  - rewrite dispatch_round_robin in Hd. discriminate Hd.
  - rewrite dispatch_least_loaded in Hd. discriminate Hd.
  - left. split; [exact Halg|].
    rewrite dispatch_weighted in Hd. unfold _weighted_distribution in Hd.
    destruct (mapM (fun ip => k ← weighted_key ip.2; Some (k, ip))
                (enumerate (processors lb))) as [keyed|] eqn:Hm;
      [discriminate Hd|].
    apply keys_None in Hm. eapply Exists_impl; [exact Hm|].
    intros p Hp. apply weighted_key_None, Hp.
  - right. split; [exact Halg|].
    rewrite dispatch_adaptive in Hd. unfold _adaptive_distribution in Hd.
    destruct (mapM (fun ip => s ← adaptive_score ip.2; Some (s, ip))
                (enumerate (processors lb))) as [keyed|] eqn:Hm;
      [discriminate Hd|].
    apply keys_None in Hm. eapply Exists_impl; [exact Hm|].
    intros p Hp. apply adaptive_score_None, Hp.
Qed.

(** Two processors, the second at speed 0, the weighted strategy, and two
    tasks queued: the pass raises, the first task is gone, the second is
    still queued. *)
Definition stalled_heap : heap Q :=
  <[1%nat := Task_init 1 30 2]> (<[0%nat := Task_init 0 40 5]> ∅).

Definition stalled_balancer : LoadBalancer Q :=
  mkLoadBalancer [Processor_new 0; set_processing_speed 0 (Processor_new 1)]
    [0%nat; 1%nat] 0 2 "weighted" true false.

Lemma a_pass_with_a_stopped_processor :
  exists task,
    task_queue stalled_balancer
    = task :: task_queue (distribute_tasks stalled_heap stalled_balancer).1
    /\ processors (distribute_tasks stalled_heap stalled_balancer).1
       = processors stalled_balancer
    /\ placed stalled_balancer
       ≡ₚ task :: placed (distribute_tasks stalled_heap stalled_balancer).1
    /\ ((algorithm stalled_balancer = "weighted"%string
         /\ Exists (fun p => processing_speed p == 0) (processors stalled_balancer))
        \/ (algorithm stalled_balancer = "adaptive"%string
            /\ Exists (fun p => capacity p == 0 \/ processing_speed p == 0)
                 (processors stalled_balancer))).
Proof.
  apply (a_pass_that_raises_loses_the_head_of_the_queue stalled_heap
           stalled_balancer).
  reflexivity.
Defined.

End FailedPass.
